(** * The sv6 physical page allocator (kalloc.cc): model and properties

    The development follows the source file top to bottom:
    - [PhysMap]: the boot-time map of usable physical memory
      ([class phys_map]);
    - [StealOrder]: the per-CPU order in which buddy allocators are
      visited ([class steal_order]);
    - [Kalloc]: the per-CPU hot page cache in front of the buddy
      allocators ([kalloc], [kfree], [pgalloc]).

    Addresses and byte sizes are 64-bit unsigned words of the source
    ([uintptr_t], [size_t], pointers); they are modelled as [Z], and the
    arithmetic that can wrap around is written with [wrap64].  Indices
    and counts (buddy indices, [nhot]) are modelled as [nat]. *)

From Stdlib Require Import ZArith Lia Bool.
From stdpp Require Import base tactics option list sorting.

Local Open Scope Z_scope.

(** ** Machine words *)

Definition WORD : Z := 2 ^ 64.
Definition UINTPTR_MAX : Z := WORD - 1.
Definition wrap64 (x : Z) : Z := x mod WORD.
(** [~x] on a 64-bit word. *)
Definition not64 (x : Z) : Z := wrap64 (Z.lnot x).

(** * Physical memory map *)

Module PhysMap.

(** [struct region { uintptr_t base, end; }], half open. *)
Record region := mkRegion { base : Z; end_ : Z }.

(** [static_vector<region, 128>]: the vector is modelled as a list; its
    fixed capacity belongs to vector.hh, which the sources do not
    include, and is left out of the model. *)
Definition region_vector := list region.

Definition erase (i : nat) (v : region_vector) : region_vector :=
  take i v ++ drop (S i) v.

Definition insert_at (i : nat) (r : region) (v : region_vector) : region_vector :=
  take i v ++ r :: drop i v.

(** ** [phys_map::add] *)

(** The scan of [add]: either an existing region overlaps or touches the
    new one ([Overlap], at iterator position [i]), or the loop stops at
    the insertion point. *)
Inductive scan := Overlap (i : nat) (it : region) | InsertAt (i : nat).

Fixpoint add_scan (i : nat) (rest : region_vector) (b e : Z) : scan :=
  match rest with
  | [] => InsertAt i
  | it :: rest' =>
      if (e >=? base it) && (b <=? end_ it) then Overlap i it
      else if base it >=? b then InsertAt i
      else add_scan (S i) rest' b e
  end.

(** [add] re-enters itself after erasing the region it merged with, so
    the recursion depth is bounded by the number of regions. *)
Fixpoint add_rec (depth : nat) (regions : region_vector) (b e : Z) : region_vector :=
  match add_scan 0 regions b e with
  | Overlap i it =>
      match depth with
      | S d => add_rec d (erase i regions) (Z.min b (base it)) (Z.max e (end_ it))
      | O => regions
      end
  | InsertAt i => insert_at i (mkRegion b e) regions
  end.

Definition add (regions : region_vector) (b e : Z) : region_vector :=
  add_rec (length regions) regions b e.

(** ** [phys_map::remove(base, end)] *)

(** The loop visits the region under the iterator and then advances; a
    split inserts the upper part right after the iterator, so the next
    iteration visits that new region.  [todo] is the part of the vector
    from the iterator on, the result is what the loop leaves there.
    When [e < b] a split region splits again for ever (the source keeps
    inserting); [steps] bounds the iterations and [None] stands for such
    a run. *)
Fixpoint remove_loop (steps : nat) (todo : region_vector) (b e : Z)
  : option region_vector :=
  match todo with
  | [] => Some []
  | it :: rest =>
      match steps with
      | O => None
      | S n =>
          if (base it <? b) && (e <? end_ it) then
            (* split this region *)
            cons (mkRegion (base it) b) <$> remove_loop n (mkRegion e (end_ it) :: rest) b e
          else if (b <=? base it) && (end_ it <=? e) then
            (* completely remove region *)
            remove_loop n rest b e
          else if (b <=? base it) && (e >? base it) then
            (* left truncate *)
            cons (mkRegion e (end_ it)) <$> remove_loop n rest b e
          else if (b <? end_ it) && (e >=? end_ it) then
            (* right truncate *)
            cons (mkRegion (base it) b) <$> remove_loop n rest b e
          else
            cons it <$> remove_loop n rest b e
      end
  end.

Definition remove (regions : region_vector) (b e : Z) : option region_vector :=
  remove_loop (2 * length regions) regions b e.

(** ** [phys_map::remove(const phys_map &o)] *)

Fixpoint remove_map (regions o : region_vector) : option region_vector :=
  match o with
  | [] => Some regions
  | reg :: o' =>
      regions' ← remove regions (base reg) (end_ reg);
      remove_map regions' o'
  end.

(** ** [phys_map::intersect] *)

Fixpoint intersect_loop (regions o : region_vector) (prevend : Z)
  : option region_vector :=
  match o with
  | [] => remove regions prevend UINTPTR_MAX
  | reg :: o' =>
      regions' ← remove regions prevend (base reg);
      intersect_loop regions' o' (end_ reg)
  end.

Definition intersect (regions o : region_vector) : option region_vector :=
  match o with
  | [] => Some []
  | _ => intersect_loop regions o 0
  end.

(** ** [phys_map::alloc] *)

Inductive alloc_result :=
| Returned (va : Z)       (* [return p2v(pa)] *)
| PanicOutOfMemory        (* "phys_map: out of memory allocating ..." *)
| PanicBadStart.          (* "phys_map: bad start address ..." *)

(** [(pa + align - 1) & ~(align - 1)] on 64-bit words. *)
Definition align_up (pa align : Z) : Z :=
  Z.land (wrap64 (pa + align - 1)) (not64 (wrap64 (align - 1))).

Section Alloc.
(** The translations between kernel virtual and physical addresses
    belong to the memory layout headers, which the sources do not
    include; they are parameters. *)
Variables v2p p2v : Z -> Z.

Fixpoint alloc_loop (regions : region_vector) (pa size align : Z) : alloc_result :=
  match regions with
  | [] => if pa =? 0 then PanicOutOfMemory else PanicBadStart
  | reg :: rest =>
      let pa := if pa =? 0 then base reg else pa in
      if (base reg <=? pa) && (pa <=? end_ reg) then
        let pa := if align =? 0 then pa else align_up pa align in
        if wrap64 (pa + size) <? end_ reg then Returned (p2v pa)
        else alloc_loop rest 0 size align
      else alloc_loop rest pa size align
  end.

Definition alloc (regions : region_vector) (start size align : Z) : alloc_result :=
  alloc_loop regions (v2p start) size align.
End Alloc.

(** ** Well-formed region vectors *)

(** The bytes a map holds. *)
Definition covers (v : region_vector) (x : Z) : Prop :=
  Exists (fun r => base r <= x < end_ r) v.

Definition proper (r : region) : Prop := base r < end_ r.

Definition sorted_by_base (v : region_vector) : Prop :=
  forall i j ri rj, (i < j)%nat -> v !! i = Some ri -> v !! j = Some rj ->
    base ri <= base rj.

Definition pairwise_disjoint (v : region_vector) : Prop :=
  forall i j ri rj, i <> j -> v !! i = Some ri -> v !! j = Some rj ->
    end_ ri <= base rj \/ end_ rj <= base ri.

(** The invariant in the form the loops maintain: every region is
    non-empty and starts no earlier than the previous one ends (and the
    first no earlier than [lo]). *)
Fixpoint chain (lo : Z) (v : region_vector) : Prop :=
  match v with
  | [] => True
  | r :: v' => lo <= base r /\ base r < end_ r /\ chain (end_ r) v'
  end.

Definition wf (v : region_vector) : Prop := exists lo, chain lo v.

(** Regions whose bounds are values of [uintptr_t], the last byte of the
    address space excluded ([intersect] removes up to [~0]). *)
Definition in_range (v : region_vector) : Prop :=
  Forall (fun r => 0 <= base r /\ end_ r <= UINTPTR_MAX) v.

(** What the scan of [add] has established of a region it goes past:
    it neither overlaps nor touches the new range and starts before it. *)
Definition passed (b e : Z) (r : region) : Prop :=
  ~ (base r <= e /\ b <= end_ r) /\ base r < b.

(** Region vectors in which consecutive regions neither overlap nor
    touch, as [add] alone builds them. *)
Fixpoint gapped (lo : Z) (v : region_vector) : Prop :=
  match v with
  | [] => True
  | r :: v' => lo < base r /\ base r < end_ r /\ gapped (end_ r) v'
  end.

(** [add] as one pass over the vector: on such vectors the restart after
    a merge passes the same prefix again, so [add] amounts to this. *)
Fixpoint add_pass (v : region_vector) (b e : Z) : region_vector :=
  match v with
  | [] => [mkRegion b e]
  | it :: v' =>
      if (e >=? base it) && (b <=? end_ it)
      then add_pass v' (Z.min b (base it)) (Z.max e (end_ it))
      else if base it >=? b then mkRegion b e :: it :: v'
      else it :: add_pass v' b e
  end.

(** ** What [alloc] is expected to find *)





(** ** Sequences of operations *)

Inductive op :=
| Add (b e : Z)
| Remove (b e : Z)
| RemoveMap (o : region_vector)
| Intersect (o : region_vector).

Definition apply (v : region_vector) (o : op) : option region_vector :=
  match o with
  | Add b e => Some (add v b e)
  | Remove b e => remove v b e
  | RemoveMap o => remove_map v o
  | Intersect o => intersect v o
  end.

Fixpoint run (v : region_vector) (ops : list op) : option region_vector :=
  match ops with
  | [] => Some v
  | o :: ops' => v' ← apply v o; run v' ops'
  end.

(** The arguments an operation is meant for: a non-empty range to add,
    a range (possibly empty) to remove, a well-formed map to subtract or
    intersect with. *)
Definition op_ok (o : op) : Prop :=
  match o with
  | Add b e => b < e
  | Remove b e => b <= e
  | RemoveMap o => wf o
  | Intersect o => wf o /\ in_range o
  end.

End PhysMap.

(** * Steal order *)

Module StealOrder.

(** [struct segment { size_t low, high; }]: steal from buddies [low, high). *)
Record segment := mkSegment { low : nat; high : nat }.

(** [static_vector<segment, 5>]; as for the region vector the capacity
    is left out of the model. *)
Definition segment_vector := list segment.

(** ** [steal_order::add] *)

(** The range-based [for] evaluates [segments_.end()] once, so the loop
    visits the [count] slots the vector had on entry, by position, and
    reads each slot as it is when reached: [seg] is a reference, and the
    nested [add] may have rewritten the last slot or appended new ones.
    The result is the vector together with the locals [low] and [high]
    on leaving the loop, or [None] for a [return] from inside it. *)
Section AddLoop.
Variable add_nested : segment_vector -> nat -> nat -> option segment_vector.

Fixpoint add_loop (count i : nat) (segments_ : segment_vector) (lo hi : nat)
  : option (segment_vector * option (nat * nat)) :=
  match count with
  | O => Some (segments_, Some (lo, hi))
  | S count' =>
      seg ← segments_ !! i;
      if (lo =? low seg)%nat && (hi =? high seg)%nat then
        Some (segments_, None)
      else if (lo <? low seg)%nat && (high seg <? hi)%nat then
        (* split in two, upper half first *)
        segments_' ← add_nested segments_ (high seg) hi;
        seg' ← segments_' !! i;
        add_loop count' (S i) segments_' lo (low seg')
      else if (lo <? low seg)%nat && (low seg <? hi)%nat then
        (* straddles low boundary *)
        add_loop count' (S i) segments_ lo (low seg)
      else if (lo <? high seg)%nat && (high seg <? hi)%nat then
        (* straddles high boundary *)
        add_loop count' (S i) segments_ (high seg) hi
      else
        add_loop count' (S i) segments_ lo hi
  end.
End AddLoop.

Definition set_back (f : segment -> segment) (segments_ : segment_vector) : segment_vector :=
  alter f (pred (length segments_)) segments_.

(** The part of [add] after the loop. *)
Definition add_tail (segments_ : segment_vector) (lo hi : nat) : segment_vector :=
  if (hi <=? lo)%nat then segments_
  else if (1 <? length segments_)%nat then
    (* try to merge with the last range, unless it is the local range *)
    match last segments_ with
    | Some back =>
        if (high back =? lo)%nat then
          set_back (fun s => mkSegment (low s) hi) segments_
        else if (hi =? low back)%nat then
          set_back (fun s => mkSegment lo (high s)) segments_
        else segments_ ++ [mkSegment lo hi]
    | None => segments_ ++ [mkSegment lo hi]
    end
  else segments_ ++ [mkSegment lo hi].

(** [depth] bounds the nesting of [add] inside itself; [None] is a
    nesting that does not end. *)
Fixpoint add_depth (depth : nat) (segments_ : segment_vector) (lo hi : nat)
  : option segment_vector :=
  match depth with
  | O => None
  | S d =>
      match add_loop (add_depth d) (length segments_) 0 segments_ lo hi with
      | None => None
      | Some (segments_', None) => Some segments_'
      | Some (segments_', Some (lo', hi')) => Some (add_tail segments_' lo' hi')
      end
  end.

(** Each nested call is for a strictly shorter range as long as the
    stored segments are non-empty, hence the bound. *)
Definition add (segments_ : segment_vector) (lo hi : nat) : option segment_vector :=
  add_depth (S (hi - lo)) segments_ lo hi.

(** A steal order built from scratch by a sequence of [add] calls. *)
Fixpoint build (segments_ : segment_vector) (calls : list (nat * nat))
  : option segment_vector :=
  match calls with
  | [] => Some segments_
  | (lo, hi) :: calls' => segments_' ← add segments_ lo hi; build segments_' calls'
  end.

(** ** [get_local], [is_local] *)

Definition get_local (segments_ : segment_vector) : option segment := head segments_.

Definition is_local (segments_ : segment_vector) (index : nat) : option bool :=
  s ← get_local segments_;
  Some ((low s <=? index)%nat && (index <? high s)%nat).

(** ** [steal_order::iterator] *)

(** [It k pos]: [it_] points at slot [k]; [ItEnd]: the default
    constructed iterator, whose [pos_] is 0. *)
Inductive iterator := It (k : nat) (pos_ : nat) | ItEnd.

Definition begin (segments_ : segment_vector) : option iterator :=
  s ← head segments_; Some (It 0 (low s)).

Definition deref (it : iterator) : nat :=
  match it with It _ pos_ => pos_ | ItEnd => 0%nat end.

(** [operator++]; incrementing the end iterator is not defined. *)
Definition incr (segments_ : segment_vector) (it : iterator) : option iterator :=
  match it with
  | It k pos_ =>
      s ← segments_ !! k;
      if (S pos_ =? high s)%nat then
        if (S k =? length segments_)%nat then Some ItEnd
        else s' ← segments_ !! S k; Some (It (S k) (low s'))
      else Some (It k (S pos_))
  | ItEnd => None
  end.

(** The indices a range-based [for] over the steal order visits;
    [steps] bounds the walk. *)
Fixpoint walk (steps : nat) (segments_ : segment_vector) (it : iterator)
  : option (list nat) :=
  match it with
  | ItEnd => Some []
  | It _ _ =>
      match steps with
      | O => None
      | S n =>
          it' ← incr segments_ it;
          rest ← walk n segments_ it';
          Some (deref it :: rest)
      end
  end.

Definition span (segments_ : segment_vector) : nat :=
  foldr (fun s n => (high s - low s + n)%nat) 0%nat segments_.

Definition iterate (segments_ : segment_vector) : option (list nat) :=
  it ← begin segments_; walk (span segments_) segments_ it.


(** The indices of the segments, in order. *)
Definition indices_of (segments_ : segment_vector) : list nat :=
  concat (map (fun s => seq (low s) (high s - low s)) segments_).

End StealOrder.

(** * The page allocator front end *)

Module Kalloc.
Import StealOrder.

(** Modelled from the spec: PAGE_SIZE, the size of one page frame.  The
    constant [PGSIZE] and the macro [PGROUNDUP] belong to mmu.h, which
    is not among the sources; the page is the 4096-byte page of the
    x86-64 target and [PGROUNDUP] rounds up to the next page boundary by
    masking, on 64-bit words. *)
Definition PGSIZE : Z := 4096.

Definition PGROUNDUP (a : Z) : Z :=
  Z.land (wrap64 (a + PGSIZE - 1)) (not64 (PGSIZE - 1)).

(** What kalloc.cc takes from elsewhere: the size of the hot page cache
    (a build parameter), the address of the end of the kernel image
    ([extern char end[]]), and the buddy allocator of buddy.hh with the
    three operations used here.  A null pointer is the address 0. *)
Class Platform := {
  KALLOC_HOT_PAGES : nat;
  kernel_end : Z;
  buddy_allocator : Type;
  MAX_ORDER : nat;
  buddy_contains : buddy_allocator -> Z -> bool;
  buddy_alloc_nothrow : buddy_allocator -> Z -> Z * buddy_allocator;
  buddy_free : buddy_allocator -> Z -> Z -> buddy_allocator;
}.

(** Modelled from the spec: [buddy_allocator::MAX_SIZE], the largest
    block a buddy hands out, [2^MAX_ORDER * PAGE_SIZE]. *)
Definition MAX_SIZE `{Platform} : Z := 2 ^ Z.of_nat MAX_ORDER * PGSIZE.

(** ** What a run leaves behind *)

Inductive counter :=
| kalloc_hot_list_refill_count
| kalloc_hot_list_steal_count
| kalloc_hot_list_flush_count
| kalloc_hot_list_remote_free_count
| kalloc_page_alloc_count
| kalloc_page_free_count.

(** The trace records, in program order, every buddy lock taken, every
    call into a buddy allocator and every statistics counter bumped.
    The model runs one CPU at a time: a lock acquisition is recorded,
    whether it could have to wait is not modelled. *)
Inductive event :=
| Acquire (buddy : nat)
| BuddyAlloc (buddy : nat) (size : Z) (result : Z)
| BuddyFree (buddy : nat) (ptr : Z) (size : Z)
| Count (c : counter)
| OutOfMemoryMessage.

(** ** State *)

Section WithPlatform.
Context `{Platform}.

(** [struct cpu_mem]. *)
Record cpu_mem := mkCpuMem {
  steal : segment_vector;
  mempool : nat;
  hot_pages : list Z;          (* [void *hot_pages[KALLOC_HOT_PAGES]] *)
  nhot : nat;
}.

Record kstate := mkState {
  kinited : bool;
  newend : Z;
  memory : Z -> Z;             (* the byte at each address *)
  cpus : list cpu_mem;         (* [percpu<struct cpu_mem>] *)
  buddies : list buddy_allocator;
  trace : list event;
}.

Definition set_cpu (c : nat) (mem : cpu_mem) (bs : list buddy_allocator)
    (tr : list event) (st : kstate) : kstate :=
  mkState (kinited st) (newend st) (memory st) (<[c := mem]> (cpus st)) bs tr.

Definition set_buddies (bs : list buddy_allocator) (tr : list event)
    (st : kstate) : kstate :=
  mkState (kinited st) (newend st) (memory st) (cpus st) bs tr.

(** ** Outcomes *)

Inductive failure :=
| AssertFailed            (* an [assert] does not hold *)
| PanicNotAllocated       (* "kfree: pointer %p is not in an allocated region" *)
| Undefined               (* access outside an array, empty steal order *)
| Unfinished.             (* a loop ran out of the steps given to it *)

Inductive result (A : Type) :=
| Ok (a : A)
| Failed (f : failure).
Global Arguments Ok {A} a.
Global Arguments Failed {A} f.

Global Instance result_bind : MBind result := fun A B k m =>
  match m with
  | Ok a => k a
  | Failed f => Failed f
  end.

Definition defined {A} (o : option A) : result A :=
  match o with
  | Some a => Ok a
  | None => Failed Undefined
  end.

(** ** [pgalloc] *)

(** [memset(p, c, n)]. *)
Definition memset (m : Z -> Z) (p c n : Z) : Z -> Z :=
  fun a => if (p <=? a) && (a <? p + n) then c else m a.

Definition pgalloc (st : kstate) : Z * kstate :=
  let newend0 := if newend st =? 0 then kernel_end else newend st in
  let p := PGROUNDUP newend0 in
  (p, mkState (kinited st) (wrap64 (newend0 + PGSIZE))
        (memset (memory st) p 0 PGSIZE) (cpus st) (buddies st) (trace st)).

(** The address the next [pgalloc] starts from. *)
Definition boot_break (st : kstate) : Z :=
  if newend st =? 0 then kernel_end else newend st.

(** ** [kalloc] *)

(** The tail of [kalloc]: the caller gets [res], or null after the
    message "kalloc: out of memory".  The debugging fill under
    [ALLOC_MEMSET] and the mtrace labels touch only page contents and
    the tracer, and are left out. *)
Definition finish (res : Z) (st : kstate) : result (Z * kstate) :=
  if res =? 0
  then Ok (0, set_buddies (buddies st) (trace st ++ [OutOfMemoryMessage]) st)
  else Ok (res, st).

(** The general path: ask each buddy in steal order. *)
Fixpoint general_loop (order : list nat) (size : Z)
    (bs : list buddy_allocator) (tr : list event)
  : result (Z * list buddy_allocator * list event) :=
  match order with
  | [] => Ok (0, bs, tr)
  | idx :: order' =>
      lb ← defined (bs !! idx);
      let '(res, lb') := buddy_alloc_nothrow lb size in
      let bs := <[idx := lb']> bs in
      let tr := tr ++ [Acquire idx; BuddyAlloc idx size res] in
      if res =? 0 then general_loop order' size bs tr else Ok (res, bs, tr)
  end.

Definition general (c : nat) (size : Z) (st : kstate) : result (Z * kstate) :=
  mem ← defined (cpus st !! c);
  order ← defined (iterate (steal mem));
  '(res, bs, tr) ← general_loop order size (buddies st) (trace st);
  finish res (set_buddies bs tr st).

Inductive refill_exit := Refilled | GotoGeneral.

(** The refill loop.  An iterator over the steal order is kept as the
    list of indices it has still to yield: [*it] is the head of the list
    (0 for the end iterator), [++it] its tail, and the end iterator the
    empty list. *)
Fixpoint refill_loop (steps : nat) (order : segment_vector)
    (buddyit : list nat) (lb : nat) (mem : cpu_mem)
    (bs : list buddy_allocator) (tr : list event)
  : result (refill_exit * cpu_mem * list buddy_allocator * list event) :=
  if (nhot mem <? KALLOC_HOT_PAGES / 2)%nat && negb (bool_decide (buddyit = [])) then
    match steps with
    | O => Failed Unfinished
    | S steps' =>
        b ← defined (bs !! lb);
        let '(page, b') := buddy_alloc_nothrow b PGSIZE in
        let bs := <[lb := b']> bs in
        let tr := tr ++ [BuddyAlloc lb PGSIZE page] in
        if page =? 0 then
          (* move to the next allocator *)
          let buddyit := tail buddyit in
          if bool_decide (buddyit = []) && (nhot mem =? 0)%nat then
            Ok (GotoGeneral, mem, bs, tr)
          else
            let lb := hd 0%nat buddyit in
            _ ← defined (bs !! lb);
            local ← defined (is_local order lb);
            let tr := tr ++ [Acquire lb] ++
                      (if local : bool then [] else [Count kalloc_hot_list_steal_count]) in
            refill_loop steps' order buddyit lb mem bs tr
        else
          (* [mem->hot_pages[mem->nhot++] = page] *)
          let mem := mkCpuMem (steal mem) (mempool mem)
                       (<[nhot mem := page]> (hot_pages mem)) (S (nhot mem)) in
          refill_loop steps' order buddyit lb mem bs tr
    end
  else Ok (Refilled, mem, bs, tr).

(** The version of [kalloc] compiled without [KALLOC_LOAD_BALANCE];
    [c] is the CPU the caller runs on ([mycpu()]). *)
Definition kalloc (c : nat) (size : Z) (st : kstate) : result (Z * kstate) :=
  if negb (kinited st) then
    if size =? PGSIZE then Ok (pgalloc st) else Failed AssertFailed
  else if size =? PGSIZE then
    (* go to the hot list *)
    mem ← defined (cpus st !! c);
    '(exit, mem, bs, tr) ←
      (if (nhot mem =? 0)%nat then
         (* no hot pages; fill half of the cache *)
         buddyit ← defined (iterate (steal mem));
         let lb := hd 0%nat buddyit in
         _ ← defined (buddies st !! lb);
         refill_loop (KALLOC_HOT_PAGES / 2 + length buddyit) (steal mem)
           buddyit lb mem (buddies st)
           (trace st ++ [Count kalloc_hot_list_refill_count; Acquire lb])
       else Ok (Refilled, mem, buddies st, trace st));
    match exit with
    | GotoGeneral => general c size (set_cpu c mem bs tr st)
    | Refilled =>
        (* [res = mem->hot_pages[--mem->nhot]] *)
        match nhot mem with
        | O => Failed Undefined
        | S n =>
            res ← defined (hot_pages mem !! n);
            let mem := mkCpuMem (steal mem) (mempool mem) (hot_pages mem) n in
            finish res (set_cpu c mem bs (tr ++ [Count kalloc_page_alloc_count]) st)
        end
    end
  else general c size st.

(** ** [kfree] *)

(** [std::sort] on an array of pointers: ascending order of address. *)
Definition sort (l : list Z) : list Z := merge_sort Z.le l.

(** The first buddy in the given order whose window contains [ptr]. *)
Fixpoint find_buddy (order : list nat) (bs : list buddy_allocator) (ptr : Z)
  : result (option nat) :=
  match order with
  | [] => Ok None
  | buddyidx :: order' =>
      b ← defined (bs !! buddyidx);
      if buddy_contains b ptr then Ok (Some buddyidx)
      else find_buddy order' bs ptr
  end.

(** The buddy a page of the flush goes to, and the trace afterwards:
    the buddy whose lock is held ([lb]) if its window contains [ptr],
    otherwise the first buddy in steal order that does, whose lock is
    then taken. *)
Definition flush_buddy (ptr : Z) (order : segment_vector) (lb : option nat)
    (bs : list buddy_allocator) (tr : list event) : result (nat * list event) :=
  (* do we have the right buddy? *)
  right_buddy ←
    match lb with
    | None => Ok None
    | Some i =>
        b ← defined (bs !! i);
        Ok (if buddy_contains b ptr then Some i else None)
    end;
  match right_buddy with
  | Some i => Ok (i, tr)
  | None =>
      (* find the first buddy in steal order that contains ptr *)
      indices ← defined (iterate order);
      found ← find_buddy indices bs ptr;
      match found with
      | None => Failed AssertFailed
      | Some i =>
          local ← defined (is_local order i);
          Ok (i, tr ++ (if local : bool then []
                        else [Count kalloc_hot_list_remote_free_count])
                    ++ [Acquire i])
      end
  end.

(** The loop that hands the sorted pages back; [lb] is the buddy whose
    lock is held, if any. *)
Fixpoint flush_loop (ptrs : list Z) (order : segment_vector) (lb : option nat)
    (bs : list buddy_allocator) (tr : list event)
  : result (list buddy_allocator * list event) :=
  match ptrs with
  | [] => Ok (bs, tr)
  | ptr :: ptrs' =>
      '(i, tr) ← flush_buddy ptr order lb bs tr;
      b ← defined (bs !! i);
      flush_loop ptrs' order (Some i) (<[i := buddy_free b ptr PGSIZE]> bs)
        (tr ++ [BuddyFree i ptr PGSIZE])
  end.

(** The version of [kfree] compiled without [KALLOC_LOAD_BALANCE]. *)
Definition kfree (c : nat) (v size : Z) (st : kstate) : result kstate :=
  mem ← defined (cpus st !! c);
  if size =? PGSIZE then
    (* free to the hot list *)
    '(mem, bs, tr) ←
      (if (nhot mem =? KALLOC_HOT_PAGES)%nat then
         (* no more room: free half of the list, sorted *)
         let half := (KALLOC_HOT_PAGES / 2)%nat in
         let hot := sort (take half (hot_pages mem)) ++ drop half (hot_pages mem) in
         '(bs, tr) ← flush_loop (take half hot) (steal mem) None (buddies st)
                       (trace st ++ [Count kalloc_hot_list_flush_count]);
         (* shift hot page list down *)
         let n := (KALLOC_HOT_PAGES - half)%nat in
         let hot := take n (drop half hot) ++ drop n hot in
         Ok (mkCpuMem (steal mem) (mempool mem) hot n, bs, tr)
       else Ok (mem, buddies st, trace st));
    (* [mem->hot_pages[mem->nhot++] = v] *)
    if (nhot mem <? KALLOC_HOT_PAGES)%nat then
      let mem := mkCpuMem (steal mem) (mempool mem)
                   (<[nhot mem := v]> (hot_pages mem)) (S (nhot mem)) in
      Ok (set_cpu c mem bs (tr ++ [Count kalloc_page_free_count]) st)
    else Failed Undefined
  else
    (* find the first allocator in steal order to return v to *)
    indices ← defined (iterate (steal mem));
    found ← find_buddy indices (buddies st) v;
    match found with
    | Some buddyidx =>
        b ← defined (buddies st !! buddyidx);
        Ok (set_buddies (<[buddyidx := buddy_free b v size]> (buddies st))
              (trace st ++ [Acquire buddyidx; BuddyFree buddyidx v size]) st)
    | None => Failed PanicNotAllocated
    end.


(** ** The hot cache invariant *)

Definition in_some_window (bs : list buddy_allocator) (p : Z) : Prop :=
  exists i b, bs !! i = Some b /\ buddy_contains b p = true.

Definition page_aligned (p : Z) : Prop := p mod PGSIZE = 0.

Definition hot_cache_ok (bs : list buddy_allocator) (mem : cpu_mem) : Prop :=
  (nhot mem <= KALLOC_HOT_PAGES)%nat /\
  length (hot_pages mem) = KALLOC_HOT_PAGES /\
  forall i p, (i < nhot mem)%nat -> hot_pages mem !! i = Some p ->
    page_aligned p /\ in_some_window bs p.

Definition hot_caches_ok (st : kstate) : Prop :=
  Forall (hot_cache_ok (buddies st)) (cpus st).

(** The buddies have the windows they had. *)
Definition same_windows (bs bs' : list buddy_allocator) : Prop :=
  Forall2 (fun b b' => forall q, buddy_contains b' q = buddy_contains b q) bs bs'.

(** The buddy allocator keeps its window over [free] and [alloc]. *)
Definition free_keeps_window : Prop :=
  forall b p size q, buddy_contains (buddy_free b p size) q = buddy_contains b q.

Definition alloc_keeps_window : Prop :=
  forall b size q,
    buddy_contains (buddy_alloc_nothrow b size).2 q = buddy_contains b q.

(** A page a buddy hands out is page-aligned and lies in its window. *)
Definition alloc_page_in_window : Prop :=
  forall b,
    (buddy_alloc_nothrow b PGSIZE).1 <> 0 ->
    page_aligned (buddy_alloc_nothrow b PGSIZE).1 /\
    buddy_contains (buddy_alloc_nothrow b PGSIZE).2
      (buddy_alloc_nothrow b PGSIZE).1 = true.

(** Some buddy among [indices] has [p] in its window. *)
Definition reachable (indices : list nat) (bs : list buddy_allocator) (p : Z) : Prop :=
  exists i b, i ∈ indices /\ bs !! i = Some b /\ buddy_contains b p = true.

(** The buddy frees and lock acquisitions a trace records. *)
Definition frees (tr : list event) : list Z :=
  omap (fun ev => match ev with BuddyFree _ ptr _ => Some ptr | _ => None end) tr.

Definition acquired (tr : list event) : list nat :=
  omap (fun ev => match ev with Acquire i => Some i | _ => None end) tr.

End WithPlatform.

(** ** A small platform to run the model on *)

(** A buddy that keeps its window, in pages, and a list of free page
    numbers, and serves single pages only. *)
Record page_pool := mkPool { pool_lo : Z; pool_hi : Z; pool_free : list Z }.

Definition pool_alloc (b : page_pool) (size : Z) : Z * page_pool :=
  if size =? PGSIZE then
    match pool_free b with
    | n :: rest =>
        if (pool_lo b <=? n) && (n <? pool_hi b)
        then (n * PGSIZE, mkPool (pool_lo b) (pool_hi b) rest)
        else (0, b)
    | [] => (0, b)
    end
  else (0, b).

Definition pool_platform (hot : nat) : Platform := {|
  KALLOC_HOT_PAGES := hot;
  kernel_end := 0x200123;
  buddy_allocator := page_pool;
  MAX_ORDER := 0;
  buddy_contains b p := (pool_lo b * PGSIZE <=? p) && (p <? pool_hi b * PGSIZE);
  buddy_alloc_nothrow := pool_alloc;
  buddy_free b p size := mkPool (pool_lo b) (pool_hi b) (p / PGSIZE :: pool_free b);
|}.

(** Two CPUs over two pools of pages 16..31 and 32..63, after
    initialization, with empty hot caches of four slots. *)
Definition demo_cpu : cpu_mem :=
  mkCpuMem [mkSegment 0 1; mkSegment 1 2] 0 [0; 0; 0; 0] 0.

Definition demo_state : @kstate (pool_platform 4) :=
  @mkState (pool_platform 4) true 0 (fun _ => 0) [demo_cpu; demo_cpu]
    [mkPool 16 32 [16; 17; 18]; mkPool 32 64 [32; 33]] [].

(** The same machine before initialization. *)
Definition demo_boot_state : @kstate (pool_platform 4) :=
  @mkState (pool_platform 4) false 0 (fun _ => 7) [demo_cpu; demo_cpu]
    [mkPool 16 32 [16; 17; 18]; mkPool 32 64 [32; 33]] [].

End Kalloc.

(** * Queries on the physical memory map *)

Module PhysQuery.
Import PhysMap.

Section Queries.
(** As for [alloc], the translation from a kernel virtual address to a
    physical one is a parameter. *)
Variable v2p : Z -> Z.



(** [phys_map::bytes_after]. *)
Definition bytes_after (regions : region_vector) (start : Z) : Z :=
  let pa := v2p start in
  foldl (fun total reg =>
           if base reg >? pa then wrap64 (total + wrap64 (end_ reg - base reg))
           else if (base reg <=? pa) && (pa <=? end_ reg)
                then wrap64 (total + wrap64 (end_ reg - pa))
                else total)
        0 regions.
End Queries.

(** [phys_map::bytes]. *)
Definition bytes (regions : region_vector) : Z :=
  foldl (fun total reg => wrap64 (total + wrap64 (end_ reg - base reg))) 0 regions.

(** [phys_map::max]. *)
Definition max (regions : region_vector) : Z :=
  match last regions with
  | None => 0
  | Some reg => end_ reg
  end.

(** The sizes of the regions added up as integers, without the
    wrap-around of [size_t]. *)
Definition total_size (regions : region_vector) : Z :=
  foldr (fun reg n => end_ reg - base reg + n) 0 regions.

(** [phys_map::base]; the local [b] starts at 0, which the loop also
    takes to mean that no base has been seen yet. *)
Definition base (regions : region_vector) : Z :=
  foldl (fun b reg =>
           let b := if b =? 0 then PhysMap.base reg else b in
           if PhysMap.base reg <? b then PhysMap.base reg else b)
        0 regions.

(** What [bytes_after] counts of a region, as an integer. *)
Definition size_after (pa : Z) (reg : region) : Z :=
  if PhysMap.base reg >? pa then end_ reg - PhysMap.base reg
  else if (PhysMap.base reg <=? pa) && (pa <=? end_ reg) then end_ reg - pa
  else 0.

(** The addresses of a map, region by region. *)
Definition addresses (regions : region_vector) : list Z :=
  r ← regions; seqZ (PhysMap.base r) (end_ r - PhysMap.base r).

End PhysQuery.

(** * What [steal_order::add] keeps *)

Module StealInv.
Import StealOrder.



End StealInv.

(** * Boot: building the memory map and the allocators *)

(** An entry of the multiboot memory map ([struct Mbmem]).  The struct
    belongs to multiboot.hh, which is not among the sources; the fields
    are those [parse_mb_map] reads, [base] and [length] being 64-bit
    words. *)
Module Mbmem.
Record t := mk { size : Z; base : Z; length : Z; type : Z }.
End Mbmem.

Module Boot.
Import PhysMap.

(** ** [parse_mb_map] *)

Inductive parsed :=
| Parsed (mem : region_vector)
| PanicNoMemoryMap        (* "multiboot header has no memory map" *)
| ParseUnfinished.        (* a [remove] that does not end *)

(** Each of the three loops walks the map from [mmap_addr] to
    [mmap_addr + mmap_length], stepping by [4 + size] bytes; [entries]
    is the list of entries such a walk visits.  The first loop only
    prints. *)
Definition parse_mb_map (flags : Z) (entries : list Mbmem.t) (mem : region_vector)
  : parsed :=
  if Z.land flags (Z.shiftl 1 6) =? 0 then PanicNoMemoryMap
  else
    (* add and merge usable regions *)
    let mem :=
      foldl (fun mem mbmem =>
               if Mbmem.type mbmem =? 1
               then add mem (Mbmem.base mbmem)
                      (wrap64 (Mbmem.base mbmem + Mbmem.length mbmem))
               else mem) mem entries in
    (* remove unusable regions *)
    match
      foldl (fun mem mbmem =>
               mem ← mem;
               if negb (Mbmem.type mbmem =? 1)
               then remove mem (Mbmem.base mbmem)
                      (wrap64 (Mbmem.base mbmem + Mbmem.length mbmem))
               else Some mem) (Some mem) entries
    with
    | Some mem => Parsed mem
    | None => ParseUnfinished
    end.

(** The bytes of an entry, and an entry whose fields are 64-bit words
    with [base + length] inside the address space. *)
Definition within (mbmem : Mbmem.t) (x : Z) : Prop :=
  Mbmem.base mbmem <= x < Mbmem.base mbmem + Mbmem.length mbmem.

Definition entry_ok (mbmem : Mbmem.t) : Prop :=
  0 <= Mbmem.base mbmem /\ 0 <= Mbmem.length mbmem /\
  Mbmem.base mbmem + Mbmem.length mbmem < WORD /\
  (Mbmem.type mbmem = 1 -> 0 < Mbmem.length mbmem).

(** ** [initkalloc]: associating buddies with CPUs *)

(** The buddies given to the CPU that comes [cpu_index]-th among the
    [ncpus] CPUs of a node whose buddies are [node_low, node_low +
    node_buddies); [None] is a failure of
    [assert(cpu_high <= node_low + node_buddies)]. *)
Definition cpu_range (node_low node_buddies ncpus cpu_index : nat)
  : option (nat * nat) :=
  let cpu_low := (node_low + cpu_index * node_buddies / ncpus)%nat in
  let cpu_high := (node_low + (cpu_index + 1) * node_buddies / ncpus)%nat in
  (* more CPUs than subnodes: the assignments overlap *)
  let cpu_high := if (cpu_low =? cpu_high)%nat then S cpu_high else cpu_high in
  if (cpu_high <=? node_low + node_buddies)%nat then Some (cpu_low, cpu_high)
  else None.

(** The steal order of such a CPU once [initkalloc] is through: first
    the buddies assigned to it, then those of its node, and finally, in
    the last loop, all [total] buddies of the machine.  The steal order
    starts out empty. *)
Definition cpu_steal_order (cpu_low cpu_high node_low node_buddies total : nat)
  : option StealOrder.segment_vector :=
  StealOrder.build []
    [(cpu_low, cpu_high); (node_low, (node_low + node_buddies)%nat); (0%nat, total)].

End Boot.

(** * Pages in flight *)

Module KallocTrace.
Import Kalloc.

(** The blocks the buddy allocators have handed out, as a trace records
    them: the results of the calls of [alloc_nothrow] that did not
    return null. *)
Definition handed_out (tr : list event) : list Z :=
  omap (fun ev => match ev with
                  | BuddyAlloc _ _ res => if res =? 0 then None else Some res
                  | _ => None
                  end) tr.

(** The pages a CPU holds in its hot cache. *)
Definition cached `{Platform} (mem : cpu_mem) : list Z :=
  take (nhot mem) (hot_pages mem).

End KallocTrace.

(** * The load-balancing variant: memory pools *)

Module LoadBalance.
Import Kalloc.

(** [struct mempool]: the buddy allocator of the pool and the bounds of
    the pool's local memory.  The base class [balance_pool] belongs to
    lb.hh, which is not among the sources, and is left out. *)
Record mempool := mkMempool { buddy_ : nat; base_ : Z; lim_ : Z }.

Definition get_base (mp : mempool) : Z := base_ mp.
Definition get_limit (mp : mempool) : Z := lim_ mp.

(** [std::lower_bound] over [mempools] with the comparison
    [mp.get_limit() < v]: the binary search of <algorithm>, on the
    [len] pools from index [first] on.  The search halves [len] at
    least; [fuel] bounds its iterations. *)
Fixpoint lower_bound (fuel : nat) (mempools : list mempool) (first len : nat) (v : Z)
  : option nat :=
  match len with
  | O => Some first
  | S _ =>
      match fuel with
      | O => None
      | S fuel' =>
          let half := (len / 2)%nat in
          let middle := (first + half)%nat in
          mp ← mempools !! middle;
          if get_limit mp <? v
          then lower_bound fuel' mempools (S middle) (len - half - 1) v
          else lower_bound fuel' mempools first half v
      end
  end.

Section WithPlatform.
Context `{Platform}.

(** [mempool::kfree]. *)
Definition mempool_kfree (mp : mempool) (v size : Z)
    (bs : list buddy_allocator) (tr : list event)
  : result (list buddy_allocator * list event) :=
  lb ← defined (bs !! buddy_ mp);
  Ok (<[buddy_ mp := buddy_free lb v size]> bs,
      tr ++ [Acquire (buddy_ mp); BuddyFree (buddy_ mp) v size]).

(** [mempool::kalloc]. *)
Definition mempool_kalloc (mp : mempool) (size : Z)
    (bs : list buddy_allocator) (tr : list event)
  : result (Z * list buddy_allocator * list event) :=
  lb ← defined (bs !! buddy_ mp);
  let '(res, lb') := buddy_alloc_nothrow lb size in
  Ok (res, <[buddy_ mp := lb']> bs,
      tr ++ [Acquire (buddy_ mp); BuddyAlloc (buddy_ mp) size res]).

(** [memory::kfree_pool]: [pool] is [mycpu()->mem->mempool]. *)
Definition kfree_pool (mempools : list mempool) (pool : nat) (v size : Z)
    (bs : list buddy_allocator) (tr : list event)
  : result (list buddy_allocator * list event) :=
  local ← defined (mempools !! pool);
  pool ←
    (if negb ((get_base local <=? v) && (v <? get_limit local)) then
       (* memory from a remote pool; which one? *)
       mp ← defined (lower_bound (length mempools) mempools 0 (length mempools) v);
       (* [mp->get_base()], also when [mp] is [mempools.end()] *)
       found ← defined (mempools !! mp);
       if v <? get_base found then Failed PanicNotAllocated
       else Ok mp
     else Ok pool);
  target ← defined (mempools !! pool);
  mempool_kfree target v size bs tr.

End WithPlatform.

(** The pools a pointer is searched in: those whose limit is below the
    pointer come first. *)
Definition partitioned (mempools : list mempool) (v : Z) (n : nat) : Prop :=
  (forall i mp, (i < n)%nat -> mempools !! i = Some mp -> lim_ mp < v) /\
  (forall i mp, (n <= i)%nat -> mempools !! i = Some mp -> v <= lim_ mp).

(** Pools one after the other, each non-empty, as [initkalloc] creates
    them for the pieces of a region. *)
Fixpoint pools_ordered (lo : Z) (mempools : list mempool) : Prop :=
  match mempools with
  | [] => True
  | mp :: rest => lo <= base_ mp /\ base_ mp < lim_ mp /\ pools_ordered (lim_ mp) rest
  end.

(** A pointer into the local memory of one of the pools. *)
Definition in_a_pool (mempools : list mempool) (v : Z) : Prop :=
  exists k mp, mempools !! k = Some mp /\ base_ mp <= v < lim_ mp.

End LoadBalance.

(** * Boot: one buddy allocator per piece of a node's memory *)

Module BootBuddies.
Import PhysMap.

(** [size_limit = (node_mem.bytes() + subnodes - 1) / subnodes] in
    [size_t]; [None] is a division by zero ([subnodes] is the number of
    CPUs of the node under [KALLOC_BUDDY_PER_CPU], and 1 otherwise). *)
Definition size_limit (node_bytes subnodes : Z) : option Z :=
  if subnodes =? 0 then None
  else Some (wrap64 (node_bytes + subnodes - 1) / subnodes).

(** The loop that subdivides a region of the node: the result lists the
    base and size of the pieces, for each of which a buddy allocator is
    constructed (and kept unless it comes out empty).  [steps] bounds
    the iterations. *)
Fixpoint subdivide (steps : nat) (remaining : region) (size_limit : Z)
  : option (list (Z * Z)) :=
  if base remaining <? end_ remaining then
    match steps with
    | O => None
    | S n =>
        let subsize := Z.min (wrap64 (end_ remaining - base remaining)) size_limit in
        cons (base remaining, subsize) <$>
          subdivide n (mkRegion (wrap64 (base remaining + subsize)) (end_ remaining))
            size_limit
    end
  else Some [].

(** The pieces of all the regions of a node. *)
Fixpoint node_pieces (steps : nat) (regions : region_vector) (size_limit : Z)
  : option (list (Z * Z)) :=
  match regions with
  | [] => Some []
  | reg :: rest =>
      pieces ← subdivide steps reg size_limit;
      more ← node_pieces steps rest size_limit;
      Some (pieces ++ more)
  end.

(** Pieces that lie one after the other from [lo] to [hi]. *)
Fixpoint tiles (lo : Z) (pieces : list (Z * Z)) (hi : Z) : Prop :=
  match pieces with
  | [] => lo = hi
  | (b, size) :: pieces' => b = lo /\ 0 < size /\ tiles (lo + size) pieces' hi
  end.

End BootBuddies.

(** * Boot: placing the page metadata array *)

Module BootPageInfo.
Import PhysMap Kalloc.

(** What this part of [initkalloc] leaves in the globals
    [page_info_len], [page_info_array], [page_info_base], [newend] and
    [mem]. *)
Record placement := mkPlacement {
  page_info_len : Z;
  page_info_array : Z;
  page_info_base : Z;
  newend : Z;
  mem : region_vector;
}.

Inductive outcome :=
| Placed (p : placement)
| Panicked (r : alloc_result)     (* [mem.alloc] panics *)
| Unfinished.                     (* a [remove] that does not end *)

Section Place.
(** The address translations and [sizeof(page_info)] (page_info.hh) are
    parameters. *)
Variables v2p p2v : Z -> Z.
Variable sizeof_page_info : Z.

(** From "Make sure newend is in the KBASE mapping" to "Remove memory
    before newend from the memory map". *)
Definition place_page_info (mem : region_vector) (newend : Z) : outcome :=
  let newend := p2v (v2p newend) in
  (* round newend up to a page boundary *)
  let newend := PGROUNDUP newend in
  let page_info_len :=
    wrap64 (1 + wrap64 (PhysQuery.max mem - v2p newend)
                  / wrap64 (sizeof_page_info + PGSIZE)) in
  let page_info_bytes := wrap64 (page_info_len * sizeof_page_info) in
  match alloc v2p p2v mem newend page_info_bytes 0 with
  | Returned page_info_array =>
      if page_info_array =? newend then
        (* only the pages after the array have to be tracked *)
        let newend := PGROUNDUP (wrap64 (page_info_array + page_info_bytes)) in
        let page_info_base := v2p newend in
        match remove mem 0 (v2p newend) with
        | Some mem =>
            Placed (mkPlacement page_info_len page_info_array page_info_base newend mem)
        | None => Unfinished
        end
      else
        (* re-allocate it, sized to track all of memory *)
        let page_info_len := wrap64 (1 + PhysQuery.max mem / PGSIZE) in
        let page_info_bytes := wrap64 (page_info_len * sizeof_page_info) in
        match alloc v2p p2v mem newend page_info_bytes 0 with
        | Returned page_info_array =>
            match remove mem (v2p page_info_array)
                    (wrap64 (v2p page_info_array + page_info_bytes)) with
            | Some mem =>
                match remove mem 0 (v2p newend) with
                | Some mem =>
                    Placed (mkPlacement page_info_len page_info_array 0 newend mem)
                | None => Unfinished
                end
            | None => Unfinished
            end
        | r => Panicked r
        end
  | r => Panicked r
  end.

(** The kernel maps physical address [x] at [kbase + x]. *)
Definition direct_map (kbase limit : Z) : Prop :=
  0 <= kbase /\ kbase mod PGSIZE = 0 /\ kbase + limit < WORD /\
  forall x, 0 <= x <= limit -> p2v x = kbase + x /\ v2p (kbase + x) = x.

End Place.
End BootPageInfo.

(** * Boot: the memory of each NUMA node *)

Module BootNuma.
Import PhysMap.

(** A NUMA node is taken as the list of its memory ranges, base and
    length ([node.mems]; the type belongs to numa.hh, which is not among
    the sources).  [node_mem] after the [add] loop: *)
Definition node_ranges (mems : list (Z * Z)) : region_vector :=
  foldl (fun node_mem m => add node_mem m.1 (wrap64 (m.1 + m.2))) [] mems.

(** The head of the loop over the nodes: the available memory of the
    node, and the physical memory map without it. *)
Definition carve_node (mem : region_vector) (mems : list (Z * Z))
  : option (region_vector * region_vector) :=
  node_mem ← intersect (node_ranges mems) mem;
  mem ← remove_map mem node_mem;
  Some (node_mem, mem).

(** The loop over the nodes; the result lists the memory of each node
    and what is left of the map at the end, which has to be empty:
    [initkalloc] panics with "Physical memory regions missing from NUMA
    map" otherwise. *)
Fixpoint carve (mem : region_vector) (nodes : list (list (Z * Z)))
  : option (list region_vector * region_vector) :=
  match nodes with
  | [] => Some ([], mem)
  | mems :: nodes' =>
      '(node_mem, mem) ← carve_node mem mems;
      '(rest, mem) ← carve mem nodes';
      Some (node_mem :: rest, mem)
  end.

(** An address of one of the ranges, and ranges that are non-empty
    and lie in the address space. *)
Definition in_ranges (mems : list (Z * Z)) (x : Z) : Prop :=
  exists m, m ∈ mems /\ m.1 <= x < m.1 + m.2.

Definition ranges_ok (mems : list (Z * Z)) : Prop :=
  Forall (fun m => 0 <= m.1 /\ 0 < m.2 /\ m.1 + m.2 <= UINTPTR_MAX) mems.

End BootNuma.

(** * The load-balancing variant: [memory::kalloc] and [memory::kfree] *)

Module LoadBalanceAlloc.
Import Kalloc LoadBalance.

Section WithPlatform.
Context `{Platform}.
(** [b_.balance()]: the balancer belongs to lb.hh, which is not among
    the sources; what it does to the buddy allocators and the trace is a
    parameter. *)
Variable balance :
  list buddy_allocator -> list event -> list buddy_allocator * list event.

(** [memory::kalloc]. *)
Definition kalloc (mempools : list mempool) (c : nat) (size : Z) (st : kstate)
  : result (Z * kstate) :=
  if negb (kinited st) then
    if size =? PGSIZE then Ok (pgalloc st) else Failed AssertFailed
  else
    mem ← defined (cpus st !! c);
    (* allocate from page cache, if possible *)
    '(res, mem) ←
      (if (size =? PGSIZE) && (0 <? nhot mem)%nat then
         res ← defined (hot_pages mem !! pred (nhot mem));
         Ok (res, mkCpuMem (steal mem) (Kalloc.mempool mem) (hot_pages mem) (pred (nhot mem)))
       else Ok (0, mem));
    '(res, bs, tr) ←
      (if res =? 0 then
         mp ← defined (mempools !! Kalloc.mempool mem);
         '(res, bs, tr) ← mempool_kalloc mp size (buddies st) (trace st);
         if res =? 0 then
           let '(bs, tr) := balance bs tr in
           mempool_kalloc mp size bs tr
         else Ok (res, bs, tr)
       else Ok (res, buddies st, trace st));
    finish res (set_cpu c mem bs tr st).

(** The loop of the flush: each page goes through [kfree_pool]. *)
Fixpoint flush_pool (mempools : list mempool) (pool : nat) (ptrs : list Z)
    (bs : list buddy_allocator) (tr : list event)
  : result (list buddy_allocator * list event) :=
  match ptrs with
  | [] => Ok (bs, tr)
  | ptr :: ptrs' =>
      '(bs, tr) ← kfree_pool mempools pool ptr PGSIZE bs tr;
      flush_pool mempools pool ptrs' bs tr
  end.

(** [memory::kfree]. *)
Definition kfree (mempools : list mempool) (c : nat) (v size : Z) (st : kstate)
  : result kstate :=
  if size =? PGSIZE then
    (* free to the hot list *)
    mem ← defined (cpus st !! c);
    '(mem, bs, tr) ←
      (if (nhot mem =? KALLOC_HOT_PAGES)%nat then
         let half := (KALLOC_HOT_PAGES / 2)%nat in
         let hot := sort (take half (hot_pages mem)) ++ drop half (hot_pages mem) in
         '(bs, tr) ← flush_pool mempools (Kalloc.mempool mem) (take half hot) (buddies st)
                       (trace st ++ [Count kalloc_hot_list_flush_count]);
         (* shift hot page list down *)
         let n := (KALLOC_HOT_PAGES - half)%nat in
         let hot := take n (drop half hot) ++ drop n hot in
         Ok (mkCpuMem (steal mem) (Kalloc.mempool mem) hot n, bs, tr)
       else Ok (mem, buddies st, trace st));
    if (nhot mem <? KALLOC_HOT_PAGES)%nat then
      let mem := mkCpuMem (steal mem) (Kalloc.mempool mem)
                   (<[nhot mem := v]> (hot_pages mem)) (S (nhot mem)) in
      Ok (set_cpu c mem bs (tr ++ [Count kalloc_page_free_count]) st)
    else Failed Undefined
  else
    mem ← defined (cpus st !! c);
    '(bs, tr) ← kfree_pool mempools (Kalloc.mempool mem) v size (buddies st) (trace st);
    Ok (set_buddies bs tr st).

End WithPlatform.
End LoadBalanceAlloc.

(** * A second small platform: buddies that serve blocks of any size *)

Module Blocks.
Import StealOrder Kalloc LoadBalance.

(** A buddy that keeps its window, in bytes, and a list of free blocks,
    address and size, and hands out the first free block of the size
    asked for. *)
Record block_pool := mkBlocks { blk_lo : Z; blk_hi : Z; blk_free : list (Z * Z) }.

Fixpoint take_block (size : Z) (free : list (Z * Z)) : Z * list (Z * Z) :=
  match free with
  | [] => (0, [])
  | (a, s) :: free' =>
      if s =? size then (a, free')
      else let '(res, rest) := take_block size free' in (res, (a, s) :: rest)
  end.

Definition block_alloc (b : block_pool) (size : Z) : Z * block_pool :=
  let '(res, rest) := take_block size (blk_free b) in
  (res, mkBlocks (blk_lo b) (blk_hi b) rest).

Definition block_platform (hot : nat) : Platform := {|
  KALLOC_HOT_PAGES := hot;
  kernel_end := 0x200123;
  buddy_allocator := block_pool;
  MAX_ORDER := 4;
  buddy_contains b p := (blk_lo b <=? p) && (p <? blk_hi b);
  buddy_alloc_nothrow := block_alloc;
  buddy_free b p size := mkBlocks (blk_lo b) (blk_hi b) ((p, size) :: blk_free b);
|}.

(** One CPU over two buddies with windows [0x10000, 0x20000) and
    [0x20000, 0x40000), after initialization, with an empty hot cache of
    four slots; the first buddy has a single free page. *)
Definition two_buddies : list block_pool :=
  [mkBlocks 0x10000 0x20000 [(0x11000, 4096)];
   mkBlocks 0x20000 0x40000 [(0x20000, 8192); (0x23000, 4096)]].

Definition cpu_both : cpu_mem :=
  mkCpuMem [mkSegment 0 1; mkSegment 1 2] 0 [0; 0; 0; 0] 0.

Definition state_both : @kstate (block_platform 4) :=
  @mkState (block_platform 4) true 0 (fun _ => 0) [cpu_both] two_buddies [].



(** The same machine with a full hot cache, and a memory pool for each
    of the two buddies. *)
Definition cpu_full : cpu_mem :=
  mkCpuMem [mkSegment 0 1; mkSegment 1 2] 0
    [0x20000; 0x12000; 0x13000; 0x14000] 4.

Definition state_full : @kstate (block_platform 4) :=
  @mkState (block_platform 4) true 0 (fun _ => 0) [cpu_full] two_buddies [].

Definition two_pools : list mempool :=
  [mkMempool 0 0x10000 0x20000; mkMempool 1 0x20000 0x40000].

(** The balancer that does nothing. *)
Definition no_balance (bs : list block_pool) (tr : list event)
  : list block_pool * list event := (bs, tr).

End Blocks.

(** * gcbench: the control message *)

Module GcBench.

(** The four bytes of an [int] in memory: [int] has 32 bits and the
    amd64 target stores it least significant byte first. *)
Definition int_bytes (x : Z) : list Z :=
  [Z.land x 255; Z.land (Z.shiftr x 8) 255;
   Z.land (Z.shiftr x 16) 255; Z.land (Z.shiftr x 24) 255].

(** The buffer [ctrl] fills with its three [memcpy] calls. *)
Definition ctrl_buf (ncore size op : Z) : list Z :=
  int_bytes ncore ++ int_bytes size ++ int_bytes op.

Inductive outcome :=
| Returned
| Died.                   (* [die("gc: write failed")] *)

(** [ctrl]; [write] stands for the system call on [fd_ctrl], given the
    buffer and its length. *)
Definition ctrl (write : list Z -> Z -> Z) (ncore size op : Z) : outcome :=
  let r := write (ctrl_buf ncore size op) (3 * 4) in
  if r <? 0 then Died else Returned.

(** Reading an [int] back from four bytes of a buffer. *)
Definition read_int (buf : list Z) (offset : nat) : option Z :=
  match take 4 (drop offset buf) with
  | [b0; b1; b2; b3] =>
      let u := b0 + 256 * b1 + 65536 * b2 + 16777216 * b3 in
      Some (if u <? 2 ^ 31 then u else u - 2 ^ 32)
  | _ => None
  end.

Definition is_int (x : Z) : Prop := - 2 ^ 31 <= x < 2 ^ 31.

End GcBench.


(** * Proofs *)

(** Case analysis on the integer comparisons of the goal and the
    hypotheses. *)
Ltac zbool :=
  rewrite ?Z.geb_leb, ?Z.gtb_ltb in *;
  repeat match goal with
  | |- context [Z.ltb ?a ?b] => destruct (Z.ltb_spec a b)
  | |- context [Z.leb ?a ?b] => destruct (Z.leb_spec a b)
  | |- context [Z.eqb ?a ?b] => destruct (Z.eqb_spec a b)
  | H : context [Z.ltb ?a ?b] |- _ => destruct (Z.ltb_spec a b)
  | H : context [Z.leb ?a ?b] |- _ => destruct (Z.leb_spec a b)
  | H : context [Z.eqb ?a ?b] |- _ => destruct (Z.eqb_spec a b)
  end; cbn [andb orb negb] in *.

(** Running the [result] monad and reading back record fields, without
    unfolding the arithmetic. *)
Ltac run :=
  cbn [mbind Kalloc.result_bind Kalloc.defined fst snd
       Kalloc.nhot Kalloc.hot_pages Kalloc.steal Kalloc.mempool
       Kalloc.cpus Kalloc.buddies Kalloc.trace Kalloc.kinited
       Kalloc.newend Kalloc.memory Kalloc.set_cpu Kalloc.set_buddies] in *.
(** * Properties of the physical memory map *)

Section PhysMapFacts.
Import PhysMap.

Lemma chain_weaken lo lo' v : lo' <= lo -> chain lo v -> chain lo' v.
Proof. destruct v; simpl; intuition lia. Qed.

Lemma chain_lower lo v r : chain lo v -> r ∈ v -> lo <= base r /\ base r < end_ r.
Proof.
  revert lo; induction v as [|a v IH]; intros lo Hc Hin.
  - inversion Hin.
  - simpl in Hc. destruct Hc as (H1 & H2 & H3).
    apply elem_of_cons in Hin as [->|Hin]; [lia|].
    specialize (IH _ H3 Hin). lia.
Qed.

Lemma chain_app lo pre post :
  chain lo (pre ++ post) ->
  chain lo pre /\ forall r, r ∈ pre -> chain (end_ r) post.
Proof.
  revert lo; induction pre as [|a pre IH]; simpl; intros lo Hc.
  - split; [done|]. intros r Hr; inversion Hr.
  - destruct Hc as (H1 & H2 & H3). destruct (IH _ H3) as [Hp Hq].
    split; [done|]. intros r Hr. apply elem_of_cons in Hr as [->|Hr]; [|by auto].
    destruct pre as [|a' pre']; simpl in *; [done|].
    eapply chain_weaken; [|apply Hq; left].
    destruct Hp as (? & ? & ?). lia.
Qed.

Lemma chain_drop lo pre post : chain lo (pre ++ post) -> chain lo post.
Proof.
  revert lo; induction pre as [|a pre IH]; simpl; intros lo Hc; [done|].
  destruct Hc as (H1 & H2 & H3). eapply chain_weaken; [|by apply IH]. lia.
Qed.

Lemma chain_erase lo pre it post :
  chain lo (pre ++ it :: post) -> chain lo (pre ++ post).
Proof.
  revert lo; induction pre as [|a pre IH]; simpl; intros lo Hc.
  - destruct Hc as (H1 & H2 & H3). eapply chain_weaken; [|done]. lia.
  - destruct Hc as (H1 & H2 & H3). auto.
Qed.

(** Inserting a region between the regions that end before it and those
    that start after it keeps the vector in order. *)
Lemma chain_insert lo pre post b e :
  b < e ->
  chain lo (pre ++ post) ->
  Forall (fun r => end_ r <= b) pre ->
  (forall it post', post = it :: post' -> e <= base it) ->
  chain (Z.min lo b) (pre ++ mkRegion b e :: post).
Proof.
  intros Hbe. revert lo; induction pre as [|a pre IH]; simpl; intros lo Hc Hpre Hpost.
  - split; [lia|]. split; [done|]. destruct post as [|it post']; [done|].
    simpl in *. specialize (Hpost _ _ eq_refl). intuition lia.
  - destruct Hc as (H1 & H2 & H3). inversion Hpre as [|?? Ha Hpre']; subst.
    split; [lia|]. split; [done|].
    specialize (IH _ H3 Hpre' Hpost). eapply chain_weaken; [|exact IH]. lia.
Qed.

Lemma add_scan_overlap rest : forall i b e k it,
  add_scan i rest b e = Overlap k it ->
  exists pre post, rest = pre ++ it :: post /\ k = (i + length pre)%nat /\
    Forall (passed b e) pre /\ base it <= e /\ b <= end_ it.
Proof.
  induction rest as [|a rest IH]; simpl; intros i b e k it H; [done|].
  zbool; try discriminate.
  all: first
    [ injection H as <- <-; exists [], rest; simpl;
      split; [done|]; split; [lia|]; split; [constructor|]; lia
    | apply IH in H as (pre & post & -> & -> & Hp & ?);
      exists (a :: pre), post; simpl;
      split; [done|]; split; [lia|]; split; [|lia];
      constructor; [unfold passed; lia | done] ].
Qed.

Lemma add_scan_insert rest : forall i b e k,
  add_scan i rest b e = InsertAt k ->
  exists pre post, rest = pre ++ post /\ k = (i + length pre)%nat /\
    Forall (passed b e) pre /\
    forall it post', post = it :: post' ->
      ~ (base it <= e /\ b <= end_ it) /\ b <= base it.
Proof.
  induction rest as [|a rest IH]; simpl; intros i b e k H.
  - injection H as <-. exists [], []. simpl.
    split; [done|]; split; [lia|]; split; [constructor|]; done.
  - zbool; try discriminate.
    all: first
      [ injection H as <-; exists [], (a :: rest); simpl;
        split; [done|]; split; [lia|]; split; [constructor|];
        intros ?? [= <- <-]; lia
      | apply IH in H as (pre & post & -> & -> & Hp & ?);
        exists (a :: pre), post; simpl;
        split; [done|]; split; [lia|]; split; [|done];
        constructor; [unfold passed; lia | done] ].
Qed.

Lemma erase_middle (pre : region_vector) it post :
  erase (0 + length pre) (pre ++ it :: post) = pre ++ post.
Proof.
  unfold erase. simpl. rewrite take_app_length. f_equal.
  rewrite drop_app_ge by lia.
  by replace (S (length pre) - length pre)%nat with 1%nat by lia.
Qed.

Lemma insert_at_middle (pre : region_vector) r post :
  insert_at (0 + length pre) r (pre ++ post) = pre ++ r :: post.
Proof.
  unfold insert_at. simpl. by rewrite take_app_length, drop_app_length.
Qed.

(** The depth given to [add_rec] in [add] is never used up: any depth
    that is at least the number of regions gives the same vector. *)
Lemma add_rec_depth d : forall d' regions b e,
  (length regions <= d)%nat -> (length regions <= d')%nat ->
  add_rec d regions b e = add_rec d' regions b e.
Proof.
  induction d as [|d IH]; intros d' regions b e Hd Hd'.
  - destruct regions; [|simpl in Hd; lia]. by destruct d'.
  - simpl. destruct (add_scan 0 regions b e) as [i it|i] eqn:Hscan.
    + pose proof Hscan as Hscan'.
      apply add_scan_overlap in Hscan' as (pre & post & -> & -> & _).
      rewrite length_app in Hd, Hd'. simpl in Hd, Hd'.
      destruct d' as [|d']; [lia|]. simpl. rewrite Hscan.
      pose proof (erase_middle pre it post) as Herase. simpl in Herase.
      rewrite ?Herase, ?erase_middle. apply IH; rewrite length_app; lia.
    + destruct d'; simpl; by rewrite Hscan.
Qed.

Lemma passed_ends_before b e r : b < e -> passed b e r -> end_ r <= b.
Proof. unfold passed. lia. Qed.

(** [add] keeps a well-formed vector well-formed. *)
Lemma add_rec_chain depth : forall regions b e lo,
  (length regions <= depth)%nat -> b < e -> chain lo regions ->
  chain (Z.min lo b) (add_rec depth regions b e).
Proof.
  induction depth as [|d IH]; intros regions b e lo Hlen Hbe Hc; simpl.
  - destruct regions; [|simpl in Hlen; lia]. simpl. unfold insert_at. simpl. lia.
  - destruct (add_scan 0 regions b e) as [i it|i] eqn:Hscan.
    + apply add_scan_overlap in Hscan as (pre & post & -> & -> & Hp & Ho1 & Ho2).
      rewrite erase_middle.
      assert (Hit : lo <= base it /\ base it < end_ it).
      { eapply chain_lower; [exact Hc|]. apply elem_of_app. right. left. }
      replace (Z.min lo b) with (Z.min lo (Z.min b (base it))) by lia.
      apply IH; [|lia|by eapply chain_erase].
      rewrite length_app in *. simpl in Hlen. lia.
    + apply add_scan_insert in Hscan as (pre & post & -> & -> & Hp & Hq).
      rewrite insert_at_middle. apply chain_insert; [done|done| |].
      * eapply Forall_impl; [exact Hp|]. intros r. by apply passed_ends_before.
      * intros it post' ->. destruct (Hq _ _ eq_refl) as [Hno Hb].
        assert (Hit : lo <= base it /\ base it < end_ it).
        { eapply chain_lower; [exact Hc|]. apply elem_of_app. right. left. }
        lia.
Qed.

Lemma add_wf v b e : b < e -> wf v -> wf (add v b e).
Proof.
  intros Hbe [lo Hc]. exists (Z.min lo b). by apply add_rec_chain.
Qed.

(** ** [remove] *)

Lemma covers_nil x : ~ covers [] x.
Proof. unfold covers. inversion 1. Qed.

Lemma covers_cons r v x :
  covers (r :: v) x <-> (base r <= x < end_ r) \/ covers v x.
Proof. unfold covers. apply Exists_cons. Qed.

Lemma remove_loop_step n it rest b e :
  remove_loop (S n) (it :: rest) b e =
    if (base it <? b) && (e <? end_ it) then
      cons (mkRegion (base it) b) <$> remove_loop n (mkRegion e (end_ it) :: rest) b e
    else if (b <=? base it) && (end_ it <=? e) then remove_loop n rest b e
    else if (b <=? base it) && (e >? base it) then
      cons (mkRegion e (end_ it)) <$> remove_loop n rest b e
    else if (b <? end_ it) && (e >=? end_ it) then
      cons (mkRegion (base it) b) <$> remove_loop n rest b e
    else cons it <$> remove_loop n rest b e.
Proof. reflexivity. Qed.

(** Once the iterator is past the removed range the rest of a
    well-formed vector is left as it is. *)
Lemma remove_loop_past todo : forall n lo b e,
  b <= e -> e <= lo -> chain lo todo -> (length todo <= n)%nat ->
  remove_loop n todo b e = Some todo.
Proof.
  induction todo as [|it rest IH]; intros n lo b e Hbe Hlo Hc Hn; [by destruct n|].
  simpl in *. destruct Hc as (H1 & H2 & H3).
  destruct n as [|n]; [lia|]. rewrite remove_loop_step.
  zbool; try lia.
  all: rewrite (IH n (end_ it)) by (done || lia).
  all: reflexivity.
Qed.

(** For a range with [b <= e] the loop finishes, removes exactly the
    bytes of the range, and keeps the vector well-formed. *)
Lemma remove_loop_spec todo : forall n b e,
  b <= e -> (2 * length todo <= n)%nat ->
  exists v', remove_loop n todo b e = Some v' /\
    (forall x, covers v' x <-> covers todo x /\ ~ (b <= x < e)) /\
    (forall lo, chain lo todo -> chain lo v').
Proof.
  induction todo as [|it rest IH]; intros n b e Hbe Hn.
  - exists []. split; [by destruct n|]. split; [|done].
    intros x. pose proof (covers_nil x). tauto.
  - simpl in Hn. destruct n as [|[|n]]; [lia|lia|].
    destruct (IH n b e Hbe ltac:(lia)) as (v1 & Hrun1 & Hcov1 & Hch1).
    destruct (IH (S n) b e Hbe ltac:(lia)) as (v2 & Hrun2 & Hcov2 & Hch2).
    rewrite remove_loop_step. zbool; try lia.
    all: try (rewrite remove_loop_step; cbn [base end_]; zbool; try lia).
    all: rewrite ?Hrun1, ?Hrun2; cbn [fmap option_fmap option_map].
    all: eexists; split; [reflexivity|].
    all: split;
      [ intros x; rewrite ?covers_cons, ?Hcov1, ?Hcov2, ?covers_cons; simpl;
        intuition lia
      | intros lo (Hc1 & Hc2 & Hc3); simpl;
        try (specialize (Hch1 _ Hc3)); try (specialize (Hch2 _ Hc3));
        repeat split; try lia;
        try (eapply chain_weaken; [|eassumption]; lia) ].
Qed.

Lemma remove_spec v b e :
  b <= e ->
  exists v', remove v b e = Some v' /\
    (forall x, covers v' x <-> covers v x /\ ~ (b <= x < e)) /\
    (forall lo, chain lo v -> chain lo v').
Proof. intros Hbe. by apply remove_loop_spec. Qed.

Lemma remove_map_spec o : forall v,
  Forall (fun r => base r <= end_ r) o ->
  exists v', remove_map v o = Some v' /\
    (forall x, covers v' x <-> covers v x /\ ~ covers o x) /\
    (forall lo, chain lo v -> chain lo v').
Proof.
  induction o as [|reg o IH]; intros v Ho; simpl.
  - exists v. split; [done|]. split; [|done].
    intros x. pose proof (covers_nil x). tauto.
  - inversion Ho as [|?? Hreg Ho']; subst.
    destruct (remove_spec v _ _ Hreg) as (v1 & -> & Hcov1 & Hch1). simpl.
    destruct (IH v1 Ho') as (v2 & -> & Hcov2 & Hch2).
    exists v2. split; [done|]. split; [|by auto].
    intros x. rewrite Hcov2, Hcov1, covers_cons. tauto.
Qed.

Lemma chain_covers_lower lo v x : chain lo v -> covers v x -> lo <= x.
Proof.
  revert lo; induction v as [|r v IH]; intros lo Hc Hx.
  - by apply covers_nil in Hx.
  - destruct Hc as (H1 & H2 & H3). apply covers_cons in Hx as [Hx|Hx]; [lia|].
    specialize (IH _ H3 Hx). lia.
Qed.

Lemma intersect_loop_spec o : forall v prevend,
  prevend <= UINTPTR_MAX -> chain prevend o -> in_range o ->
  exists v', intersect_loop v o prevend = Some v' /\
    (forall x, covers v' x <->
       covers v x /\ (x < prevend \/ UINTPTR_MAX <= x \/ covers o x)) /\
    (forall lo, chain lo v -> chain lo v').
Proof.
  induction o as [|reg o IH]; intros v prevend Hmax Hc Hr; simpl.
  - destruct (remove_spec v prevend UINTPTR_MAX Hmax) as (v1 & -> & Hcov1 & Hch1).
    exists v1. split; [done|]. split; [|done].
    intros x. rewrite Hcov1. pose proof (covers_nil x). intuition lia.
  - destruct Hc as (H1 & H2 & H3). inversion Hr as [|?? [Hr1 Hr2] Hr']; subst.
    destruct (remove_spec v prevend (base reg) H1) as (v1 & -> & Hcov1 & Hch1).
    simpl.
    destruct (IH v1 (end_ reg) Hr2 H3 Hr') as (v2 & -> & Hcov2 & Hch2).
    exists v2. split; [done|]. split; [|by auto].
    intros x. rewrite Hcov2, Hcov1, covers_cons.
    pose proof (chain_covers_lower _ _ x H3). intuition lia.
Qed.

Lemma wf_in_range_chain v : wf v -> in_range v -> chain 0 v.
Proof.
  intros [lo Hc] Hr. destruct v as [|r v]; [done|].
  inversion Hr as [|?? [Hr1 Hr2] Hr']; subst.
  simpl in *. intuition lia.
Qed.

Lemma in_range_covers v x : in_range v -> covers v x -> 0 <= x < UINTPTR_MAX.
Proof.
  unfold in_range, covers. rewrite Forall_forall, Exists_exists.
  intros Hr (r & Hin & Hx). specialize (Hr _ Hin). lia.
Qed.

Lemma intersect_spec v o :
  wf o -> in_range o ->
  exists v', intersect v o = Some v' /\
    (in_range v -> forall x, covers v' x <-> covers v x /\ covers o x) /\
    (forall lo, chain lo v -> chain lo v').
Proof.
  intros Hwf Hr. destruct o as [|reg o].
  - exists []. split; [done|]. split; [|done].
    intros _ x. pose proof (covers_nil x). tauto.
  - destruct (intersect_loop_spec (reg :: o) v 0) as (v' & Hrun & Hcov & Hch);
      [done|by apply wf_in_range_chain|done|].
    exists v'. split; [done|]. split; [|done].
    intros Hv x. rewrite Hcov. pose proof (in_range_covers v x Hv). intuition lia.
Qed.

(** ** The order invariant, spelled out *)

Lemma chain_lookup_lt lo v : forall i j ri rj,
  chain lo v -> (i < j)%nat -> v !! i = Some ri -> v !! j = Some rj ->
  end_ ri <= base rj.
Proof.
  revert lo; induction v as [|r v IH]; intros lo i j ri rj Hc Hij Hi Hj; [done|].
  destruct Hc as (H1 & H2 & H3).
  destruct j as [|j]; [lia|]. simpl in Hj.
  destruct i as [|i]; simpl in Hi.
  - injection Hi as <-.
    apply list_elem_of_lookup_2 in Hj. by apply (chain_lower _ _ _ H3) in Hj as [? _].
  - eapply IH; [done| |done..]. lia.
Qed.

Lemma chain_proper lo v : chain lo v -> Forall proper v.
Proof.
  intros Hc. apply Forall_forall. intros r Hr.
  by destruct (chain_lower _ _ _ Hc Hr).
Qed.

Lemma wf_sorted v : wf v -> sorted_by_base v.
Proof.
  intros [lo Hc] i j ri rj Hij Hi Hj.
  pose proof (chain_lookup_lt _ _ _ _ _ _ Hc Hij Hi Hj).
  apply list_elem_of_lookup_2 in Hi. apply (chain_lower _ _ _ Hc) in Hi. lia.
Qed.

Lemma wf_disjoint v : wf v -> pairwise_disjoint v.
Proof.
  intros [lo Hc] i j ri rj Hij Hi Hj.
  destruct (Nat.lt_total i j) as [Hlt|[->|Hlt]]; [|done|].
  - left. by eapply chain_lookup_lt.
  - right. by eapply chain_lookup_lt.
Qed.

Lemma apply_wf v o : wf v -> op_ok o -> exists v', apply v o = Some v' /\ wf v'.
Proof.
  intros Hv Hok. destruct o as [b e|b e|o|o]; simpl in *.
  - eexists; split; [done|]. by apply add_wf.
  - destruct (remove_spec v b e Hok) as (v' & -> & _ & Hch).
    exists v'. split; [done|]. destruct Hv as [lo Hc]. exists lo. auto.
  - destruct (remove_map_spec o v) as (v' & -> & _ & Hch).
    { destruct Hok as [lo Hc]. apply Forall_forall. intros r Hr.
      destruct (chain_lower _ _ _ Hc Hr). lia. }
    exists v'. split; [done|]. destruct Hv as [lo Hc]. exists lo. auto.
  - destruct Hok as [Hwf Hr].
    destruct (intersect_spec v o Hwf Hr) as (v' & -> & _ & Hch).
    exists v'. split; [done|]. destruct Hv as [lo Hc]. exists lo. auto.
Qed.

Lemma run_wf ops : forall v,
  wf v -> Forall op_ok ops -> exists v', run v ops = Some v' /\ wf v'.
Proof.
  induction ops as [|o ops IH]; intros v Hv Hops; simpl.
  - by exists v.
  - inversion Hops as [|?? Ho Hops']; subst.
    destruct (apply_wf v o Hv Ho) as (v1 & -> & Hv1). simpl. by apply IH.
Qed.

End PhysMapFacts.

(** C1, in the form that holds of the code: starting from a well-formed
    map (the empty map of a freshly constructed [phys_map] in
    particular), every sequence of [add], [remove] and [intersect] calls
    whose arguments are ranges -- non-empty for [add], [base <= end] for
    [remove], a well-formed map for [remove(o)] and [intersect(o)] --
    runs to completion and leaves a region vector that is sorted by
    base, pairwise disjoint, and made of regions with [base < end]. *)
Theorem phys_map_ops_keep_regions_ordered (v : PhysMap.region_vector) (ops : list PhysMap.op) :
  PhysMap.wf v -> Forall PhysMap.op_ok ops ->
  exists v', PhysMap.run v ops = Some v' /\
    PhysMap.sorted_by_base v' /\ PhysMap.pairwise_disjoint v' /\
    Forall PhysMap.proper v'.
Proof.
  intros Hv Hops. destruct (run_wf ops v Hv Hops) as (v' & Hrun & Hwf).
  exists v'. split; [done|]. split; [by apply wf_sorted|].
  split; [by apply wf_disjoint|]. destruct Hwf as [lo Hc]. by eapply chain_proper.
Qed.

(** C1 does not hold as the specification states it: [add(5, 5)] on the
    empty map stores the region [5, 5), which does not satisfy [base <
    end]. *)
Lemma phys_map_add_empty_range_counterexample :
  exists v', PhysMap.run [] [PhysMap.Add 5 5] = Some v' /\
    ~ Forall PhysMap.proper v'.
Proof.
  eexists. split; [reflexivity|].
  intros H. apply Forall_inv in H. unfold PhysMap.proper in H. simpl in H. lia.
Qed.

(** C6: [intersect] terminates and retains exactly the bytes present in
    both maps (for maps of [uintptr_t] regions, the argument map being
    well-formed); and the map {[0,100), [200,300)} intersected with
    {[50,250)} is {[50,100), [200,250)}. *)
Theorem intersect_retains_common_bytes :
  (forall v o : PhysMap.region_vector,
     PhysMap.wf o -> PhysMap.in_range o -> PhysMap.in_range v ->
     exists v', PhysMap.intersect v o = Some v' /\
       forall x, PhysMap.covers v' x <-> PhysMap.covers v x /\ PhysMap.covers o x) /\
  PhysMap.intersect
    [PhysMap.mkRegion 0 100; PhysMap.mkRegion 200 300] [PhysMap.mkRegion 50 250]
  = Some [PhysMap.mkRegion 50 100; PhysMap.mkRegion 200 250].
Proof.
  split; [|reflexivity].
  intros v o Hwf Hro Hrv.
  destruct (intersect_spec v o Hwf Hro) as (v' & Hrun & Hcov & _).
  exists v'. split; [done|]. by apply Hcov.
Qed.

Lemma intersect_retains_common_bytes_witness :
  exists v', PhysMap.intersect
      [PhysMap.mkRegion 0 100; PhysMap.mkRegion 200 300] [PhysMap.mkRegion 50 250]
    = Some v' /\
    forall x, PhysMap.covers v' x <->
      PhysMap.covers [PhysMap.mkRegion 0 100; PhysMap.mkRegion 200 300] x /\
      PhysMap.covers [PhysMap.mkRegion 50 250] x.
Proof.
  apply (proj1 intersect_retains_common_bytes).
  - exists 50. simpl. lia.
  - repeat constructor; simpl; unfold UINTPTR_MAX, WORD; lia.
  - repeat constructor; simpl; unfold UINTPTR_MAX, WORD; lia.
Defined.

Lemma phys_map_ops_keep_regions_ordered_witness :
  exists v',
    PhysMap.run []
      [PhysMap.Add 0 100; PhysMap.Add 200 300; PhysMap.Add 100 150;
       PhysMap.Remove 20 30; PhysMap.Intersect [PhysMap.mkRegion 10 250]]
    = Some v' /\
    PhysMap.sorted_by_base v' /\ PhysMap.pairwise_disjoint v' /\
    Forall PhysMap.proper v'.
Proof.
  apply phys_map_ops_keep_regions_ordered.
  - exists 0. exact I.
  - repeat apply List.Forall_cons; try apply List.Forall_nil; simpl; try lia.
    split.
    + exists 0. simpl. lia.
    + apply List.Forall_cons; [|apply List.Forall_nil].
      simpl. unfold UINTPTR_MAX, WORD. lia.
Defined.

Section AddRemove.
Import PhysMap.

Lemma gapped_chain lo v : gapped lo v -> chain lo v.
Proof.
  revert lo; induction v as [|r v IH]; simpl; [done|].
  intros lo (H1 & H2 & H3). split; [lia|]. auto.
Qed.

Lemma gapped_weaken lo lo' v : lo' <= lo -> gapped lo v -> gapped lo' v.
Proof. destruct v; simpl; intuition lia. Qed.

Lemma gapped_erase lo pre it post :
  gapped lo (pre ++ it :: post) ->
  gapped lo (pre ++ post) /\ Forall (fun r => end_ r < base it) pre.
Proof.
  revert lo; induction pre as [|a pre IH]; simpl; intros lo Hg.
  - destruct Hg as (H1 & H2 & H3). split; [|constructor].
    eapply gapped_weaken; [|done]. lia.
  - destruct Hg as (H1 & H2 & H3). destruct (IH _ H3) as [Hg' Hpre].
    split; [done|]. constructor; [|done].
    destruct pre as [|a' pre']; simpl in H3; [lia|].
    apply Forall_inv in Hpre. lia.
Qed.

(** The single pass skips the regions the scan of [add] passes. *)
Lemma add_pass_skip pre rest b e :
  Forall (passed b e) pre ->
  add_pass (pre ++ rest) b e = pre ++ add_pass rest b e.
Proof.
  induction 1 as [|r pre [Hno Hb] _ IH]; simpl; [done|].
  zbool; try lia; by rewrite IH.
Qed.

Lemma add_rec_pass depth : forall v b e lo,
  (length v <= depth)%nat -> b < e -> gapped lo v ->
  add_rec depth v b e = add_pass v b e.
Proof.
  induction depth as [|d IH]; intros v b e lo Hlen Hbe Hg.
  - destruct v; [done|simpl in Hlen; lia].
  - simpl. destruct (add_scan 0 v b e) as [i it|i] eqn:Hscan.
    + apply add_scan_overlap in Hscan as (pre & post & -> & -> & Hp & Ho1 & Ho2).
      rewrite erase_middle. destruct (gapped_erase _ _ _ _ Hg) as [Hg' Hpre].
      assert (Hit : base it < end_ it).
      { apply gapped_chain in Hg. eapply chain_lower; [exact Hg|].
        apply elem_of_app. right. left. }
      rewrite (IH _ _ _ lo); [| |lia|done].
      2:{ rewrite length_app in *. simpl in Hlen. lia. }
      rewrite !add_pass_skip; [|done|].
      * simpl. zbool; (lia || done).
      * apply Forall_forall. intros r Hr.
        rewrite Forall_forall in Hp, Hpre.
        specialize (Hp _ Hr). specialize (Hpre _ Hr).
        assert (base r < end_ r).
        { apply gapped_chain in Hg'. eapply chain_lower; [exact Hg'|].
          apply elem_of_app. by left. }
        unfold passed in *. lia.
    + apply add_scan_insert in Hscan as (pre & post & -> & -> & Hp & Hq).
      rewrite insert_at_middle, add_pass_skip by done. f_equal.
      destruct post as [|it post']; [done|].
      destruct (Hq _ _ eq_refl) as [Hno Hb]. simpl. zbool; (lia || done).
Qed.

(** Past the new range the pass inserts it in front. *)
Lemma add_pass_front v b e : gapped e v -> b <= e -> add_pass v b e = mkRegion b e :: v.
Proof.
  destruct v as [|r v]; simpl; [done|]. intros (H1 & H2 & H3) Hbe.
  zbool; (lia || done).
Qed.

Lemma gapped_past lo v n b e :
  gapped lo v -> b <= e -> e <= lo -> (length v <= n)%nat ->
  remove_loop n v b e = Some v.
Proof.
  intros Hg ???. eapply remove_loop_past; [done|done| |done].
  by apply gapped_chain.
Qed.

Lemma region_eta r : mkRegion (base r) (end_ r) = r.
Proof. by destruct r. Qed.

(** One iteration of [remove] with the case decided by arithmetic. *)
Ltac remove_step n :=
  destruct n as [|n]; [simpl in *; lia|];
  rewrite remove_loop_step; cbn [base end_ length] in *; zbool; try lia.

(** After merging with a left neighbour that ends at [b]. *)
Lemma remove_after_left_merge v n bl b e :
  bl < b -> b < e -> gapped b v ->
  (forall x, covers v x -> ~ (b <= x < e)) ->
  (2 * length (add_pass v bl e) <= n)%nat ->
  remove_loop n (add_pass v bl e) b e = Some (mkRegion bl b :: v).
Proof.
  intros Hbl Hbe Hg Hdis Hn. destruct v as [|r v].
  - simpl in *. remove_step n. all: by destruct n.
  - destruct Hg as (H1 & H2 & H3).
    assert (He : e <= base r).
    { destruct (Z.le_gt_cases e (base r)); [done|].
      exfalso. apply (Hdis (base r)); [|lia]. apply covers_cons. lia. }
    destruct (Z.eq_dec (base r) e) as [Heq|Hne].
    + (* the right neighbour starts at [e]: both are merged *)
      assert (Hadd : add_pass (r :: v) bl e = mkRegion bl (end_ r) :: v).
      { simpl. zbool; try lia.
        all: replace (Z.min bl (base r)) with bl by lia;
             replace (Z.max e (end_ r)) with (end_ r) by lia;
             by rewrite add_pass_front by (done || lia). }
      rewrite Hadd in *. remove_step n. all: remove_step n.
      all: rewrite (gapped_past (end_ r)) by (done || lia).
      all: simpl; replace e with (base r) by lia; by rewrite region_eta.
    + assert (Hadd : add_pass (r :: v) bl e = mkRegion bl e :: r :: v).
      { simpl. zbool; (lia || done). }
      rewrite Hadd in *. remove_step n. all: remove_step n.
      all: rewrite (gapped_past (end_ r)) by (done || lia); done.
Qed.

(** Adding a range that shares no byte with the map and removing it
    again restores the vector. *)
Lemma remove_add_pass v : forall lo b e n,
  b < e -> gapped lo v ->
  (forall x, covers v x -> ~ (b <= x < e)) ->
  (2 * length (add_pass v b e) <= n)%nat ->
  remove_loop n (add_pass v b e) b e = Some v.
Proof.
  induction v as [|r v IH]; intros lo b e n Hbe Hg Hdis Hn.
  - simpl in *. remove_step n. all: by destruct n.
  - destruct Hg as (H1 & H2 & H3).
    assert (Hr : end_ r <= b \/ e <= base r).
    { destruct (Z.le_gt_cases (end_ r) b); [by left|]. right.
      destruct (Z.le_gt_cases e (base r)); [done|]. exfalso.
      apply (Hdis (Z.max b (base r))); [|lia]. apply covers_cons. lia. }
    assert (Hdis' : forall x, covers v x -> ~ (b <= x < e)).
    { intros x Hx. apply Hdis, covers_cons. by right. }
    destruct (Z.le_gt_cases (end_ r) b) as [Hl|Hl].
    + destruct (Z.eq_dec (end_ r) b) as [Heq|Hne].
      * (* [r] ends where the range begins *)
        assert (Hadd : add_pass (r :: v) b e = add_pass v (base r) e).
        { simpl. zbool; try lia.
          all: by replace (Z.min b (base r)) with (base r) by lia;
               replace (Z.max e (end_ r)) with e by lia. }
        rewrite Hadd in *. subst b.
        rewrite remove_after_left_merge; [|lia|lia|done|done|lia].
        by rewrite region_eta.
      * (* [r] lies before the range *)
        assert (Hadd : add_pass (r :: v) b e = r :: add_pass v b e).
        { simpl. zbool; (lia || done). }
        rewrite Hadd in *. remove_step n.
        all: rewrite (IH (end_ r)) by (done || lia); done.
    + assert (e <= base r) by lia.
      destruct (Z.eq_dec (base r) e) as [Heq|Hne].
      * (* [r] begins where the range ends *)
        assert (Hadd : add_pass (r :: v) b e = mkRegion b (end_ r) :: v).
        { simpl. zbool; try lia.
          all: replace (Z.min b (base r)) with b by lia;
               replace (Z.max e (end_ r)) with (end_ r) by lia;
               by rewrite add_pass_front by (done || lia). }
        rewrite Hadd in *. remove_step n.
        all: rewrite (gapped_past (end_ r)) by (done || lia).
        all: simpl; replace e with (base r) by lia; by rewrite region_eta.
      * (* the range goes in front of [r] *)
        assert (Hadd : add_pass (r :: v) b e = mkRegion b e :: r :: v).
        { simpl. zbool; (lia || done). }
        rewrite Hadd in *. remove_step n. all: remove_step n.
        all: rewrite (gapped_past (end_ r)) by (done || lia); done.
Qed.

End AddRemove.

(** C5, in the form that holds of the code: for a map whose regions
    neither overlap nor touch one another and a non-empty range [base,
    end) that shares no byte with the map (it may touch regions),
    [add(base, end)] followed by [remove(base, end)] leaves the region
    vector as it was. *)
Theorem add_then_remove_restores (v : PhysMap.region_vector) (lo b e : Z) :
  PhysMap.gapped lo v -> b < e ->
  (forall x, PhysMap.covers v x -> ~ (b <= x < e)) ->
  PhysMap.remove (PhysMap.add v b e) b e = Some v.
Proof.
  intros Hg Hbe Hdis. unfold PhysMap.remove, PhysMap.add.
  rewrite (add_rec_pass _ _ _ _ lo) by done.
  by apply (remove_add_pass v lo).
Qed.

Lemma add_then_remove_restores_witness :
  PhysMap.remove
    (PhysMap.add [PhysMap.mkRegion 0 10; PhysMap.mkRegion 20 30] 10 20) 10 20
  = Some [PhysMap.mkRegion 0 10; PhysMap.mkRegion 20 30].
Proof.
  apply (add_then_remove_restores _ (-1)).
  - simpl. lia.
  - lia.
  - intros x Hx.
    apply covers_cons in Hx as [Hx|Hx]; [simpl in Hx; lia|].
    apply covers_cons in Hx as [Hx|Hx]; [simpl in Hx; lia|].
    by apply covers_nil in Hx.
Defined.

(** C5 does not hold as the specification states it: on the map
    {[0,10)}, [add(5, 15)] followed by [remove(5, 15)] leaves {[0,5)}. *)
Lemma add_then_remove_overlap_counterexample :
  PhysMap.remove (PhysMap.add [PhysMap.mkRegion 0 10] 5 15) 5 15
    = Some [PhysMap.mkRegion 0 5] /\
  PhysMap.remove (PhysMap.add [PhysMap.mkRegion 0 10] 5 15) 5 15
    <> Some [PhysMap.mkRegion 0 10].
Proof. split; [reflexivity|discriminate]. Qed.

(** * [phys_map::alloc] *)

Section AllocFacts.
Import PhysMap.
Variables v2p p2v : Z -> Z.

Lemma wrap64_small x : 0 <= x < WORD -> wrap64 x = x.
Proof. intros. unfold wrap64. by apply Z.mod_small. Qed.

(** The mask [~(2^k - 1)] clears the low [k] bits. *)
Lemma land_not64_ones y k :
  0 <= k -> 0 <= y < WORD ->
  Z.land y (not64 (wrap64 (2 ^ k - 1))) = y / 2 ^ k * 2 ^ k.
Proof.
  intros Hk Hy.
  rewrite <- Z.shiftr_div_pow2, <- Z.shiftl_mul_pow2 by done.
  rewrite <- Z.ldiff_ones_r by done.
  apply Z.bits_inj'. intros n Hn.
  rewrite Z.land_spec, Z.ldiff_spec.
  unfold not64, wrap64, WORD.
  destruct (Z.lt_ge_cases n 64) as [Hlt|Hge].
  - rewrite Z.mod_pow2_bits_low by done. rewrite Z.lnot_spec by done.
    f_equal. f_equal.
    destruct (Z.lt_ge_cases k 64) as [Hk64|Hk64].
    + rewrite Z.mod_small; [by rewrite Z.ones_equiv, <- Z.sub_1_r|].
      split; [pose proof (Z.pow_pos_nonneg 2 k); lia|].
      assert (2 ^ k < 2 ^ 64) by (apply Z.pow_lt_mono_r; lia). lia.
    + rewrite Z.mod_pow2_bits_low by done.
      by rewrite Z.ones_equiv, <- Z.sub_1_r.
  - assert (Hy0 : Z.testbit y n = false).
    { destruct (Z.eq_dec y 0) as [->|Hne]; [apply Z.bits_0|].
      apply Z.bits_above_log2; [lia|].
      assert (Z.log2 y < 64); [|lia].
      apply Z.log2_lt_pow2; unfold WORD in Hy; lia. }
    by rewrite Hy0.
Qed.

Lemma align_up_eq pa k :
  0 <= k -> 0 <= pa -> pa + 2 ^ k <= WORD ->
  align_up pa (2 ^ k) = (pa + 2 ^ k - 1) / 2 ^ k * 2 ^ k.
Proof.
  intros Hk Hpa Hov. unfold align_up.
  assert (0 < 2 ^ k) by (apply Z.pow_pos_nonneg; lia).
  rewrite (wrap64_small (pa + 2 ^ k - 1)) by lia.
  apply land_not64_ones; lia.
Qed.








End AllocFacts.



(** * Steal order *)

Section StealOrderFacts.
Import StealOrder.

(** On a steal order made of non-empty segments the iterator visits the
    indices of the segments one after the other. *)
Lemma walk_segments post : forall steps pre s pos,
  Forall (fun s => (low s < high s)%nat) post ->
  (low s <= pos < high s)%nat ->
  (high s - pos + span post <= steps)%nat ->
  walk steps (pre ++ s :: post) (It (length pre) pos) =
    Some (seq pos (high s - pos) ++ indices_of post).
Proof.
  induction post as [|s' post IH]; intros steps pre s pos Hpost Hpos Hsteps.
  - revert pos Hpos Hsteps. induction steps as [|steps IHs]; intros pos Hpos Hsteps.
    + simpl in Hsteps. lia.
    + cbn [walk incr]. unfold segment_vector.
      rewrite (list_lookup_middle pre [] s (length pre) eq_refl).
      cbn [mbind option_bind].
      destruct (Nat.eqb_spec (S pos) (high s)) as [Hend|Hmore].
      * rewrite length_app. simpl. rewrite Nat.add_1_r, Nat.eqb_refl. simpl.
        destruct steps; simpl;
          replace (high s - pos)%nat with 1%nat by lia; reflexivity.
      * cbn [mbind option_bind]. rewrite IHs by lia.
        cbn [mbind option_bind deref].
        replace (high s - pos)%nat with (S (high s - S pos)) by lia. reflexivity.
  - inversion Hpost as [|?? Hs' Hpost']; subst.
    revert pos Hpos Hsteps. induction steps as [|steps IHs]; intros pos Hpos Hsteps.
    + simpl in Hsteps. lia.
    + cbn [walk incr]. unfold segment_vector.
      rewrite (list_lookup_middle pre (s' :: post) s (length pre) eq_refl).
      cbn [mbind option_bind].
      destruct (Nat.eqb_spec (S pos) (high s)) as [Hend|Hmore].
      * rewrite length_app. cbn [length].
        destruct (Nat.eqb_spec (S (length pre)) (length pre + S (S (length post))));
          [lia|].
        replace (pre ++ s :: s' :: post) with ((pre ++ [s]) ++ s' :: post)
          by (by rewrite <- app_assoc).
        replace (S (length pre)) with (length (pre ++ [s]))
          by (rewrite length_app; simpl; lia).
        rewrite (list_lookup_middle (pre ++ [s]) post s' _ eq_refl).
        cbn [mbind option_bind].
        change (span (s' :: post)) with (high s' - low s' + span post)%nat in Hsteps.
        rewrite IH; [|done|lia|lia].
        cbn [mbind option_bind deref].
        replace (high s - pos)%nat with 1%nat by lia. reflexivity.
      * cbn [mbind option_bind]. rewrite IHs by lia.
        cbn [mbind option_bind deref].
        replace (high s - pos)%nat with (S (high s - S pos)) by lia. reflexivity.
Qed.

Lemma iterate_segments segments_ :
  segments_ <> [] ->
  Forall (fun s => (low s < high s)%nat) segments_ ->
  iterate segments_ = Some (indices_of segments_).
Proof.
  intros Hne Hok. destruct segments_ as [|s post]; [done|].
  inversion Hok as [|?? Hs Hpost]; subst.
  unfold iterate, begin. cbn [head mbind option_bind].
  apply (walk_segments post _ [] s (low s)); [done|lia|].
  change (span (s :: post)) with (high s - low s + span post)%nat. lia.
Qed.







Lemma add_first lo hi :
  (lo < hi)%nat -> add [] lo hi = Some [mkSegment lo hi].
Proof.
  intros Hlt. unfold add. cbn [add_depth add_loop length]. unfold add_tail.
  destruct (Nat.leb_spec hi lo); [lia|done].
Qed.

End StealOrderFacts.


(** C3 holds of the design but not of the code. [add] is documented to
    "subtract out any ranges that have already been added", yet a range
    that lies inside an existing segment without being equal to it
    passes every test of the loop unchanged and is appended whole: after
    [add(0, 10); add(2, 5)] the steal order is <0..9> 2..4, its local
    range is still the first segment [0, 10), and iterating it yields
    the indices 2, 3 and 4 twice. *)
Theorem steal_order_contained_range_is_repeated :
  exists segments_ order,
    StealOrder.build [] [(0, 10); (2, 5)]%nat = Some segments_ /\
    segments_ = [StealOrder.mkSegment 0 10; StealOrder.mkSegment 2 5] /\
    StealOrder.get_local segments_ = Some (StealOrder.mkSegment 0 10) /\
    StealOrder.iterate segments_ = Some order /\
    order = [0; 1; 2; 3; 4; 5; 6; 7; 8; 9; 2; 3; 4]%nat /\
    ~ NoDup order.
Proof.
  eexists. eexists. split; [reflexivity|]. split; [reflexivity|].
  split; [reflexivity|]. split; [reflexivity|]. split; [reflexivity|].
  intros Hnd.
  pose proof (NoDup_lookup _ 2%nat 10%nat 2%nat Hnd eq_refl eq_refl).
  discriminate.
Qed.

(** * The page allocator front end *)

Section BootAllocator.
Import Kalloc.
Context `{Platform}.

Lemma PGROUNDUP_eq a :
  0 <= a -> a + PGSIZE <= WORD ->
  PGROUNDUP a = (a + PGSIZE - 1) / PGSIZE * PGSIZE.
Proof.
  intros Ha Hov. change (PGROUNDUP a) with (PhysMap.align_up a (2 ^ 12)).
  by apply align_up_eq.
Qed.

Lemma PGROUNDUP_bounds a :
  0 <= a -> a + PGSIZE <= WORD ->
  a <= PGROUNDUP a < a + PGSIZE /\ page_aligned (PGROUNDUP a).
Proof.
  intros Ha Hov. rewrite PGROUNDUP_eq by done. unfold page_aligned.
  assert (Hpos : 0 < PGSIZE) by done.
  pose proof (Z.div_mod (a + PGSIZE - 1) PGSIZE ltac:(lia)).
  pose proof (Z.mod_pos_bound (a + PGSIZE - 1) PGSIZE Hpos).
  split; [lia|]. apply Z.mod_mul. lia.
Qed.

Lemma PGROUNDUP_next a :
  0 <= a -> a + 2 * PGSIZE <= WORD ->
  PGROUNDUP (a + PGSIZE) = PGROUNDUP a + PGSIZE.
Proof.
  intros Ha Hov. assert (0 < PGSIZE) by done.
  rewrite !PGROUNDUP_eq by lia.
  replace (a + PGSIZE + PGSIZE - 1) with (a + PGSIZE - 1 + 1 * PGSIZE) by lia.
  rewrite Z.div_add by lia. lia.
Qed.

Lemma pgalloc_spec st :
  0 <= boot_break st -> boot_break st + PGSIZE < WORD ->
  let '(p, st') := pgalloc st in
  p = PGROUNDUP (boot_break st) /\
  boot_break st <= p < boot_break st + PGSIZE /\ page_aligned p /\
  (forall a, p <= a < p + PGSIZE -> memory st' a = 0) /\
  (forall a, ~ (p <= a < p + PGSIZE) -> memory st' a = memory st a) /\
  kinited st' = kinited st /\
  boot_break st' = boot_break st + PGSIZE.
Proof.
  intros Hlo Hhi. unfold pgalloc. fold (boot_break st).
  destruct (PGROUNDUP_bounds (boot_break st) Hlo ltac:(lia)) as [Hb Hal].
  split; [done|]. split; [done|]. split; [done|]. cbn [memory kinited].
  split; [|split; [|split; [done|]]].
  - intros a Ha. unfold memset. zbool; (lia || done).
  - intros a Ha. unfold memset. zbool; (lia || done).
  - unfold boot_break at 1. cbn [newend].
    rewrite wrap64_small by lia.
    destruct (Z.eqb_spec (boot_break st + PGSIZE) 0); [lia|done].
Qed.

(** C10: before initialization completes [kalloc] serves only requests
    of exactly [PGSIZE] bytes (anything else fails the assertion), and
    the bump allocator behind it returns a page-aligned block of
    [PGSIZE] zero bytes; the next call returns a block that starts at or
    after the end of the previous one, so the addresses strictly
    increase and the blocks do not overlap. (The break is assumed to
    stay below the top of the 64-bit address space.) *)
Theorem boot_kalloc_is_bump_allocator (c : nat) (st : kstate) :
  kinited st = false ->
  0 <= boot_break st -> boot_break st + 2 * PGSIZE < WORD ->
  (forall size, size <> PGSIZE -> kalloc c size st = Failed AssertFailed) /\
  exists p st', kalloc c PGSIZE st = Ok (p, st') /\
    kinited st' = false /\ page_aligned p /\
    (forall a, p <= a < p + PGSIZE -> memory st' a = 0) /\
    exists p2 st'', kalloc c PGSIZE st' = Ok (p2, st'') /\
      page_aligned p2 /\ p < p2 /\ p + PGSIZE <= p2 /\
      (forall a, p2 <= a < p2 + PGSIZE -> memory st'' a = 0) /\
      (forall a, p <= a < p + PGSIZE -> memory st'' a = 0).
Proof.
  intros Hinit Hlo Hhi. assert (0 < PGSIZE) by done. split.
  - intros size Hsize. unfold kalloc. rewrite Hinit. cbn [negb].
    by destruct (Z.eqb_spec size PGSIZE).
  - pose proof (pgalloc_spec st Hlo ltac:(lia)) as Hfirst.
    destruct (pgalloc st) as [p st'] eqn:Hpg.
    destruct Hfirst as (Hp & Hpb & Hpal & Hzero & Hkeep & Hk & Hbreak).
    exists p, st'. split.
    { unfold kalloc. rewrite Hinit. cbn [negb]. by rewrite Z.eqb_refl, Hpg. }
    split; [congruence|]. split; [done|]. split; [done|].
    pose proof (pgalloc_spec st' ltac:(lia) ltac:(lia)) as Hsecond.
    destruct (pgalloc st') as [p2 st''] eqn:Hpg2.
    destruct Hsecond as (Hp2 & Hpb2 & Hpal2 & Hzero2 & Hkeep2 & Hk2 & Hbreak2).
    assert (Hnext : p2 = p + PGSIZE).
    { rewrite Hp2, Hbreak, Hp. apply PGROUNDUP_next; lia. }
    exists p2, st''. split.
    { unfold kalloc. rewrite Hk, Hinit. cbn [negb]. by rewrite Z.eqb_refl, Hpg2. }
    split; [done|]. split; [lia|]. split; [lia|]. split; [done|].
    intros a Ha. rewrite Hkeep2 by lia. by apply Hzero.
Qed.

End BootAllocator.

Section GeneralPath.
Import StealOrder Kalloc.
Context `{Platform}.

Lemma acquired_app tr1 tr2 : acquired (tr1 ++ tr2) = acquired tr1 ++ acquired tr2.
Proof. apply omap_app. Qed.

Lemma frees_app tr1 tr2 : frees (tr1 ++ tr2) = frees tr1 ++ frees tr2.
Proof. apply omap_app. Qed.

Lemma MAX_SIZE_ge_page : PGSIZE <= MAX_SIZE.
Proof.
  unfold MAX_SIZE. assert (0 < 2 ^ Z.of_nat MAX_ORDER) by (apply Z.pow_pos_nonneg; lia).
  assert (0 < PGSIZE) by done. nia.
Qed.

Lemma find_buddy_none indices bs v :
  Forall (fun i => (i < length bs)%nat) indices ->
  (forall i b, bs !! i = Some b -> buddy_contains b v = false) ->
  find_buddy indices bs v = Ok None.
Proof.
  intros Hin Hout. induction Hin as [|i indices Hi _ IH]; [done|].
  simpl. destruct (lookup_lt_is_Some_2 bs i Hi) as [b Hb].
  rewrite Hb. simpl. by rewrite (Hout _ _ Hb).
Qed.

(** When every buddy refuses the request the general path takes each
    buddy's lock in steal order and comes back with null. *)
Lemma general_loop_refused size indices : forall bs tr,
  Forall (fun i => (i < length bs)%nat) indices ->
  (forall b, (buddy_alloc_nothrow b size).1 = 0) ->
  exists bs' tr', general_loop indices size bs tr = Ok (0, bs', tr') /\
    acquired tr' = acquired tr ++ indices.
Proof.
  induction indices as [|i indices IH]; intros bs tr Hin Hno.
  - exists bs, tr. split; [done|]. by rewrite app_nil_r.
  - inversion Hin as [|?? Hi Hin']; subst. simpl.
    destruct (lookup_lt_is_Some_2 bs i Hi) as [b Hb]. rewrite Hb. simpl.
    specialize (Hno b) as Hb0. destruct (buddy_alloc_nothrow b size) as [res b'].
    simpl in Hb0. subst res. simpl.
    destruct (IH (<[i:=b']> bs) (tr ++ [Acquire i; BuddyAlloc i size 0]))
      as (bs' & tr' & -> & Hacq); [by rewrite length_insert|done|].
    exists bs', tr'. split; [done|].
    rewrite Hacq, acquired_app. simpl. by rewrite <- app_assoc.
Qed.

(** C7, in the form that holds of the code: after initialization a
    request larger than [MAX_SIZE] is put to every buddy in steal order,
    each under its lock; as each buddy refuses it, [kalloc] returns
    null, having acquired the lock of every buddy of the steal order, in
    that order. *)
Theorem kalloc_oversized_returns_null_after_locking
    (c : nat) (size : Z) (st : kstate) (mem : cpu_mem) (indices : list nat) :
  kinited st = true -> MAX_SIZE < size ->
  cpus st !! c = Some mem -> iterate (steal mem) = Some indices ->
  Forall (fun i => (i < length (buddies st))%nat) indices ->
  (forall b s, MAX_SIZE < s -> (buddy_alloc_nothrow b s).1 = 0) ->
  exists st', kalloc c size st = Ok (0, st') /\
    acquired (trace st') = acquired (trace st) ++ indices.
Proof.
  intros Hinit Hsize Hc Hit Hin Hrefuse.
  pose proof MAX_SIZE_ge_page.
  unfold kalloc. rewrite Hinit. cbn [negb].
  destruct (Z.eqb_spec size PGSIZE) as [?|_]; [lia|].
  unfold general. rewrite Hc. simpl. rewrite Hit. simpl.
  destruct (general_loop_refused size indices (buddies st) (trace st) Hin)
    as (bs' & tr' & -> & Hacq); [by auto|].
  simpl. unfold finish. simpl. eexists. split; [reflexivity|].
  simpl. rewrite acquired_app, Hacq. simpl. by rewrite app_nil_r.
Qed.

(** C8, in the form that holds of the code: for every size other than
    [PGSIZE], [kfree] of a pointer that no buddy's window contains
    panics. *)
Theorem kfree_unknown_pointer_panics
    (c : nat) (v size : Z) (st : kstate) (mem : cpu_mem) (indices : list nat) :
  size <> PGSIZE ->
  cpus st !! c = Some mem -> iterate (steal mem) = Some indices ->
  Forall (fun i => (i < length (buddies st))%nat) indices ->
  (forall i b, buddies st !! i = Some b -> buddy_contains b v = false) ->
  kfree c v size st = Failed PanicNotAllocated.
Proof.
  intros Hsize Hc Hit Hin Hout. unfold kfree. rewrite Hc. simpl.
  destruct (Z.eqb_spec size PGSIZE) as [?|_]; [done|].
  rewrite Hit. simpl. by rewrite find_buddy_none.
Qed.

End GeneralPath.

Section HotCache.
Import StealOrder Kalloc.
Context `{Platform}.

Lemma same_windows_refl bs : same_windows bs bs.
Proof. apply Forall2_same_length_lookup_2; [done|]. intros i b b' ? ?; congruence. Qed.

Lemma same_windows_trans bs1 bs2 bs3 :
  same_windows bs1 bs2 -> same_windows bs2 bs3 -> same_windows bs1 bs3.
Proof.
  unfold same_windows. intros H12 H23.
  eapply Forall2_trans; [|exact H12|exact H23].
  intros b1 b2 b3 Ha Hb q. by rewrite Hb, Ha.
Qed.

Lemma same_windows_length bs bs' : same_windows bs bs' -> length bs' = length bs.
Proof. intros Hw. symmetry. by eapply Forall2_length. Qed.

Lemma same_windows_insert bs i b b' :
  bs !! i = Some b -> (forall q, buddy_contains b' q = buddy_contains b q) ->
  same_windows bs (<[i:=b']> bs).
Proof.
  intros Hb Hw. unfold same_windows.
  apply Forall2_same_length_lookup_2; [by rewrite length_insert|].
  intros j x y Hx Hy q. destruct (decide (i = j)) as [->|Hne].
  - rewrite list_lookup_insert_eq in Hy by (by eapply lookup_lt_Some).
    injection Hy as <-. rewrite Hx in Hb. injection Hb as ->. apply Hw.
  - rewrite list_lookup_insert_ne in Hy by done. congruence.
Qed.

Lemma same_windows_lookup bs bs' i b :
  same_windows bs bs' -> bs !! i = Some b ->
  exists b', bs' !! i = Some b' /\ forall q, buddy_contains b' q = buddy_contains b q.
Proof.
  intros Hw Hb. destruct (Forall2_lookup_l _ _ _ _ _ Hw Hb) as (b' & Hb' & Hq).
  by exists b'.
Qed.


Lemma in_some_window_same_windows bs bs' p :
  same_windows bs bs' -> in_some_window bs p -> in_some_window bs' p.
Proof.
  intros Hw (i & b & Hb & Hp).
  destruct (same_windows_lookup _ _ _ _ Hw Hb) as (b' & Hb' & Hq).
  exists i, b'. split; [done|]. by rewrite Hq.
Qed.




Lemma sort_length l : length (sort l) = length l.
Proof. unfold sort. by rewrite merge_sort_Permutation. Qed.







End HotCache.

Section HotCacheInvariant.
Import StealOrder Kalloc.
Context `{Platform}.

Lemma hot_cache_ok_windows bs bs' mem :
  same_windows bs bs' -> hot_cache_ok bs mem -> hot_cache_ok bs' mem.
Proof.
  intros Hw (Hn & Hlen & Hall). split; [done|]. split; [done|].
  intros i p Hi Hp. destruct (Hall i p Hi Hp) as [Hal Hwin].
  split; [done|]. by eapply in_some_window_same_windows.
Qed.

Lemma hot_caches_ok_windows bs bs' cs :
  same_windows bs bs' -> Forall (hot_cache_ok bs) cs -> Forall (hot_cache_ok bs') cs.
Proof.
  intros Hw Hcs. eapply Forall_impl; [exact Hcs|].
  intros mem. by apply hot_cache_ok_windows.
Qed.

(** [mem->hot_pages[mem->nhot++] = p] *)
Lemma hot_cache_ok_push bs mem p :
  hot_cache_ok bs mem -> (nhot mem < KALLOC_HOT_PAGES)%nat ->
  page_aligned p -> in_some_window bs p ->
  hot_cache_ok bs (mkCpuMem (steal mem) (mempool mem)
                     (<[nhot mem := p]> (hot_pages mem)) (S (nhot mem))).
Proof.
  intros (Hn & Hlen & Hall) Hlt Hal Hwin. split; [simpl; lia|].
  split; [simpl; by rewrite length_insert|]. simpl.
  intros i q Hi Hq. destruct (decide (i = nhot mem)) as [->|Hne].
  - rewrite list_lookup_insert_eq in Hq by lia. by injection Hq as <-.
  - rewrite list_lookup_insert_ne in Hq by done. apply (Hall i q); [lia|done].
Qed.

(** [mem->hot_pages[--mem->nhot]] *)
Lemma hot_cache_ok_pop bs mem n :
  hot_cache_ok bs mem -> nhot mem = S n ->
  hot_cache_ok bs (mkCpuMem (steal mem) (mempool mem) (hot_pages mem) n).
Proof.
  intros (Hn & Hlen & Hall) Hnhot. split; [simpl; lia|]. split; [done|].
  simpl. intros i q Hi Hq. apply (Hall i q); [lia|done].
Qed.

Lemma general_loop_windows size indices : forall bs tr res bs' tr',
  alloc_keeps_window ->
  general_loop indices size bs tr = Ok (res, bs', tr') -> same_windows bs bs'.
Proof.
  induction indices as [|i indices IH]; intros bs tr res bs' tr' Haw Hrun.
  - injection Hrun as _ <- _. apply same_windows_refl.
  - simpl in Hrun. destruct (bs !! i) as [b|] eqn:Hb; [|done]. run.
    pose proof (Haw b size) as Hwin.
    destruct (buddy_alloc_nothrow b size) as [r b']. simpl in Hwin.
    assert (Hw : same_windows bs (<[i:=b']> bs)) by (by eapply same_windows_insert).
    destruct (r =? 0).
    + eapply same_windows_trans; [exact Hw|]. by eapply IH.
    + by injection Hrun as _ <- _.
Qed.

Lemma flush_loop_windows order ptrs : forall lb bs tr bs' tr',
  free_keeps_window ->
  flush_loop ptrs order lb bs tr = Ok (bs', tr') -> same_windows bs bs'.
Proof.
  induction ptrs as [|ptr ptrs IH]; intros lb bs tr bs' tr' Hfw Hrun.
  - injection Hrun as <- _. apply same_windows_refl.
  - cbn [flush_loop] in Hrun.
    destruct (flush_buddy ptr order lb bs tr) as [[j tr1]|]; [|done]. run.
    destruct (bs !! j) as [b|] eqn:Hb; [|done]. run.
    eapply same_windows_trans; [|by eapply IH].
    eapply same_windows_insert; [done|]. intros q. apply Hfw.
Qed.

Lemma refill_loop_step steps order buddyit lb mem bs tr :
  refill_loop steps order buddyit lb mem bs tr =
  if (nhot mem <? KALLOC_HOT_PAGES / 2)%nat && negb (bool_decide (buddyit = [])) then
    match steps with
    | O => Failed Unfinished
    | S steps' =>
        b ← defined (bs !! lb);
        let '(page, b') := buddy_alloc_nothrow b PGSIZE in
        let bs := <[lb := b']> bs in
        let tr := tr ++ [BuddyAlloc lb PGSIZE page] in
        if page =? 0 then
          let buddyit := tail buddyit in
          if bool_decide (buddyit = []) && (nhot mem =? 0)%nat then
            Ok (GotoGeneral, mem, bs, tr)
          else
            let lb := hd 0%nat buddyit in
            _ ← defined (bs !! lb);
            local ← defined (is_local order lb);
            let tr := tr ++ [Acquire lb] ++
                      (if local : bool then [] else [Count kalloc_hot_list_steal_count]) in
            refill_loop steps' order buddyit lb mem bs tr
        else
          let mem := mkCpuMem (steal mem) (mempool mem)
                       (<[nhot mem := page]> (hot_pages mem)) (S (nhot mem)) in
          refill_loop steps' order buddyit lb mem bs tr
    end
  else Ok (Refilled, mem, bs, tr).
Proof. by destruct steps. Qed.

Lemma half_le_hot : (KALLOC_HOT_PAGES / 2 <= KALLOC_HOT_PAGES)%nat.
Proof. apply Nat.Div0.div_le_upper_bound. lia. Qed.

(** The refill loop keeps the cache well-formed and the windows as
    they were. *)
Lemma refill_loop_ok order steps : forall buddyit lb mem bs tr exit mem' bs' tr',
  alloc_keeps_window -> alloc_page_in_window ->
  refill_loop steps order buddyit lb mem bs tr = Ok (exit, mem', bs', tr') ->
  hot_cache_ok bs mem ->
  hot_cache_ok bs' mem' /\ same_windows bs bs'.
Proof.
  induction steps as [|steps IH];
    intros buddyit lb mem bs tr exit mem' bs' tr' Haw Hap Hrun Hok;
    rewrite refill_loop_step in Hrun.
  - destruct (_ && _); [done|]. injection Hrun as _ <- <- _.
    split; [done|apply same_windows_refl].
  - destruct (_ && _) eqn:Hcond.
    2:{ injection Hrun as _ <- <- _. split; [done|apply same_windows_refl]. }
    apply andb_prop in Hcond as [Hlt _]. apply Nat.ltb_lt in Hlt.
    pose proof half_le_hot.
    destruct (bs !! lb) as [b|] eqn:Hb; [|done]. run.
    pose proof (Haw b PGSIZE) as Hwin. pose proof (Hap b) as Hpage.
    destruct (buddy_alloc_nothrow b PGSIZE) as [page b']. simpl in Hwin, Hpage.
    assert (Hw : same_windows bs (<[lb:=b']> bs)) by (by eapply same_windows_insert).
    pose proof (hot_cache_ok_windows _ _ _ Hw Hok) as Hok1.
    destruct (Z.eqb_spec page 0) as [Hnull|Hpagenz].
    + destruct (_ && _).
      * injection Hrun as _ <- <- _. done.
      * destruct (<[lb:=b']> bs !! hd 0%nat (tail buddyit)); [|done]. run.
        destruct (is_local order (hd 0%nat (tail buddyit))); [|done]. run.
        destruct (IH _ _ _ _ _ _ _ _ _ Haw Hap Hrun Hok1) as [Hok' Hw'].
        split; [done|]. by eapply same_windows_trans.
    + destruct (Hpage Hpagenz) as [Hal Hcont].
      apply IH in Hrun as [Hok' Hw']; [|done|done|].
      * split; [done|]. by eapply same_windows_trans.
      * apply hot_cache_ok_push; [done|lia|done|].
        exists lb, b'. split; [|done].
        apply list_lookup_insert_eq. by eapply lookup_lt_Some.
Qed.

(** The steps given to the refill loop are enough. *)
Lemma refill_loop_finishes order steps : forall buddyit lb mem bs tr,
  (KALLOC_HOT_PAGES / 2 - nhot mem + length buddyit <= steps)%nat ->
  refill_loop steps order buddyit lb mem bs tr <> Failed Unfinished.
Proof.
  induction steps as [|steps IH]; intros buddyit lb mem bs tr Hsteps;
    rewrite refill_loop_step.
  - destruct (Nat.ltb_spec (nhot mem) (KALLOC_HOT_PAGES / 2)); [lia|done].
  - destruct (_ && _) eqn:Hcond; [|done].
    apply andb_prop in Hcond as [Hlt Hne]. apply Nat.ltb_lt in Hlt.
    apply negb_true_iff, bool_decide_eq_false in Hne.
    destruct buddyit as [|i buddyit]; [done|]. cbn [length] in Hsteps.
    destruct (bs !! lb) as [b|]; [|done]. run.
    destruct (buddy_alloc_nothrow b PGSIZE) as [page b'].
    destruct (page =? 0).
    + destruct (_ && _); [done|].
      destruct (<[lb:=b']> bs !! hd 0%nat (tail (i :: buddyit))); [|done]. run.
      destruct (is_local order (hd 0%nat (tail (i :: buddyit)))); [|done]. run.
      apply IH. cbn [tail nhot length]. lia.
    + apply IH. cbn [nhot length]. lia.
Qed.

Lemma hot_caches_ok_set_cpu c mem bs tr st :
  Forall (hot_cache_ok bs) (cpus st) -> hot_cache_ok bs mem ->
  hot_caches_ok (set_cpu c mem bs tr st).
Proof. intros Hall Hmem. unfold hot_caches_ok. run. by apply Forall_insert. Qed.

Lemma finish_ok res st p st' :
  finish res st = Ok (p, st') -> hot_caches_ok st -> hot_caches_ok st'.
Proof.
  unfold finish. destruct (res =? 0); intros [= _ <-]; done.
Qed.

Lemma general_ok c size st p st' :
  alloc_keeps_window ->
  general c size st = Ok (p, st') -> hot_caches_ok st -> hot_caches_ok st'.
Proof.
  intros Haw Hrun Hok. unfold general in Hrun.
  destruct (cpus st !! c) as [mem|]; [|done]. run.
  destruct (iterate (steal mem)) as [indices|]; [|done]. run.
  destruct (general_loop indices size (buddies st) (trace st))
    as [[[res bs'] tr']|] eqn:Hloop; [|done]. run.
  apply general_loop_windows in Hloop; [|done].
  eapply finish_ok; [exact Hrun|].
  unfold hot_caches_ok. run. by eapply hot_caches_ok_windows.
Qed.

(** The cache after the survivors of a flush have been moved down. *)
Lemma hot_cache_ok_shift bs mem :
  hot_cache_ok bs mem -> nhot mem = KALLOC_HOT_PAGES ->
  let half := (KALLOC_HOT_PAGES / 2)%nat in
  let n := (KALLOC_HOT_PAGES - half)%nat in
  let hot := sort (take half (hot_pages mem)) ++ drop half (hot_pages mem) in
  hot_cache_ok bs (mkCpuMem (steal mem) (mempool mem)
                     (take n (drop half hot) ++ drop n hot) n).
Proof.
  intros (Hn & Hlen & Hall) Hfull half n hot.
  pose proof half_le_hot as Hhalf. fold half in Hhalf.
  assert (Hsl : length (sort (take half (hot_pages mem))) = half).
  { rewrite sort_length, length_take. lia. }
  assert (Hdrop : drop half hot = drop half (hot_pages mem)).
  { unfold hot. by rewrite drop_app_length'. }
  assert (Hhl : length hot = KALLOC_HOT_PAGES).
  { unfold hot. rewrite length_app, Hsl, length_drop. lia. }
  rewrite Hdrop.
  assert (Hdl : length (drop half (hot_pages mem)) = n) by (rewrite length_drop; lia).
  rewrite take_ge by lia.
  split; [cbn [nhot]; lia|]. split.
  - cbn [hot_pages]. rewrite length_app, Hdl, length_drop. lia.
  - cbn [hot_pages nhot]. intros i p Hi Hp.
    rewrite lookup_app_l in Hp by lia. rewrite lookup_drop in Hp.
    apply (Hall (half + i)%nat p); [lia|done].
Qed.

(** C9, in the form that holds of the code: the invariant -- on every
    CPU [nhot] is at most [KALLOC_HOT_PAGES] and every pointer in
    [hot_pages[0..nhot)] is page-aligned and lies in the window of some
    buddy -- holds when the caches are empty, as initialization leaves
    them, and every [kalloc] that returns preserves it, as does every
    [kfree] that returns, when a pointer freed at size [PGSIZE] is
    page-aligned and lies in the window of some buddy. (The buddies keep
    their windows, and hand out page-aligned pages inside their window.) *)
Theorem hot_cache_invariant_preserved (c : nat) (st : kstate) :
  alloc_keeps_window -> free_keeps_window -> alloc_page_in_window ->
  hot_caches_ok st ->
  (forall size p st', kalloc c size st = Ok (p, st') -> hot_caches_ok st') /\
  (forall size, kalloc c size st <> Failed Unfinished) /\
  (forall v size st',
     (size = PGSIZE -> page_aligned v /\ in_some_window (buddies st) v) ->
     kfree c v size st = Ok st' -> hot_caches_ok st') /\
  (forall st0 : kstate,
     Forall (fun mem => nhot mem = 0%nat /\
                        length (hot_pages mem) = KALLOC_HOT_PAGES) (cpus st0) ->
     hot_caches_ok st0).
Proof.
  intros Haw Hfw Hap Hok. split; [|split; [|split]].
  - (* kalloc *)
    intros size p st' Hrun. unfold kalloc in Hrun.
    destruct (kinited st).
    2:{ cbn [negb] in Hrun. destruct (size =? PGSIZE); [|done].
        injection Hrun as _ <-. exact Hok. }
    cbn [negb] in Hrun. destruct (size =? PGSIZE); [|by eapply general_ok].
    destruct (cpus st !! c) as [mem|] eqn:Hc; [|done]. run.
    pose proof (Forall_lookup_1 _ _ _ _ Hok Hc) as Hmem.
    assert (Hpop : forall mem1 bs1 tr1,
      hot_cache_ok bs1 mem1 -> same_windows (buddies st) bs1 ->
      match nhot mem1 with
      | O => Failed Undefined
      | S n =>
          res ← defined (hot_pages mem1 !! n);
          finish res (set_cpu c (mkCpuMem (steal mem1) (mempool mem1) (hot_pages mem1) n)
                        bs1 (tr1 ++ [Count kalloc_page_alloc_count]) st)
      end = Ok (p, st') -> hot_caches_ok st').
    { intros mem1 bs1 tr1 Hok1 Hw1 Hfin.
      destruct (nhot mem1) as [|n] eqn:Hn; [done|].
      destruct (hot_pages mem1 !! n) as [res|]; [|done]. run.
      eapply finish_ok; [exact Hfin|]. apply hot_caches_ok_set_cpu.
      - by eapply hot_caches_ok_windows.
      - by apply hot_cache_ok_pop. }
    destruct (nhot mem =? 0)%nat.
    + destruct (iterate (steal mem)) as [buddyit|]; [|done]. run.
      destruct (buddies st !! hd 0%nat buddyit); [|done]. run.
      destruct (refill_loop _ _ _ _ _ _ _) as [[[[exit mem1] bs1] tr1]|] eqn:Hloop;
        [|done]. run.
      destruct (refill_loop_ok _ _ _ _ _ _ _ _ _ _ _ Haw Hap Hloop Hmem) as [Hok1 Hw1].
      destruct exit.
      * by eapply Hpop.
      * eapply general_ok; [done|exact Hrun|]. apply hot_caches_ok_set_cpu; [|done].
        by eapply hot_caches_ok_windows.
    + run. eapply Hpop; [exact Hmem|apply same_windows_refl|exact Hrun].
  - (* the refill loop is given enough steps *)
    intros size. unfold kalloc.
    destruct (kinited st); cbn [negb]; [|by destruct (size =? PGSIZE)].
    assert (Hgen : forall st1, general c size st1 <> Failed Unfinished).
    { intros st1. unfold general.
      destruct (cpus st1 !! c) as [mem|]; [|done]. run.
      destruct (iterate (steal mem)) as [indices|]; [|done]. run.
      assert (Hloop : forall bs tr, general_loop indices size bs tr <> Failed Unfinished).
      { clear. induction indices as [|i indices IH]; intros bs tr; [done|].
        simpl. destruct (bs !! i) as [b|]; [|done]. run.
        destruct (buddy_alloc_nothrow b size) as [r b'].
        destruct (r =? 0); [apply IH|done]. }
      specialize (Hloop (buddies st1) (trace st1)).
      destruct (general_loop indices size (buddies st1) (trace st1))
        as [[[res bs'] tr']|f]; [|by destruct f]. run.
      unfold finish. by destruct (res =? 0). }
    destruct (size =? PGSIZE); [|apply Hgen].
    destruct (cpus st !! c) as [mem|] eqn:Hc; [|done]. run.
    assert (Hpop : forall mem1 bs1 tr1,
      match nhot mem1 with
      | O => Failed Undefined
      | S n =>
          res ← defined (hot_pages mem1 !! n);
          finish res (set_cpu c (mkCpuMem (steal mem1) (mempool mem1) (hot_pages mem1) n)
                        bs1 (tr1 ++ [Count kalloc_page_alloc_count]) st)
      end <> Failed Unfinished).
    { intros mem1 bs1 tr1. destruct (nhot mem1) as [|n]; [done|].
      destruct (hot_pages mem1 !! n) as [res|]; [|done]. run.
      unfold finish. by destruct (res =? 0). }
    destruct (Nat.eqb_spec (nhot mem) 0) as [Hz|_]; [|run; apply Hpop].
    destruct (iterate (steal mem)) as [buddyit|]; [|done]. run.
    destruct (buddies st !! hd 0%nat buddyit); [|done]. run.
    pose proof (refill_loop_finishes (steal mem)
                  (KALLOC_HOT_PAGES / 2 + length buddyit) buddyit
                  (hd 0%nat buddyit) mem (buddies st)
                  (trace st ++ [Count kalloc_hot_list_refill_count;
                                Acquire (hd 0%nat buddyit)]) ltac:(lia)) as Hfin.
    destruct (refill_loop _ _ _ _ _ _ _) as [[[[exit mem1] bs1] tr1]|f];
      [|by destruct f]. run.
    destruct exit; [apply Hpop|apply Hgen].
  - (* kfree *)
    intros v size st' Hv Hrun. unfold kfree in Hrun.
    destruct (cpus st !! c) as [mem|] eqn:Hc; [|done]. run.
    pose proof (Forall_lookup_1 _ _ _ _ Hok Hc) as Hmem.
    destruct (Z.eqb_spec size PGSIZE) as [Hsize|_].
    + destruct (Hv Hsize) as [Hal Hwin].
      assert (Hpush : forall mem1 bs1 tr1,
        hot_cache_ok bs1 mem1 -> same_windows (buddies st) bs1 ->
        (if (nhot mem1 <? KALLOC_HOT_PAGES)%nat
         then Ok (set_cpu c (mkCpuMem (steal mem1) (mempool mem1)
                               (<[nhot mem1:=v]> (hot_pages mem1)) (S (nhot mem1)))
                    bs1 (tr1 ++ [Count kalloc_page_free_count]) st)
         else Failed Undefined) = Ok st' -> hot_caches_ok st').
      { intros mem1 bs1 tr1 Hok1 Hw1 Hfin.
        destruct (Nat.ltb_spec (nhot mem1) KALLOC_HOT_PAGES); [|done].
        injection Hfin as <-. apply hot_caches_ok_set_cpu.
        - by eapply hot_caches_ok_windows.
        - apply hot_cache_ok_push; [done..|].
          by eapply in_some_window_same_windows. }
      destruct (Nat.eqb_spec (nhot mem) KALLOC_HOT_PAGES) as [Hfull|_].
      * destruct (flush_loop _ _ _ _ _) as [[bs1 tr1]|] eqn:Hloop; [|done]. run.
        apply flush_loop_windows in Hloop; [|done].
        pose proof (hot_cache_ok_shift _ _ Hmem Hfull) as Hshift.
        cbv zeta in Hshift.
        exact (Hpush _ bs1 tr1 (hot_cache_ok_windows _ _ _ Hloop Hshift) Hloop Hrun).
      * run. eapply Hpush; [exact Hmem|apply same_windows_refl|exact Hrun].
    + destruct (iterate (steal mem)) as [indices|]; [|done]. run.
      destruct (find_buddy indices (buddies st) v) as [[idx|]|]; [|done..]. run.
      destruct (buddies st !! idx) as [b|] eqn:Hb; [|done]. run.
      injection Hrun as <-. unfold hot_caches_ok. run.
      eapply hot_caches_ok_windows; [|exact Hok].
      eapply same_windows_insert; [done|]. intros q. apply Hfw.
  - (* empty caches *)
    intros st0 Hempty. unfold hot_caches_ok.
    eapply Forall_impl; [exact Hempty|]. intros mem [Hn Hlen].
    split; [lia|]. split; [done|]. intros i p Hi. lia.
Qed.

End HotCacheInvariant.

(** * The model at work on the small platform *)

Section Demo.
Import StealOrder Kalloc.

Lemma pool_free_keeps_window hot : @free_keeps_window (pool_platform hot).
Proof. intros b p size q. reflexivity. Qed.

Lemma pool_alloc_keeps_window hot : @alloc_keeps_window (pool_platform hot).
Proof.
  intros b size q. cbn [buddy_alloc_nothrow pool_platform]. unfold pool_alloc.
  destruct (size =? PGSIZE); [|done].
  destruct (pool_free b) as [|n rest]; [done|].
  by destruct (_ && _).
Qed.

Lemma pool_alloc_page_in_window hot : @alloc_page_in_window (pool_platform hot).
Proof.
  intros b. cbn [buddy_alloc_nothrow buddy_contains pool_platform].
  unfold pool_alloc. rewrite Z.eqb_refl.
  destruct (pool_free b) as [|n rest]; [done|].
  destruct (_ && _) eqn:Hin; [|done]. intros _.
  apply andb_prop in Hin as [Hlo Hhi]. apply Z.leb_le in Hlo. apply Z.ltb_lt in Hhi.
  cbn [fst snd pool_lo pool_hi]. split; [apply Z.mod_mul; done|].
  apply andb_true_intro. split; [apply Z.leb_le|apply Z.ltb_lt]; unfold PGSIZE; lia.
Qed.

Lemma pool_refuses_oversized hot (b : page_pool) (s : Z) :
  @MAX_SIZE (pool_platform hot) < s -> (pool_alloc b s).1 = 0.
Proof.
  intros Hs. unfold pool_alloc.
  destruct (Z.eqb_spec s PGSIZE) as [->|_]; [|done].
  unfold MAX_SIZE in Hs. simpl in Hs. lia.
Qed.

Lemma demo_state_ok : hot_caches_ok demo_state.
Proof.
  unfold hot_caches_ok. repeat apply List.Forall_cons; try apply List.Forall_nil.
  all: split; [simpl; lia|]; split; [reflexivity|]; simpl; intros; lia.
Qed.

Lemma demo_state_in_range :
  Forall (fun i => (i < length (buddies demo_state))%nat) [0; 1]%nat.
Proof. repeat apply List.Forall_cons; try apply List.Forall_nil; simpl; lia. Qed.

End Demo.

Lemma boot_kalloc_is_bump_allocator_witness :
  exists p st' p2 st'',
    Kalloc.kalloc 0 Kalloc.PGSIZE Kalloc.demo_boot_state = Kalloc.Ok (p, st') /\
    Kalloc.kalloc 0 Kalloc.PGSIZE st' = Kalloc.Ok (p2, st'') /\
    Kalloc.page_aligned p /\ Kalloc.page_aligned p2 /\ p + Kalloc.PGSIZE <= p2.
Proof.
  destruct (boot_kalloc_is_bump_allocator 0%nat Kalloc.demo_boot_state)
    as [_ (p & st' & H1 & _ & H2 & _ & p2 & st'' & H3 & H4 & _ & H5 & _)].
  - reflexivity.
  - by vm_compute.
  - by vm_compute.
  - by exists p, st', p2, st''.
Defined.


Lemma kalloc_oversized_returns_null_after_locking_witness :
  exists st',
    Kalloc.kalloc 0 8192 Kalloc.demo_state = Kalloc.Ok (0, st') /\
    Kalloc.acquired (Kalloc.trace st') = [0; 1]%nat.
Proof.
  apply (kalloc_oversized_returns_null_after_locking 0%nat 8192
           Kalloc.demo_state Kalloc.demo_cpu [0; 1]%nat).
  - reflexivity.
  - by vm_compute.
  - reflexivity.
  - reflexivity.
  - exact demo_state_in_range.
  - intros b s. apply pool_refuses_oversized.
Defined.

(** C7 does not hold as the specification states it: a request of one
    byte more than [MAX_SIZE] returns null only after the locks of buddy
    0 and buddy 1 have been acquired. *)
Lemma kalloc_oversized_locks_counterexample :
  exists st',
    Kalloc.kalloc 0 (@Kalloc.MAX_SIZE (Kalloc.pool_platform 4) + 1)
      Kalloc.demo_state = Kalloc.Ok (0, st') /\
    Kalloc.acquired (Kalloc.trace Kalloc.demo_state) = [] /\
    Kalloc.acquired (Kalloc.trace st') = [0; 1]%nat.
Proof. eexists. split; [reflexivity|]. split; reflexivity. Qed.

Lemma kfree_unknown_pointer_panics_witness :
  Kalloc.kfree 0 1 8192 Kalloc.demo_state = Kalloc.Failed Kalloc.PanicNotAllocated.
Proof.
  apply (kfree_unknown_pointer_panics 0%nat 1 8192 Kalloc.demo_state
           Kalloc.demo_cpu [0; 1]%nat).
  - discriminate.
  - reflexivity.
  - reflexivity.
  - exact demo_state_in_range.
  - intros [|[|i]] b Hb; simpl in Hb; inversion Hb; reflexivity.
Defined.

(** C8 does not hold as the specification states it: the pointer 1 lies
    in no buddy's window, and [kfree] of it at size [PGSIZE] returns
    normally, with the pointer stored in the hot cache. *)
Lemma kfree_page_unknown_pointer_counterexample :
  exists st' mem',
    Kalloc.kfree 0 1 Kalloc.PGSIZE Kalloc.demo_state = Kalloc.Ok st' /\
    Kalloc.cpus st' !! 0%nat = Some mem' /\
    Kalloc.hot_pages mem' !! 0%nat = Some 1 /\
    forall i b, Kalloc.buddies Kalloc.demo_state !! i = Some b ->
      Kalloc.buddy_contains b 1 = false.
Proof.
  eexists. eexists. split; [reflexivity|]. split; [reflexivity|].
  split; [reflexivity|].
  intros [|[|i]] b Hb; simpl in Hb; inversion Hb; reflexivity.
Qed.

Lemma hot_cache_invariant_preserved_witness :
  (exists p st',
     Kalloc.kalloc 0 Kalloc.PGSIZE Kalloc.demo_state = Kalloc.Ok (p, st') /\
     Kalloc.hot_caches_ok st') /\
  (exists st',
     Kalloc.kfree 0 0x11000 Kalloc.PGSIZE Kalloc.demo_state = Kalloc.Ok st' /\
     Kalloc.hot_caches_ok st').
Proof.
  pose proof (hot_cache_invariant_preserved 0%nat Kalloc.demo_state
                (pool_alloc_keeps_window 4) (pool_free_keeps_window 4)
                (pool_alloc_page_in_window 4) demo_state_ok) as (Ha & _ & Hf & _).
  split.
  - destruct (Kalloc.kalloc 0 Kalloc.PGSIZE Kalloc.demo_state)
      as [[p st']|f] eqn:Hk; [|vm_compute in Hk; discriminate].
    exists p, st'. split; [reflexivity|]. by eapply Ha.
  - destruct (Kalloc.kfree 0 0x11000 Kalloc.PGSIZE Kalloc.demo_state)
      as [st'|f] eqn:Hk; [|vm_compute in Hk; discriminate].
    exists st'. split; [reflexivity|].
    eapply (Hf 0x11000 Kalloc.PGSIZE); [|exact Hk].
    intros _. split; [reflexivity|].
    exists 0%nat, (Kalloc.mkPool 16 32 [16; 17; 18]). split; reflexivity.
Defined.

(** C9 does not hold as the specification states it: [kfree] of the
    pointer 1 at size [PGSIZE] returns with that pointer, which is not
    page-aligned, in [hot_pages[0..nhot)]. *)
Lemma hot_cache_unchecked_free_counterexample :
  exists st',
    Kalloc.kfree 0 1 Kalloc.PGSIZE Kalloc.demo_state = Kalloc.Ok st' /\
    Kalloc.hot_caches_ok Kalloc.demo_state /\
    ~ Kalloc.hot_caches_ok st'.
Proof.
  eexists. split; [reflexivity|]. split; [exact demo_state_ok|].
  intros Hok. apply Forall_inv in Hok. destruct Hok as (_ & _ & Hall).
  destruct (Hall 0%nat 1) as [Hal _]; [simpl; lia|reflexivity|].
  discriminate Hal.
Qed.

(** * More on the physical memory map *)

Section PhysMapCovers.
Import PhysMap.

Lemma covers_app v w x : covers (v ++ w) x <-> covers v x \/ covers w x.
Proof. unfold covers. apply Exists_app. Qed.

Lemma add_rec_covers depth : forall regions b e x,
  (length regions <= depth)%nat ->
  covers (add_rec depth regions b e) x <-> covers regions x \/ b <= x < e.
Proof.
  induction depth as [|d IH]; intros regions b e x Hlen.
  - destruct regions; [|simpl in Hlen; lia]. simpl. unfold insert_at. simpl.
    rewrite covers_cons. simpl. tauto.
  - simpl. destruct (add_scan 0 regions b e) as [i it|i] eqn:Hscan.
    + apply add_scan_overlap in Hscan as (pre & post & -> & -> & _ & Ho1 & Ho2).
      rewrite erase_middle. rewrite IH.
      2:{ rewrite length_app in *. simpl in Hlen. lia. }
      rewrite !covers_app, covers_cons. intuition lia.
    + apply add_scan_insert in Hscan as (pre & post & -> & -> & _).
      rewrite insert_at_middle. rewrite !covers_app, covers_cons. simpl. tauto.
Qed.

End PhysMapCovers.

(** X1: after [add(base, end)] the map holds the bytes it held before
    and the bytes of the range, and no others; this is so for every
    region vector and every pair of bounds. *)
Theorem phys_map_add_covers_union (v : PhysMap.region_vector) (b e x : Z) :
  PhysMap.covers (PhysMap.add v b e) x <-> PhysMap.covers v x \/ b <= x < e.
Proof. by apply add_rec_covers. Qed.

(** X2: [remove(base, end)] with [base <= end] finishes and takes
    exactly the bytes of the range out of the map, and [remove(o)] takes
    out exactly the bytes of the map [o], whatever the order and overlap
    of the regions of either map. *)
Theorem phys_map_remove_covers_difference (v o : PhysMap.region_vector) (b e : Z) :
  b <= e -> Forall (fun r => PhysMap.base r <= PhysMap.end_ r) o ->
  (exists v', PhysMap.remove v b e = Some v' /\
     forall x, PhysMap.covers v' x <-> PhysMap.covers v x /\ ~ (b <= x < e)) /\
  (exists v', PhysMap.remove_map v o = Some v' /\
     forall x, PhysMap.covers v' x <-> PhysMap.covers v x /\ ~ PhysMap.covers o x).
Proof.
  intros Hbe Ho. split.
  - destruct (remove_spec v b e Hbe) as (v' & Hrun & Hcov & _). by exists v'.
  - destruct (remove_map_spec o v Ho) as (v' & Hrun & Hcov & _). by exists v'.
Qed.

Lemma phys_map_remove_covers_difference_witness :
  (exists v', PhysMap.remove [PhysMap.mkRegion 0 100] 20 30 = Some v' /\
     forall x, PhysMap.covers v' x <->
               PhysMap.covers [PhysMap.mkRegion 0 100] x /\ ~ (20 <= x < 30)) /\
  (exists v', PhysMap.remove_map [PhysMap.mkRegion 0 100]
                [PhysMap.mkRegion 50 60; PhysMap.mkRegion 10 55] = Some v' /\
     forall x, PhysMap.covers v' x <->
               PhysMap.covers [PhysMap.mkRegion 0 100] x /\
               ~ PhysMap.covers [PhysMap.mkRegion 50 60; PhysMap.mkRegion 10 55] x).
Proof.
  apply phys_map_remove_covers_difference; [lia|].
  repeat apply List.Forall_cons; try apply List.Forall_nil; simpl; lia.
Defined.

(** X3: [remove(base, end)] with [end < base] on a region that contains
    both bounds strictly splits that region, and then the upper part it
    has just inserted, again and again: whatever number of iterations
    the loop is given it has not reached the end of the vector. *)
Theorem phys_map_remove_reversed_range_never_ends
    (steps : nat) (it : PhysMap.region) (rest : PhysMap.region_vector) (b e : Z) :
  e < b -> PhysMap.base it < b -> e < PhysMap.end_ it ->
  PhysMap.remove_loop steps (it :: rest) b e = None.
Proof.
  intros Heb. revert it. induction steps as [|n IH]; intros it Hb He; [done|].
  rewrite remove_loop_step.
  destruct (Z.ltb_spec (PhysMap.base it) b); [|lia].
  destruct (Z.ltb_spec e (PhysMap.end_ it)); [|lia].
  cbn [andb]. rewrite IH; [done| |]; simpl; lia.
Qed.

Lemma phys_map_remove_reversed_range_never_ends_witness :
  PhysMap.remove_loop 1000 [PhysMap.mkRegion 0 10] 5 3 = None.
Proof. apply phys_map_remove_reversed_range_never_ends; simpl; lia. Defined.

Section PhysQueryFacts.
Import PhysMap.
Variables v2p p2v : Z -> Z.



End PhysQueryFacts.



Section PhysBytes.
Import PhysMap.

Lemma addresses_cons r v :
  PhysQuery.addresses (r :: v) = seqZ (base r) (end_ r - base r) ++ PhysQuery.addresses v.
Proof. reflexivity. Qed.

Lemma elem_of_addresses v x : x ∈ PhysQuery.addresses v <-> covers v x.
Proof.
  induction v as [|r v IH].
  - split; [inversion 1|]. intros Hx. by apply covers_nil in Hx.
  - rewrite addresses_cons, elem_of_app, elem_of_seqZ, covers_cons, IH.
    intuition lia.
Qed.

Lemma NoDup_addresses lo v : chain lo v -> NoDup (PhysQuery.addresses v).
Proof.
  revert lo; induction v as [|r v IH]; intros lo Hc; [constructor|].
  destruct Hc as (H1 & H2 & H3). rewrite addresses_cons. apply NoDup_app.
  split; [apply NoDup_seqZ|]. split; [|by eapply IH].
  intros x Hx Hx'. apply elem_of_seqZ in Hx. apply elem_of_addresses in Hx'.
  pose proof (chain_covers_lower _ _ _ H3 Hx'). lia.
Qed.

Lemma length_addresses lo v :
  chain lo v -> Z.of_nat (length (PhysQuery.addresses v)) = PhysQuery.total_size v.
Proof.
  revert lo; induction v as [|r v IH]; intros lo Hc; [done|].
  destruct Hc as (H1 & H2 & H3).
  rewrite addresses_cons, length_app, length_seqZ, Nat2Z.inj_add, (IH _ H3).
  simpl. lia.
Qed.

Lemma bytes_fold v : forall acc lo,
  0 <= acc <= lo -> chain lo v -> Forall (fun r => end_ r <= UINTPTR_MAX) v ->
  foldl (fun total reg => wrap64 (total + wrap64 (end_ reg - base reg))) acc v
    = acc + PhysQuery.total_size v.
Proof.
  induction v as [|r v IH]; intros acc lo Hacc Hc Hr; simpl; [lia|].
  destruct Hc as (H1 & H2 & H3). inversion Hr as [|?? Hr1 Hr']; subst.
  unfold UINTPTR_MAX, WORD in Hr1.
  rewrite (wrap64_small (end_ r - base r)) by (unfold WORD; lia).
  rewrite wrap64_small by (unfold WORD; lia).
  rewrite (IH _ (end_ r)); [lia|lia|done|done].
Qed.

Lemma in_range_ends v :
  in_range v -> Forall (fun r => end_ r <= UINTPTR_MAX) v.
Proof. intros Hr. eapply Forall_impl; [exact Hr|]. simpl. tauto. Qed.

Lemma bytes_total v :
  wf v -> in_range v -> PhysQuery.bytes v = PhysQuery.total_size v.
Proof.
  intros Hwf Hr. unfold PhysQuery.bytes.
  rewrite (bytes_fold v 0 0); [lia|lia|by apply wf_in_range_chain|by apply in_range_ends].
Qed.

End PhysBytes.

(** X5: on a well-formed map of [uintptr_t] regions [bytes()] is the
    number of addresses the map holds: the sum does not wrap around, and
    no address is counted twice. *)
Theorem bytes_counts_the_addresses (v : PhysMap.region_vector) :
  PhysMap.wf v -> PhysMap.in_range v ->
  NoDup (PhysQuery.addresses v) /\
  (forall x, x ∈ PhysQuery.addresses v <-> PhysMap.covers v x) /\
  PhysQuery.bytes v = Z.of_nat (length (PhysQuery.addresses v)).
Proof.
  intros Hwf Hr. split; [|split].
  - destruct Hwf as [lo Hc]. by eapply NoDup_addresses.
  - apply elem_of_addresses.
  - rewrite bytes_total by done. destruct Hwf as [lo Hc].
    symmetry. by eapply length_addresses.
Qed.

Lemma bytes_counts_the_addresses_witness :
  let v := [PhysMap.mkRegion 0 100; PhysMap.mkRegion 200 300] in
  NoDup (PhysQuery.addresses v) /\
  (forall x, x ∈ PhysQuery.addresses v <-> PhysMap.covers v x) /\
  PhysQuery.bytes v = Z.of_nat (length (PhysQuery.addresses v)).
Proof.
  intros v. apply bytes_counts_the_addresses.
  - exists 0. simpl. lia.
  - repeat apply List.Forall_cons; try apply List.Forall_nil;
      simpl; unfold UINTPTR_MAX, WORD; lia.
Defined.

Section PhysBaseMax.
Import PhysMap.

Lemma base_fold_stays v : forall b,
  b <> 0 -> Forall (fun r => b <= base r) v ->
  foldl (fun b reg =>
           let b := if b =? 0 then base reg else b in
           if base reg <? b then base reg else b) b v = b.
Proof.
  induction v as [|r v IH]; intros b Hb Hv; [done|].
  inversion Hv as [|?? Hr Hv']; subst. simpl.
  destruct (Z.eqb_spec b 0) as [?|_]; [done|].
  destruct (Z.ltb_spec (base r) b); [lia|]. by apply IH.
Qed.

Lemma chain_bases lo v : chain lo v -> Forall (fun r => lo <= base r) v.
Proof.
  intros Hc. apply Forall_forall. intros r Hr.
  by destruct (chain_lower _ _ _ Hc Hr).
Qed.

Lemma chain_last lo v l :
  chain lo v -> last v = Some l ->
  base l < end_ l /\ forall x, covers v x -> x < end_ l.
Proof.
  revert lo; induction v as [|r v IH]; intros lo Hc Hl; [done|].
  destruct Hc as (H1 & H2 & H3). destruct v as [|r' v'].
  - injection Hl as <-. split; [done|]. intros x Hx.
    apply covers_cons in Hx as [Hx|Hx]; [lia|by apply covers_nil in Hx].
  - change (last (r :: r' :: v')) with (last (r' :: v')) in Hl.
    destruct (IH _ H3 Hl) as [Hp Hub]. split; [done|].
    intros x Hx. apply covers_cons in Hx as [Hx|Hx]; [|by apply Hub].
    assert (Hl' : l ∈ r' :: v') by (by apply last_Some_elem_of).
    destruct (chain_lower _ _ _ H3 Hl'). lia.
Qed.

End PhysBaseMax.

(** X6: on a well-formed map [max()] is the end of the last region and
    lies above every address of the map.  [base()] is the base of the
    first region, the lowest address of the map, when that base is not
    0; when the first region starts at address 0 the loop takes the 0 it
    has stored for "nothing seen yet", and [base()] is the base of the
    second region (0 when there is none). *)
Theorem base_and_max_of_ordered_map
    (v : PhysMap.region_vector) (first final : PhysMap.region) :
  PhysMap.wf v -> head v = Some first -> last v = Some final ->
  PhysQuery.max v = PhysMap.end_ final /\
  (forall x, PhysMap.covers v x -> PhysMap.base first <= x < PhysQuery.max v) /\
  (PhysMap.base first <> 0 -> PhysQuery.base v = PhysMap.base first) /\
  (PhysMap.base first = 0 ->
   PhysQuery.base v = match v !! 1%nat with
                      | Some second => PhysMap.base second
                      | None => 0
                      end /\
   (PhysQuery.base v <> 0 -> PhysMap.covers v 0 /\ 0 < PhysQuery.base v)).
Proof.
  intros [lo Hc] Hh Hl. destruct v as [|r v]; [done|]. injection Hh as ->.
  pose proof (chain_last _ _ _ Hc Hl) as [_ Hub].
  pose proof Hc as (H1 & H2 & H3).
  unfold PhysQuery.max. rewrite Hl. split; [done|]. split; [|split].
  - intros x Hx. split; [|by apply Hub].
    eapply chain_covers_lower; [|exact Hx]. simpl. split; [lia|]. done.
  - intros Hnz. unfold PhysQuery.base. cbn [foldl]. rewrite Z.eqb_refl, Z.ltb_irrefl.
    apply base_fold_stays; [done|].
    eapply Forall_impl; [by apply chain_bases|]. simpl. intros; lia.
  - intros Hz. unfold PhysQuery.base. cbn [foldl]. rewrite Z.eqb_refl, Z.ltb_irrefl.
    rewrite Hz. destruct v as [|r2 v]; [done|].
    destruct H3 as (H4 & H5 & H6). cbn [foldl lookup list_lookup].
    rewrite Z.eqb_refl, Z.ltb_irrefl.
    rewrite base_fold_stays; [|lia|].
    + split; [done|]. intros _. split; [|lia].
      apply covers_cons. left. lia.
    + eapply Forall_impl; [by apply chain_bases|]. simpl. intros; lia.
Qed.

Lemma base_and_max_of_ordered_map_witness :
  let v := [PhysMap.mkRegion 0 100; PhysMap.mkRegion 200 300] in
  PhysQuery.max v = 300 /\
  (forall x, PhysMap.covers v x -> 0 <= x < PhysQuery.max v) /\
  PhysQuery.base v = 200 /\ PhysMap.covers v 0.
Proof.
  intros v.
  destruct (base_and_max_of_ordered_map v (PhysMap.mkRegion 0 100)
              (PhysMap.mkRegion 200 300)
              ltac:(exists 0; simpl; lia) eq_refl eq_refl)
    as (Hmax & Hin & _ & Hz).
  split; [exact Hmax|]. split; [exact Hin|].
  destruct (Hz eq_refl) as [Hb Hc]. split; [exact Hb|].
  apply Hc. by vm_compute.
Defined.

Section PhysBytesAfter.
Import PhysMap.

Lemma bytes_after_fold pa v : forall acc lo,
  0 <= acc <= lo -> chain lo v -> Forall (fun r => end_ r <= UINTPTR_MAX) v ->
  foldl (fun total reg =>
           if base reg >? pa then wrap64 (total + wrap64 (end_ reg - base reg))
           else if (base reg <=? pa) && (pa <=? end_ reg)
                then wrap64 (total + wrap64 (end_ reg - pa))
                else total) acc v
    = acc + foldr (fun reg n => PhysQuery.size_after pa reg + n) 0 v.
Proof.
  induction v as [|r v IH]; intros acc lo Hacc Hc Hr; simpl; [lia|].
  destruct Hc as (H1 & H2 & H3). inversion Hr as [|?? Hr1 Hr']; subst.
  unfold UINTPTR_MAX, WORD in Hr1. unfold PhysQuery.size_after at 1.
  rewrite Z.gtb_ltb.
  destruct (Z.ltb_spec pa (base r)).
  - rewrite (wrap64_small (end_ r - base r)) by (unfold WORD; lia).
    rewrite wrap64_small by (unfold WORD; lia).
    rewrite (IH _ (end_ r)); [lia|lia|done|done].
  - destruct (Z.leb_spec (base r) pa); [|lia]. cbn [andb].
    destruct (Z.leb_spec pa (end_ r)).
    + rewrite (wrap64_small (end_ r - pa)) by (unfold WORD; lia).
      rewrite wrap64_small by (unfold WORD; lia).
      rewrite (IH _ (end_ r)); [lia|lia|done|done].
    + rewrite (IH _ (end_ r)); [lia|lia|done|done].
Qed.

Lemma size_after_past pa lo v :
  pa < lo -> chain lo v ->
  foldr (fun reg n => PhysQuery.size_after pa reg + n) 0 v = PhysQuery.total_size v.
Proof.
  revert lo; induction v as [|r v IH]; intros lo Hpa Hc; [done|].
  destruct Hc as (H1 & H2 & H3). simpl. rewrite (IH (end_ r)) by (done || lia).
  unfold PhysQuery.size_after. rewrite Z.gtb_ltb.
  destruct (Z.ltb_spec pa (base r)); lia.
Qed.

(** Removing everything below [pa] leaves the bytes that [bytes_after]
    counts. *)
Lemma remove_below v : forall n lo pa,
  0 <= lo -> 0 <= pa -> chain lo v -> (2 * length v <= n)%nat ->
  exists v', remove_loop n v 0 pa = Some v' /\
    PhysQuery.total_size v' =
      foldr (fun reg n => PhysQuery.size_after pa reg + n) 0 v.
Proof.
  induction v as [|r v IH]; intros n lo pa Hlo Hpa Hc Hn.
  - exists []. split; [by destruct n|done].
  - pose proof Hc as (H1 & H2 & H3). simpl in Hn.
    destruct n as [|n]; [lia|]. rewrite remove_loop_step.
    destruct (Z.ltb_spec (base r) 0); [lia|]. cbn [andb].
    destruct (Z.leb_spec 0 (base r)); [|lia]. cbn [andb].
    destruct (Z.leb_spec (end_ r) pa) as [Hend|Hend].
    + (* the region lies below [pa] *)
      destruct (IH n (end_ r) pa) as (v' & -> & Ht); [lia|done|done|lia|].
      exists v'. split; [done|]. rewrite Ht. simpl.
      unfold PhysQuery.size_after. rewrite Z.gtb_ltb.
      destruct (Z.ltb_spec pa (base r)); [lia|].
      destruct (Z.leb_spec (base r) pa); [|lia].
      destruct (Z.leb_spec pa (end_ r)); simpl; lia.
    + (* [pa] lies below the end of the region: the rest is kept *)
      assert (Hrest : remove_loop n v 0 pa = Some v).
      { apply (remove_loop_past v n (end_ r)); [done|lia|done|lia]. }
      cbn [foldr]. rewrite (size_after_past pa (end_ r) v) by done.
      unfold PhysQuery.size_after. rewrite !Z.gtb_ltb.
      destruct (Z.ltb_spec (base r) pa).
      * rewrite Hrest. eexists. split; [reflexivity|].
        destruct (Z.ltb_spec pa (base r)); [lia|].
        destruct (Z.leb_spec (base r) pa); [|lia].
        destruct (Z.leb_spec pa (end_ r)); [|lia]. simpl. lia.
      * destruct (Z.ltb_spec 0 (end_ r)); [|lia].
        destruct (Z.geb_spec pa (end_ r)); [lia|]. cbn [andb].
        rewrite Hrest. eexists. split; [reflexivity|].
        destruct (Z.ltb_spec pa (base r)); [simpl; lia|].
        destruct (Z.leb_spec (base r) pa); [|lia].
        destruct (Z.leb_spec pa (end_ r)); [|lia]. simpl. lia.
Qed.

(** A well-formed vector whose addresses lie in the range of
    [uintptr_t] is made of such regions. *)
Lemma in_range_of_covers lo v :
  chain lo v -> 0 <= lo ->
  (forall x, covers v x -> x < UINTPTR_MAX) -> in_range v.
Proof.
  intros Hc Hlo Hub. apply Forall_forall. intros r Hr.
  destruct (chain_lower _ _ _ Hc Hr) as [H1 H2]. split; [lia|].
  assert (Hx : covers v (end_ r - 1)).
  { apply Exists_exists. exists r. split; [done|lia]. }
  apply Hub in Hx. lia.
Qed.

End PhysBytesAfter.

(** X7: on a well-formed map of [uintptr_t] regions, [bytes_after(start)]
    is what [bytes()] returns once everything below [start] has been
    taken out with [remove(0, start)] (as [initkalloc] does for the
    memory below [newend]): the bytes of the map at or after [start]. *)
Theorem bytes_after_is_bytes_of_the_rest
    (v2p : Z -> Z) (v : PhysMap.region_vector) (start : Z) :
  PhysMap.wf v -> PhysMap.in_range v -> 0 <= v2p start ->
  exists v', PhysMap.remove v 0 (v2p start) = Some v' /\
    (forall x, PhysMap.covers v' x <-> PhysMap.covers v x /\ v2p start <= x) /\
    PhysQuery.bytes_after v2p v start = PhysQuery.bytes v'.
Proof.
  intros Hwf Hr Hpa. pose proof (wf_in_range_chain v Hwf Hr) as Hc.
  destruct (remove_spec v 0 (v2p start) Hpa) as (v' & Hrun & Hcov & Hch).
  exists v'. split; [done|]. split.
  { intros x. rewrite Hcov. pose proof (in_range_covers v x Hr). intuition lia. }
  destruct (remove_below v (2 * length v) 0 (v2p start)) as (v1 & Hrun1 & Ht);
    [lia|done|done|lia|].
  unfold PhysMap.remove in Hrun. rewrite Hrun in Hrun1. injection Hrun1 as <-.
  rewrite bytes_total.
  - rewrite Ht. unfold PhysQuery.bytes_after.
    rewrite (bytes_after_fold _ v 0 0); [lia|lia|done|by apply in_range_ends].
  - exists 0. by apply Hch.
  - apply (in_range_of_covers 0); [by apply Hch|lia|].
    intros x Hx. apply Hcov in Hx as [Hx _].
    pose proof (in_range_covers v x Hr Hx). lia.
Qed.

Lemma bytes_after_is_bytes_of_the_rest_witness :
  let v := [PhysMap.mkRegion 0 100; PhysMap.mkRegion 200 300] in
  exists v', PhysMap.remove v 0 50 = Some v' /\
    (forall x, PhysMap.covers v' x <-> PhysMap.covers v x /\ 50 <= x) /\
    PhysQuery.bytes_after (fun a => a) v 50 = PhysQuery.bytes v'.
Proof.
  intros v. apply (bytes_after_is_bytes_of_the_rest (fun a => a) v 50).
  - exists 0. simpl. lia.
  - repeat apply List.Forall_cons; try apply List.Forall_nil;
      simpl; unfold UINTPTR_MAX, WORD; lia.
  - lia.
Defined.

Section PhysAccounting.
Import PhysMap.

Lemma length_le_of_incl (l k : list Z) :
  NoDup l -> (forall x, x ∈ l -> x ∈ k) -> (length l <= length k)%nat.
Proof. intros Hnd Hin. apply submseteq_length. by apply NoDup_submseteq. Qed.

Lemma length_eq_of_same (l k : list Z) :
  NoDup l -> NoDup k -> (forall x, x ∈ l <-> x ∈ k) -> length l = length k.
Proof. intros Hl Hk Hin. apply Permutation_length. by apply NoDup_Permutation. Qed.

Lemma bytes_length v :
  wf v -> in_range v -> PhysQuery.bytes v = Z.of_nat (length (PhysQuery.addresses v)).
Proof.
  intros Hwf Hr. rewrite bytes_total by done. destruct Hwf as [lo Hc].
  symmetry. by eapply length_addresses.
Qed.

Lemma wf_NoDup v : wf v -> NoDup (PhysQuery.addresses v).
Proof. intros [lo Hc]. by eapply NoDup_addresses. Qed.

Lemma add_in_range v b e :
  wf v -> in_range v -> 0 <= b < e -> e <= UINTPTR_MAX -> in_range (add v b e).
Proof.
  intros Hwf Hr Hb He. pose proof (wf_in_range_chain v Hwf Hr) as Hc.
  apply (in_range_of_covers (Z.min 0 b)); [by apply add_rec_chain; [|lia|]|lia|].
  intros x Hx. unfold add in Hx. rewrite add_rec_covers in Hx by done.
  destruct Hx as [Hx|Hx]; [|lia].
  pose proof (in_range_covers v x Hr Hx). lia.
Qed.

Lemma remove_in_range v b e v' :
  wf v -> in_range v -> b <= e -> remove v b e = Some v' -> wf v' /\ in_range v'.
Proof.
  intros Hwf Hr Hbe Hrun. pose proof (wf_in_range_chain v Hwf Hr) as Hc.
  destruct (remove_spec v b e Hbe) as (v1 & Hrun1 & Hcov & Hch).
  rewrite Hrun in Hrun1. injection Hrun1 as <-.
  split; [exists 0; by apply Hch|].
  apply (in_range_of_covers 0); [by apply Hch|lia|].
  intros x Hx. apply Hcov in Hx as [Hx _].
  pose proof (in_range_covers v x Hr Hx). lia.
Qed.

End PhysAccounting.

(** X8: on a well-formed map of [uintptr_t] regions, [add(base, end)]
    raises [bytes()] by at most the size of the range, never lowers it,
    and raises it by exactly [end - base] when no byte of the range was
    in the map. *)
Theorem add_raises_bytes_by_the_new_bytes (v : PhysMap.region_vector) (b e : Z) :
  PhysMap.wf v -> PhysMap.in_range v -> 0 <= b < e -> e <= UINTPTR_MAX ->
  PhysQuery.bytes v <= PhysQuery.bytes (PhysMap.add v b e) <=
    PhysQuery.bytes v + (e - b) /\
  ((forall x, b <= x < e -> ~ PhysMap.covers v x) ->
   PhysQuery.bytes (PhysMap.add v b e) = PhysQuery.bytes v + (e - b)).
Proof.
  intros Hwf Hr Hb He.
  pose proof (add_wf v b e ltac:(lia) Hwf) as Hwf'.
  pose proof (add_in_range v b e Hwf Hr Hb He) as Hr'.
  rewrite !bytes_length by done.
  pose proof (wf_NoDup _ Hwf) as Hnd. pose proof (wf_NoDup _ Hwf') as Hnd'.
  assert (Hin : forall x, x ∈ PhysQuery.addresses (PhysMap.add v b e) <->
                          x ∈ PhysQuery.addresses v ++ seqZ b (e - b)).
  { intros x. rewrite elem_of_app, !elem_of_addresses, elem_of_seqZ.
    unfold PhysMap.add. rewrite add_rec_covers by done. intuition lia. }
  split; [split|].
  - apply inj_le, length_le_of_incl; [done|].
    intros x Hx. apply Hin, elem_of_app. by left.
  - pose proof (length_le_of_incl _ _ Hnd' (fun x => proj1 (Hin x))) as Hle.
    rewrite length_app, length_seqZ in Hle. lia.
  - intros Hnew.
    rewrite (length_eq_of_same _ (PhysQuery.addresses v ++ seqZ b (e - b)));
      [|done| |done].
    + rewrite length_app, length_seqZ. lia.
    + apply NoDup_app. split; [done|]. split; [|apply NoDup_seqZ].
      intros x Hx Hx'. apply elem_of_addresses in Hx. apply elem_of_seqZ in Hx'.
      apply (Hnew x); [lia|done].
Qed.

Lemma add_raises_bytes_by_the_new_bytes_witness :
  let v := [PhysMap.mkRegion 0 100; PhysMap.mkRegion 200 300] in
  PhysQuery.bytes v <= PhysQuery.bytes (PhysMap.add v 50 150) <=
    PhysQuery.bytes v + (150 - 50).
Proof.
  intros v. apply (add_raises_bytes_by_the_new_bytes v 50 150).
  - exists 0. simpl. lia.
  - repeat apply List.Forall_cons; try apply List.Forall_nil;
      simpl; unfold UINTPTR_MAX, WORD; lia.
  - lia.
  - unfold UINTPTR_MAX, WORD. lia.
Defined.

(** X9: on a well-formed map of [uintptr_t] regions, [remove(base, end)]
    with [base <= end] lowers [bytes()] by at most the size of the
    range, never raises it, and lowers it by exactly [end - base] when
    every byte of the range was in the map. *)
Theorem remove_lowers_bytes_by_the_bytes_taken (v : PhysMap.region_vector) (b e : Z) :
  PhysMap.wf v -> PhysMap.in_range v -> b <= e ->
  exists v', PhysMap.remove v b e = Some v' /\
    PhysQuery.bytes v - (e - b) <= PhysQuery.bytes v' <= PhysQuery.bytes v /\
    ((forall x, b <= x < e -> PhysMap.covers v x) ->
     PhysQuery.bytes v' = PhysQuery.bytes v - (e - b)).
Proof.
  intros Hwf Hr Hbe.
  destruct (remove_spec v b e Hbe) as (v' & Hrun & Hcov & _).
  destruct (remove_in_range v b e v' Hwf Hr Hbe Hrun) as [Hwf' Hr'].
  exists v'. split; [done|]. rewrite !bytes_length by done.
  pose proof (wf_NoDup _ Hwf) as Hnd. pose proof (wf_NoDup _ Hwf') as Hnd'.
  assert (Hin : forall x, x ∈ PhysQuery.addresses v ->
                          x ∈ PhysQuery.addresses v' ++ seqZ b (e - b)).
  { intros x. rewrite elem_of_app, !elem_of_addresses, elem_of_seqZ, Hcov.
    intros Hx. destruct (decide (b <= x < e)); [right; lia|by left]. }
  assert (Hnd2 : NoDup (PhysQuery.addresses v' ++ seqZ b (e - b))).
  { apply NoDup_app. split; [done|]. split; [|apply NoDup_seqZ].
    intros x Hx Hx'. apply elem_of_addresses, Hcov in Hx as [_ Hx].
    apply elem_of_seqZ in Hx'. apply Hx. lia. }
  split; [split|].
  - pose proof (length_le_of_incl _ _ Hnd Hin) as Hle.
    rewrite length_app, length_seqZ in Hle. lia.
  - apply inj_le, length_le_of_incl; [done|].
    intros x Hx. apply elem_of_addresses. apply elem_of_addresses, Hcov in Hx. tauto.
  - intros Hall.
    rewrite (length_eq_of_same (PhysQuery.addresses v)
               (PhysQuery.addresses v' ++ seqZ b (e - b))); [|done|done|].
    + rewrite length_app, length_seqZ. lia.
    + intros x. split; [apply Hin|].
      rewrite elem_of_app, !elem_of_addresses, elem_of_seqZ, Hcov.
      intros [[Hx _]|Hx]; [done|]. apply Hall. lia.
Qed.

Lemma remove_lowers_bytes_by_the_bytes_taken_witness :
  let v := [PhysMap.mkRegion 0 100; PhysMap.mkRegion 200 300] in
  exists v', PhysMap.remove v 50 250 = Some v' /\
    PhysQuery.bytes v - (250 - 50) <= PhysQuery.bytes v' <= PhysQuery.bytes v.
Proof.
  intros v.
  destruct (remove_lowers_bytes_by_the_bytes_taken v 50 250
              ltac:(exists 0; simpl; lia)
              ltac:(repeat apply List.Forall_cons; try apply List.Forall_nil;
                    simpl; unfold UINTPTR_MAX, WORD; lia)
              ltac:(lia)) as (v' & Hrun & Hb & _).
  exists v'. split; [exact Hrun|exact Hb].
Defined.

(** * Boot *)

Section ParseMbMap.
Import PhysMap Boot.

Lemma entry_end mbmem :
  entry_ok mbmem ->
  wrap64 (Mbmem.base mbmem + Mbmem.length mbmem)
    = Mbmem.base mbmem + Mbmem.length mbmem.
Proof. intros (H1 & H2 & H3 & _). apply wrap64_small. lia. Qed.

Lemma add_usable_spec entries : forall mem,
  Forall entry_ok entries -> wf mem ->
  wf (foldl (fun mem mbmem =>
               if Mbmem.type mbmem =? 1
               then add mem (Mbmem.base mbmem)
                      (wrap64 (Mbmem.base mbmem + Mbmem.length mbmem))
               else mem) mem entries) /\
  forall x,
    covers (foldl (fun mem mbmem =>
               if Mbmem.type mbmem =? 1
               then add mem (Mbmem.base mbmem)
                      (wrap64 (Mbmem.base mbmem + Mbmem.length mbmem))
               else mem) mem entries) x <->
    covers mem x \/
    exists mbmem, mbmem ∈ entries /\ Mbmem.type mbmem = 1 /\ within mbmem x.
Proof.
  induction entries as [|m entries IH]; intros mem Hok Hwf.
  - split; [done|]. intros x. split; [by left|].
    intros [?|(m & Hm & _)]; [done|inversion Hm].
  - inversion Hok as [|?? Hm Hok']; subst. cbn [foldl].
    destruct (Z.eqb_spec (Mbmem.type m) 1) as [Ht|Ht].
    + rewrite (entry_end m Hm).
      destruct (IH (add mem (Mbmem.base m) (Mbmem.base m + Mbmem.length m)) Hok')
        as [Hwf' Hcov].
      { apply add_wf; [|done]. destruct Hm as (_ & _ & _ & Hlen). specialize (Hlen Ht). lia. }
      split; [done|]. intros x. rewrite Hcov. unfold add. rewrite add_rec_covers by done.
      split.
      * intros [[?|?]|(m' & Hin & ? & ?)]; [by left| |].
        -- right. exists m. split; [left|done].
        -- right. exists m'. split; [by right|done].
      * intros [?|(m' & Hin & Ht' & Hx)]; [by left; left|].
        apply elem_of_cons in Hin as [->|Hin]; [by left; right|].
        right. by exists m'.
    + destruct (IH mem Hok' Hwf) as [Hwf' Hcov]. split; [done|].
      intros x. rewrite Hcov. split.
      * intros [?|(m' & Hin & ? & ?)]; [by left|].
        right. exists m'. split; [by right|done].
      * intros [?|(m' & Hin & Ht' & Hx)]; [by left|].
        apply elem_of_cons in Hin as [->|Hin]; [done|].
        right. by exists m'.
Qed.

Lemma remove_reserved_spec entries : forall mem,
  Forall entry_ok entries ->
  exists mem',
    foldl (fun mem mbmem =>
             mem ← mem;
             if negb (Mbmem.type mbmem =? 1)
             then remove mem (Mbmem.base mbmem)
                    (wrap64 (Mbmem.base mbmem + Mbmem.length mbmem))
             else Some mem) (Some mem) entries = Some mem' /\
    (forall lo, chain lo mem -> chain lo mem') /\
    forall x, covers mem' x <->
      covers mem x /\
      ~ exists mbmem, mbmem ∈ entries /\ Mbmem.type mbmem <> 1 /\ within mbmem x.
Proof.
  induction entries as [|m entries IH]; intros mem Hok.
  - exists mem. split; [done|]. split; [done|]. intros x. split; [|tauto].
    intros Hx. split; [done|]. intros (m & Hm & _). inversion Hm.
  - inversion Hok as [|?? Hm Hok']; subst. cbn [foldl mbind option_bind].
    destruct (Z.eqb_spec (Mbmem.type m) 1) as [Ht|Ht]; cbn [negb].
    + destruct (IH mem Hok') as (mem' & Hrun & Hch & Hcov).
      exists mem'. split; [done|]. split; [done|].
      intros x. rewrite Hcov. split.
      * intros [Hx Hno]. split; [done|]. intros (m' & Hin & Ht' & Hw). apply Hno.
        apply elem_of_cons in Hin as [->|Hin]; [done|]. by exists m'.
      * intros [Hx Hno]. split; [done|]. intros (m' & Hin & Ht' & Hw). apply Hno.
        exists m'. split; [by right|done].
    + rewrite (entry_end m Hm).
      destruct (remove_spec mem (Mbmem.base m) (Mbmem.base m + Mbmem.length m))
        as (mem1 & -> & Hcov1 & Hch1).
      { destruct Hm as (_ & ? & _). lia. }
      destruct (IH mem1 Hok') as (mem' & Hrun & Hch & Hcov).
      exists mem'. split; [done|]. split; [by auto|].
      intros x. rewrite Hcov, Hcov1. split.
      * intros [[Hx Hno1] Hno]. split; [done|]. intros (m' & Hin & Ht' & Hw).
        apply elem_of_cons in Hin as [->|Hin]; [by apply Hno1|].
        apply Hno. by exists m'.
      * intros [Hx Hno]. split; [split; [done|]|].
        -- intros Hw. apply Hno. exists m. split; [left|done].
        -- intros (m' & Hin & Ht' & Hw). apply Hno.
           exists m'. split; [by right|done].
Qed.

End ParseMbMap.

(** X10: [parse_mb_map] cleans up a multiboot memory map whose entries
    may come in any order and overlap: when the header has its
    memory-map flag (bit 6) and no entry wraps around the address space,
    the usable entries being non-empty, the map it leaves is ordered and
    disjoint and holds exactly the bytes that were in the map or lie in
    some usable (type 1) entry, and lie in no entry of another type.
    Without the flag it panics. *)
Theorem parse_mb_map_keeps_usable_minus_reserved
    (flags : Z) (entries : list Mbmem.t) (mem : PhysMap.region_vector) :
  Forall Boot.entry_ok entries -> PhysMap.wf mem ->
  (Z.testbit flags 6 = false ->
   Boot.parse_mb_map flags entries mem = Boot.PanicNoMemoryMap) /\
  (Z.testbit flags 6 = true ->
   exists mem', Boot.parse_mb_map flags entries mem = Boot.Parsed mem' /\
     PhysMap.wf mem' /\
     forall x, PhysMap.covers mem' x <->
       (PhysMap.covers mem x \/
        exists mbmem, mbmem ∈ entries /\ Mbmem.type mbmem = 1 /\ Boot.within mbmem x) /\
       ~ exists mbmem, mbmem ∈ entries /\ Mbmem.type mbmem <> 1 /\ Boot.within mbmem x).
Proof.
  intros Hok Hwf.
  assert (Hflag : (Z.land flags (Z.shiftl 1 6) =? 0) = negb (Z.testbit flags 6)).
  { change (Z.shiftl 1 6) with (2 ^ 6).
    destruct (Z.eqb_spec (Z.land flags (2 ^ 6)) 0) as [Hz|Hnz].
    - destruct (Z.testbit flags 6) eqn:Hbit; [|done].
      exfalso. assert (Hb : Z.testbit (Z.land flags (2 ^ 6)) 6 = true).
      { by rewrite Z.land_spec, Hbit, Z.pow2_bits_true. }
      rewrite Hz in Hb. by rewrite Z.bits_0 in Hb.
    - destruct (Z.testbit flags 6) eqn:Hbit; [done|].
      exfalso. apply Hnz. apply Z.bits_inj'. intros n Hn.
      rewrite Z.land_spec, Z.bits_0.
      destruct (Z.eq_dec n 6) as [->|Hne]; [by rewrite Hbit|].
      rewrite Z.pow2_bits_false by lia. apply andb_false_r. }
  unfold Boot.parse_mb_map. rewrite Hflag. split; intros Hbit; rewrite Hbit; [done|].
  cbn [negb].
  destruct (add_usable_spec entries mem Hok Hwf) as [Hwf1 Hcov1].
  destruct (remove_reserved_spec entries
              (foldl (fun mem mbmem =>
                 if Mbmem.type mbmem =? 1
                 then PhysMap.add mem (Mbmem.base mbmem)
                        (wrap64 (Mbmem.base mbmem + Mbmem.length mbmem))
                 else mem) mem entries) Hok) as (mem' & -> & Hch & Hcov).
  exists mem'. split; [done|]. split.
  - destruct Hwf1 as [lo Hc]. exists lo. by apply Hch.
  - intros x. rewrite Hcov, Hcov1. done.
Qed.

Lemma parse_mb_map_keeps_usable_minus_reserved_witness :
  let entries := [Mbmem.mk 20 0x100000 0x7000000 1; Mbmem.mk 20 0 0x9fc00 1;
                  Mbmem.mk 20 0x9fc00 0x400 2; Mbmem.mk 20 0x200000 0x1000 2] in
  exists mem', Boot.parse_mb_map 0x47 entries [] = Boot.Parsed mem' /\
    PhysMap.wf mem' /\
    forall x, PhysMap.covers mem' x <->
      (PhysMap.covers [] x \/
       exists mbmem, mbmem ∈ entries /\ Mbmem.type mbmem = 1 /\ Boot.within mbmem x) /\
      ~ exists mbmem, mbmem ∈ entries /\ Mbmem.type mbmem <> 1 /\ Boot.within mbmem x.
Proof.
  intros entries.
  apply (proj2 (parse_mb_map_keeps_usable_minus_reserved 0x47 entries []
                  ltac:(repeat apply List.Forall_cons; try apply List.Forall_nil;
                        unfold Boot.entry_ok, WORD; simpl; lia)
                  ltac:(exists 0; exact I))).
  reflexivity.
Defined.

Section CpuRange.
Local Open Scope nat_scope.

(** The share of [i] CPUs out of [ncpus] in [nb] buddies. *)
Lemma share_le nb ncpus i : i <= ncpus -> ncpus <> 0 -> i * nb / ncpus <= nb.
Proof.
  intros Hi Hn. apply Nat.Div0.div_le_upper_bound. nia.
Qed.

Lemma share_lt nb ncpus i : i < ncpus -> 0 < nb -> i * nb / ncpus < nb.
Proof.
  intros Hi Hn. apply Nat.Div0.div_lt_upper_bound. nia.
Qed.

Lemma share_mono nb ncpus i j : i <= j -> i * nb / ncpus <= j * nb / ncpus.
Proof. intros Hij. apply Nat.Div0.div_le_mono. nia. Qed.

Lemma share_full nb ncpus : ncpus <> 0 -> ncpus * nb / ncpus = nb.
Proof. intros Hn. rewrite Nat.mul_comm. by apply Nat.div_mul. Qed.

Lemma share_covers nb ncpus j : forall k,
  j < k * nb / ncpus ->
  exists i, i < k /\ i * nb / ncpus <= j < (i + 1) * nb / ncpus.
Proof.
  induction k as [|k IH]; intros Hj.
  - simpl in Hj. rewrite Nat.Div0.div_0_l in Hj. lia.
  - destruct (Nat.lt_ge_cases j (k * nb / ncpus)) as [Hlt|Hge].
    + destruct (IH Hlt) as (i & Hi & Hb). exists i. split; [lia|done].
    + exists k. split; [lia|]. rewrite Nat.add_1_r. lia.
Qed.

End CpuRange.

(** X11: in [initkalloc] every CPU of a node that has at least one buddy
    is given a non-empty range of the node's buddies (so the assertion
    holds), and every buddy of the node is in the range of one of the
    node's CPUs.  For a node with CPUs and no buddy the assertion
    fails. *)
Theorem cpu_range_shares_out_the_node (node_low node_buddies ncpus : nat) :
  (forall cpu_index, (cpu_index < ncpus)%nat -> (0 < node_buddies)%nat ->
     exists cpu_low cpu_high,
       Boot.cpu_range node_low node_buddies ncpus cpu_index = Some (cpu_low, cpu_high) /\
       (node_low <= cpu_low < cpu_high)%nat /\
       (cpu_high <= node_low + node_buddies)%nat) /\
  (forall buddy, (0 < ncpus)%nat ->
     (node_low <= buddy < node_low + node_buddies)%nat ->
     exists cpu_index cpu_low cpu_high, (cpu_index < ncpus)%nat /\
       Boot.cpu_range node_low node_buddies ncpus cpu_index = Some (cpu_low, cpu_high) /\
       (cpu_low <= buddy < cpu_high)%nat) /\
  (forall cpu_index, node_buddies = 0%nat ->
     Boot.cpu_range node_low node_buddies ncpus cpu_index = None).
Proof.
  split; [|split].
  - intros i Hi Hnb. unfold Boot.cpu_range.
    pose proof (share_lt node_buddies ncpus i Hi Hnb) as Hlt.
    pose proof (share_le node_buddies ncpus (i + 1) ltac:(lia) ltac:(lia)) as Hle.
    pose proof (share_mono node_buddies ncpus i (i + 1) ltac:(lia)) as Hmono.
    destruct (Nat.eqb_spec (node_low + i * node_buddies / ncpus)
                (node_low + (i + 1) * node_buddies / ncpus)) as [Heq|Hne].
    + destruct (Nat.leb_spec (S (node_low + (i + 1) * node_buddies / ncpus))
                  (node_low + node_buddies)); [|lia].
      eexists _, _. split; [reflexivity|]. lia.
    + destruct (Nat.leb_spec (node_low + (i + 1) * node_buddies / ncpus)
                  (node_low + node_buddies)); [|lia].
      eexists _, _. split; [reflexivity|]. lia.
  - intros buddy Hn Hb.
    destruct (share_covers node_buddies ncpus (buddy - node_low) ncpus)
      as (i & Hi & Hlo & Hhi).
    { rewrite share_full by lia. lia. }
    pose proof (share_le node_buddies ncpus (i + 1) ltac:(lia) ltac:(lia)) as Hle.
    exists i. unfold Boot.cpu_range.
    destruct (Nat.eqb_spec (node_low + i * node_buddies / ncpus)
                (node_low + (i + 1) * node_buddies / ncpus)) as [Heq|Hne]; [lia|].
    destruct (Nat.leb_spec (node_low + (i + 1) * node_buddies / ncpus)
                (node_low + node_buddies)); [|lia].
    eexists _, _. split; [done|]. split; [reflexivity|]. lia.
  - intros i ->. unfold Boot.cpu_range.
    rewrite !Nat.mul_0_r, Nat.Div0.div_0_l, Nat.eqb_refl.
    destruct (Nat.leb_spec (S (node_low + 0)) (node_low + 0)); [lia|done].
Qed.

Lemma cpu_range_shares_out_the_node_witness :
  exists cpu_low cpu_high,
    Boot.cpu_range 4 3 8 5 = Some (cpu_low, cpu_high) /\
    (4 <= cpu_low < cpu_high)%nat /\ (cpu_high <= 4 + 3)%nat.
Proof.
  apply (proj1 (cpu_range_shares_out_the_node 4 3 8)); lia.
Defined.

Section StealOrderDepth.
Import StealOrder.
Local Open Scope nat_scope.

(** A run of [add] that ends within some nesting depth gives the same
    vector within any larger one. *)
Lemma add_loop_mono (nested nested' : segment_vector -> nat -> nat -> option segment_vector)
    count : forall i segments_ lo hi r,
  (forall segs l h segs', nested segs l h = Some segs' -> nested' segs l h = Some segs') ->
  add_loop nested count i segments_ lo hi = Some r ->
  add_loop nested' count i segments_ lo hi = Some r.
Proof.
  induction count as [|count IH]; intros i segments_ lo hi r Hn Hrun; [done|].
  cbn [add_loop] in *.
  destruct (segments_ !! i) as [seg|]; [|done]. cbn [mbind option_bind] in *.
  destruct (_ && _); [done|].
  destruct (_ && _).
  { destruct (nested segments_ (high seg) hi) as [segs1|] eqn:Hnested; [|done].
    rewrite (Hn _ _ _ _ Hnested). cbn [mbind option_bind] in *.
    destruct (segs1 !! i) as [seg'|]; [|done]. cbn [mbind option_bind] in *.
    by apply IH. }
  destruct (_ && _); [by apply IH|].
  destruct (_ && _); by apply IH.
Qed.

Lemma add_depth_mono d : forall d' segments_ lo hi segments_',
  d <= d' ->
  add_depth d segments_ lo hi = Some segments_' ->
  add_depth d' segments_ lo hi = Some segments_'.
Proof.
  induction d as [|d IH]; intros d' segments_ lo hi segments_' Hd Hrun; [done|].
  destruct d' as [|d']; [lia|]. cbn [add_depth] in *.
  destruct (add_loop (add_depth d) _ _ _ _ _) as [r|] eqn:Hloop; [|done].
  rewrite (add_loop_mono (add_depth d) (add_depth d') _ _ _ _ _ r); [done| |done].
  intros segs l h segs' Hs. apply (IH d'); [lia|done].
Qed.

End StealOrderDepth.

Section BootStealOrder.
Import StealOrder.
Local Open Scope nat_scope.

(** Deciding the comparisons of [add] from the order of the bounds. *)
Ltac decide_nat :=
  match goal with
  | |- context [Nat.eqb ?a ?b] =>
      let E := fresh in
      destruct (Nat.eqb_spec a b) as [E|E]; try (exfalso; lia); clear E
  | |- context [Nat.ltb ?a ?b] =>
      let E := fresh in
      destruct (Nat.ltb_spec a b) as [E|E]; try (exfalso; lia); clear E
  | |- context [Nat.leb ?a ?b] =>
      let E := fresh in
      destruct (Nat.leb_spec a b) as [E|E]; try (exfalso; lia); clear E
  end.

Ltac unfold_add :=
  unfold add_tail, set_back;
  cbn [add_depth add_loop length lookup list_lookup mbind option_bind
       alter list_alter last pred low high andb app].

Ltac eval_add := unfold_add; repeat (decide_nat; unfold_add).

(** One call of [add] on a vector of known shape, within nesting
    depth 2. *)
Ltac step_add :=
  match goal with
  | |- context [add ?s ?l ?h] =>
      let H := fresh "Hadd" in
      let X := fresh "X" in
      evar (X : segment_vector);
      assert (H : add_depth 2 s l h = Some X) by (subst X; eval_add; reflexivity);
      change (add s l h) with (add_depth (S (h - l)) s l h);
      rewrite (add_depth_mono 2 (S (h - l)) s l h X ltac:(lia) H);
      subst X; clear H; cbn [mbind option_bind]
  end.

Lemma boot_steal_order cl ch nl nh n :
  nl <= cl -> cl < ch -> ch <= nh -> nh <= n ->
  exists segments_ rest,
    build [] [(cl, ch); (nl, nh); (0, n)] = Some segments_ /\
    length segments_ <= 5 /\
    Forall (fun s => low s < high s) segments_ /\
    segments_ = mkSegment cl ch :: rest /\
    NoDup (indices_of segments_) /\
    forall i, i ∈ indices_of segments_ <-> i < n.
Proof.
  intros H1 H2 H3 H4. cbn [build]. rewrite add_first by done.
  cbn [mbind option_bind].
  destruct (Nat.eq_dec nl cl) as [E1|E1];
  destruct (Nat.eq_dec ch nh) as [E2|E2];
  destruct (Nat.eq_dec nh n) as [E3|E3];
  destruct (Nat.eq_dec 0 nl) as [E4|E4];
  subst.
  all: step_add; step_add.
  all: eexists _, _; split; [reflexivity|].
  all: split; [simpl; lia|].
  all: split; [repeat constructor; simpl; lia|].
  all: split; [reflexivity|].
  all: unfold indices_of; cbn [map concat low high].
  all: rewrite ?app_nil_r.
  all: split;
    [ rewrite ?NoDup_app; repeat split; try apply NoDup_seq;
      intros i; rewrite ?elem_of_app, ?elem_of_seq; lia
    | intros i; rewrite ?elem_of_app, ?elem_of_seq; lia ].
Qed.

End BootStealOrder.

(** X12: the steal order [initkalloc] builds for a CPU -- the CPU's own
    buddies, then the buddies of its node, then all buddies -- fits the
    five segments of the vector, has the CPU's own buddies as its local
    range, and iterating over it ends and yields every buddy of the
    machine exactly once, the CPU's own buddies first. *)
Theorem initkalloc_steal_order_visits_each_buddy_once
    (cpu_low cpu_high node_low node_buddies total : nat) :
  (node_low <= cpu_low)%nat -> (cpu_low < cpu_high)%nat ->
  (cpu_high <= node_low + node_buddies)%nat ->
  (node_low + node_buddies <= total)%nat ->
  exists segments_ order,
    Boot.cpu_steal_order cpu_low cpu_high node_low node_buddies total = Some segments_ /\
    (length segments_ <= 5)%nat /\
    StealOrder.get_local segments_ = Some (StealOrder.mkSegment cpu_low cpu_high) /\
    StealOrder.iterate segments_ = Some order /\
    NoDup order /\
    (forall i, i ∈ order <-> (i < total)%nat) /\
    take (cpu_high - cpu_low) order = seq cpu_low (cpu_high - cpu_low).
Proof.
  intros H1 H2 H3 H4.
  destruct (boot_steal_order cpu_low cpu_high node_low (node_low + node_buddies)
              total H1 H2 H3 H4)
    as (segments_ & rest & Hrun & Hlen & Hne & -> & Hnd & Hin).
  eexists _, _. split; [exact Hrun|]. split; [done|]. split; [done|].
  split; [by apply iterate_segments|]. split; [done|]. split; [done|].
  unfold StealOrder.indices_of. cbn [map concat StealOrder.low StealOrder.high].
  rewrite take_app_length'; [done|]. by rewrite length_seq.
Qed.

Lemma initkalloc_steal_order_visits_each_buddy_once_witness :
  exists segments_ order,
    Boot.cpu_steal_order 5 6 4 3 12 = Some segments_ /\
    (length segments_ <= 5)%nat /\
    StealOrder.get_local segments_ = Some (StealOrder.mkSegment 5 6) /\
    StealOrder.iterate segments_ = Some order /\
    NoDup order /\
    (forall i, i ∈ order <-> (i < 12)%nat) /\
    take (6 - 5) order = seq 5 (6 - 5).
Proof.
  apply initkalloc_steal_order_visits_each_buddy_once; lia.
Defined.

Section StealOrderTermination.
Import StealOrder.
Local Open Scope nat_scope.

Import StealInv.







End StealOrderTermination.



(** * More on the page allocator front end *)

Section HotCacheRoundTrip.
Import StealOrder Kalloc KallocTrace.
Context `{Platform}.

(** X14: a page freed with [kfree] while the hot cache has room is the
    page the next [kalloc] of a page on that CPU returns; the two calls
    touch no buddy allocator and take no lock, they only count one page
    free and one page allocation, and leave the cache holding what it
    held. *)
Theorem kfree_then_kalloc_returns_the_page
    (c : nat) (v : Z) (st : kstate) (mem : cpu_mem) :
  kinited st = true -> cpus st !! c = Some mem ->
  (nhot mem < KALLOC_HOT_PAGES)%nat ->
  length (hot_pages mem) = KALLOC_HOT_PAGES -> v <> 0 ->
  exists st1 st2 mem2,
    kfree c v PGSIZE st = Ok st1 /\
    kalloc c PGSIZE st1 = Ok (v, st2) /\
    buddies st2 = buddies st /\
    trace st2 = trace st ++ [Count kalloc_page_free_count; Count kalloc_page_alloc_count] /\
    cpus st2 !! c = Some mem2 /\ cached mem2 = cached mem /\
    forall c', c' <> c -> cpus st2 !! c' = cpus st !! c'.
Proof.
  intros Hinit Hc Hroom Hlen Hv.
  assert (Hclt : (c < length (cpus st))%nat) by (by eapply lookup_lt_Some).
  unfold kfree. rewrite Hc. run. rewrite Z.eqb_refl.
  destruct (Nat.eqb_spec (nhot mem) KALLOC_HOT_PAGES) as [?|_]; [lia|]. run.
  destruct (Nat.ltb_spec (nhot mem) KALLOC_HOT_PAGES) as [_|?]; [|lia].
  eexists _, _, _. split; [reflexivity|].
  unfold kalloc. run. rewrite Hinit. cbn [negb]. rewrite Z.eqb_refl.
  rewrite list_lookup_insert_eq by done. run.
  change (S (nhot mem) =? 0)%nat with false. run.
  rewrite list_lookup_insert_eq by lia. run.
  unfold finish. destruct (Z.eqb_spec v 0) as [?|_]; [done|].
  split; [reflexivity|]. run. split; [done|]. split.
  { by rewrite <- app_assoc. }
  split; [by rewrite list_lookup_insert_eq by (by rewrite length_insert)|].
  split.
  - unfold cached. run. by rewrite take_insert_ge by lia.
  - intros c' Hc'. by rewrite !list_lookup_insert_ne by done.
Qed.

End HotCacheRoundTrip.

Section GeneralPathFirst.
Import StealOrder Kalloc KallocTrace.
Context `{Platform}.

Lemma find_buddy_first indices bs v :
  Forall (fun i => (i < length bs)%nat) indices ->
  reachable indices bs v ->
  exists pre j post b,
    indices = pre ++ j :: post /\ bs !! j = Some b /\ buddy_contains b v = true /\
    (forall i b', i ∈ pre -> bs !! i = Some b' -> buddy_contains b' v = false) /\
    find_buddy indices bs v = Ok (Some j).
Proof.
  intros Hin (i & b & Hi & Hb & Hp).
  induction Hin as [|k indices Hk Hin IH]; [by apply elem_of_nil in Hi|].
  simpl. destruct (lookup_lt_is_Some_2 bs k Hk) as [bk Hbk]. rewrite Hbk. run.
  destruct (buddy_contains bk v) eqn:Hcont.
  - exists [], k, indices, bk. split; [done|]. split; [done|]. split; [done|].
    split; [|done]. intros ?? Hnil. inversion Hnil.
  - apply elem_of_cons in Hi as [->|Hi]; [congruence|].
    destruct (IH Hi) as (pre & j & post & bj & -> & Hbj & Hpj & Hpre & ->).
    exists (k :: pre), j, post, bj. split; [done|]. split; [done|]. split; [done|].
    split; [|done]. intros i' b' Hi' Hb'.
    apply elem_of_cons in Hi' as [->|Hi']; [congruence|by eapply Hpre].
Qed.

(** X15: [kfree] of a block of any size other than a page hands it to
    the first buddy in the CPU's steal order whose window contains it,
    under that buddy's lock and no other, and leaves the hot caches as
    they are. *)
Theorem kfree_block_goes_to_first_buddy_holding_it
    (c : nat) (v size : Z) (st : kstate) (mem : cpu_mem) (indices : list nat) :
  size <> PGSIZE ->
  cpus st !! c = Some mem -> iterate (steal mem) = Some indices ->
  Forall (fun i => (i < length (buddies st))%nat) indices ->
  reachable indices (buddies st) v ->
  exists pre j post b st',
    indices = pre ++ j :: post /\
    buddies st !! j = Some b /\ buddy_contains b v = true /\
    (forall i b', i ∈ pre -> buddies st !! i = Some b' -> buddy_contains b' v = false) /\
    kfree c v size st = Ok st' /\
    buddies st' = <[j := buddy_free b v size]> (buddies st) /\
    trace st' = trace st ++ [Acquire j; BuddyFree j v size] /\
    cpus st' = cpus st.
Proof.
  intros Hsize Hc Hit Hin Hreach.
  destruct (find_buddy_first indices (buddies st) v Hin Hreach)
    as (pre & j & post & b & Hsplit & Hb & Hcont & Hpre & Hfind).
  exists pre, j, post, b. eexists. split; [done|]. split; [done|]. split; [done|].
  split; [done|]. unfold kfree. rewrite Hc. run.
  destruct (Z.eqb_spec size PGSIZE) as [?|_]; [done|].
  rewrite Hit. run. rewrite Hfind. run. rewrite Hb. run.
  split; [reflexivity|]. done.
Qed.

Lemma general_loop_first size pre : forall j post bs tr bj,
  NoDup (pre ++ [j]) ->
  Forall (fun i => (i < length bs)%nat) pre ->
  (forall i b, i ∈ pre -> bs !! i = Some b -> (buddy_alloc_nothrow b size).1 = 0) ->
  bs !! j = Some bj -> (buddy_alloc_nothrow bj size).1 <> 0 ->
  exists bs' tr',
    general_loop (pre ++ j :: post) size bs tr
      = Ok ((buddy_alloc_nothrow bj size).1, bs', tr') /\
    acquired tr' = acquired tr ++ pre ++ [j] /\
    handed_out tr' = handed_out tr ++ [(buddy_alloc_nothrow bj size).1] /\
    bs' !! j = Some (buddy_alloc_nothrow bj size).2 /\
    forall k, k ∉ pre ++ [j] -> bs' !! k = bs !! k.
Proof.
  induction pre as [|i pre IH]; intros j post bs tr bj Hnd Hin Hpre Hbj Hres.
  - cbn [app general_loop]. rewrite Hbj. run.
    destruct (buddy_alloc_nothrow bj size) as [res bj'] eqn:Halloc. run.
    destruct (Z.eqb_spec res 0) as [?|Hnz]; [done|].
    eexists _, _. split; [reflexivity|]. split.
    { rewrite acquired_app. done. }
    split.
    { unfold handed_out. rewrite omap_app. simpl.
      destruct (Z.eqb_spec res 0); [done|done]. }
    split; [apply list_lookup_insert_eq; by eapply lookup_lt_Some|].
    intros k Hk. apply list_lookup_insert_ne. intros ->. apply Hk. left.
  - inversion Hin as [|?? Hi Hin']; subst.
    cbn [app] in Hnd. apply NoDup_cons in Hnd as [Hnotin Hnd].
    destruct (lookup_lt_is_Some_2 bs i Hi) as [b Hb].
    cbn [app general_loop]. rewrite Hb. run.
    pose proof (Hpre i b ltac:(left) Hb) as Hzero.
    destruct (buddy_alloc_nothrow b size) as [res b'] eqn:Halloc.
    simpl in Hzero. subst res. run. rewrite Z.eqb_refl.
    assert (Hij : i <> j).
    { intros ->. apply Hnotin, elem_of_app. right. left. }
    destruct (IH j post (<[i:=b']> bs) (tr ++ [Acquire i; BuddyAlloc i size 0]) bj Hnd)
      as (bs' & tr' & -> & Hacq & Hout & Hj & Hrest).
    + eapply Forall_impl; [exact Hin'|]. intros k Hk. by rewrite length_insert.
    + intros k bk Hk Hbk. rewrite list_lookup_insert_ne in Hbk.
      * apply (Hpre k bk); [by right|done].
      * intros ->. apply Hnotin, elem_of_app. by left.
    + by rewrite list_lookup_insert_ne.
    + done.
    + exists bs', tr'. split; [done|]. split.
      { rewrite Hacq, acquired_app. simpl. by rewrite <- app_assoc. }
      split.
      { rewrite Hout. unfold handed_out. rewrite omap_app. simpl.
        by rewrite app_nil_r. }
      split; [done|]. intros k Hk. rewrite Hrest.
      * apply list_lookup_insert_ne. intros ->. apply Hk. left.
      * intros Hk'. apply Hk. by right.
Qed.

(** X16: after initialization [kalloc] of a size other than a page asks
    the buddies in the CPU's steal order, each under its lock, and
    returns the block of the first buddy that hands one out; the buddies
    after it in the steal order are neither locked nor changed, and the
    hot caches stay as they are. *)
Theorem kalloc_block_comes_from_first_buddy_serving
    (c : nat) (size : Z) (st : kstate) (mem : cpu_mem)
    (pre post : list nat) (j : nat) (bj : buddy_allocator) :
  kinited st = true -> size <> PGSIZE ->
  cpus st !! c = Some mem -> iterate (steal mem) = Some (pre ++ j :: post) ->
  NoDup (pre ++ [j]) ->
  Forall (fun i => (i < length (buddies st))%nat) pre ->
  (forall i b, i ∈ pre -> buddies st !! i = Some b ->
     (buddy_alloc_nothrow b size).1 = 0) ->
  buddies st !! j = Some bj -> (buddy_alloc_nothrow bj size).1 <> 0 ->
  exists st',
    kalloc c size st = Ok ((buddy_alloc_nothrow bj size).1, st') /\
    acquired (trace st') = acquired (trace st) ++ pre ++ [j] /\
    handed_out (trace st') = handed_out (trace st) ++ [(buddy_alloc_nothrow bj size).1] /\
    buddies st' !! j = Some (buddy_alloc_nothrow bj size).2 /\
    (forall k, k ∉ pre ++ [j] -> buddies st' !! k = buddies st !! k) /\
    cpus st' = cpus st.
Proof.
  intros Hinit Hsize Hc Hit Hnd Hin Hpre Hbj Hres.
  unfold kalloc. rewrite Hinit. cbn [negb].
  destruct (Z.eqb_spec size PGSIZE) as [?|_]; [done|].
  unfold general. rewrite Hc. run. rewrite Hit. run.
  destruct (general_loop_first size pre j post (buddies st) (trace st) bj
              Hnd Hin Hpre Hbj Hres) as (bs' & tr' & -> & Hacq & Hout & Hj & Hrest).
  run. unfold finish.
  destruct (Z.eqb_spec (buddy_alloc_nothrow bj size).1 0) as [?|_]; [done|].
  eexists. split; [reflexivity|]. done.
Qed.

End GeneralPathFirst.

Section PagesInFlight.
Import StealOrder Kalloc KallocTrace.
Context `{Platform}.







End PagesInFlight.

Section KallocTotal.
Import StealOrder Kalloc KallocTrace.
Context `{Platform}.


End KallocTotal.

Section RefillPastTheEnd.
Import StealOrder Kalloc KallocTrace.
Context `{Platform}.


End RefillPastTheEnd.

(** * The load-balancing variant *)

Section MemoryPools.
Import Kalloc LoadBalance.
Context `{Platform}.

(** The binary search finds the partition point. *)
Lemma lower_bound_spec mempools v n fuel : forall first len,
  partitioned mempools v n ->
  (first <= n <= first + len)%nat -> (first + len <= length mempools)%nat ->
  (len <= fuel)%nat ->
  lower_bound fuel mempools first len v = Some n.
Proof.
  induction fuel as [|fuel IH]; intros first len Hpart Hn Hlen Hfuel.
  - destruct len; [|lia]. simpl. f_equal. lia.
  - destruct len as [|l]; [simpl; f_equal; lia|].
    cbn [lower_bound].
    assert (Hhalf : (S l / 2 <= l)%nat).
    { apply Nat.lt_succ_r. apply Nat.div_lt; lia. }
    destruct (lookup_lt_is_Some_2 mempools (first + S l / 2)) as [mp Hmp]; [lia|].
    rewrite Hmp. cbn [mbind option_bind]. destruct Hpart as [Hbelow Habove].
    unfold get_limit. destruct (Z.ltb_spec (lim_ mp) v) as [Hlt|Hge].
    + assert (first + S l / 2 < n)%nat.
      { destruct (Nat.lt_ge_cases (first + S l / 2) n) as [|Hle]; [done|].
        pose proof (Habove _ _ Hle Hmp). lia. }
      apply IH; [done|lia|lia|lia].
    + assert (n <= first + S l / 2)%nat.
      { destruct (Nat.lt_ge_cases (first + S l / 2) n) as [Hlt|]; [|done].
        pose proof (Hbelow _ _ Hlt Hmp). lia. }
      apply IH; [done|lia|lia|lia].
Qed.

Lemma pools_ordered_lookup lo mempools : forall i mp,
  pools_ordered lo mempools -> mempools !! i = Some mp ->
  lo <= base_ mp /\ base_ mp < lim_ mp.
Proof.
  revert lo; induction mempools as [|a mempools IH]; intros lo i mp Ho Hi; [done|].
  destruct Ho as (H1 & H2 & H3). destruct i as [|i].
  - injection Hi as <-. lia.
  - simpl in Hi. destruct (IH _ _ _ H3 Hi). lia.
Qed.

Lemma pools_ordered_lt lo mempools : forall i j mi mj,
  pools_ordered lo mempools -> (i < j)%nat ->
  mempools !! i = Some mi -> mempools !! j = Some mj -> lim_ mi <= base_ mj.
Proof.
  revert lo; induction mempools as [|a mempools IH]; intros lo i j mi mj Ho Hij Hi Hj;
    [done|].
  destruct Ho as (H1 & H2 & H3). destruct j as [|j]; [lia|]. simpl in Hj.
  destruct i as [|i].
  - injection Hi as <-. by destruct (pools_ordered_lookup _ _ _ _ H3 Hj).
  - simpl in Hi. eapply IH; [done| |done|done]. lia.
Qed.

(** X19: [kfree_pool] frees a block that the local pool contains to the
    local pool.  Any other block goes to the first pool whose limit is
    not below the pointer -- the pools being partitioned by that test,
    as the binary search requires: it panics when the pointer lies below
    the base of that pool, and reads the pool past the end of the vector
    when the pointer lies above every limit.  The test admits the limit
    itself: a pointer equal to the limit of a pool is freed to that
    pool, which does not contain it. *)
Theorem kfree_pool_frees_to_first_pool_not_below
    (mempools : list mempool) (pool n : nat) (local : mempool) (v size : Z)
    (bs : list buddy_allocator) (tr : list event) :
  mempools !! pool = Some local ->
  partitioned mempools v n -> (n <= length mempools)%nat ->
  kfree_pool mempools pool v size bs tr =
    if (base_ local <=? v) && (v <? lim_ local)
    then mempool_kfree local v size bs tr
    else match mempools !! n with
         | None => Failed Undefined
         | Some mp =>
             if v <? base_ mp then Failed PanicNotAllocated
             else mempool_kfree mp v size bs tr
         end.
Proof.
  intros Hlocal Hpart Hn. unfold kfree_pool. rewrite Hlocal. run.
  unfold get_base, get_limit.
  destruct ((base_ local <=? v) && (v <? lim_ local)); cbn [negb].
  - run. by rewrite Hlocal.
  - rewrite (lower_bound_spec mempools v n) by (done || lia). run.
    destruct (mempools !! n) as [mp|] eqn:Hmp; [|done]. run.
    destruct (v <? base_ mp); [done|]. run. by rewrite Hmp.
Qed.

(** With pools that lie one after the other, a block inside one of them
    is freed to some pool. *)
Lemma kfree_pool_in_pool (mempools : list mempool) (pool k : nat)
    (local mp : mempool) (lo v size : Z) (bs : list buddy_allocator) (tr : list event) :
  pools_ordered lo mempools ->
  mempools !! pool = Some local ->
  mempools !! k = Some mp -> base_ mp <= v < lim_ mp ->
  exists j mpj, mempools !! j = Some mpj /\
    kfree_pool mempools pool v size bs tr = mempool_kfree mpj v size bs tr.
Proof.
  intros Ho Hlocal Hk Hin.
  destruct ((base_ local <=? v) && (v <? lim_ local)) eqn:Htest.
  { exists pool, local. split; [done|].
    unfold kfree_pool. rewrite Hlocal. run. unfold get_base, get_limit.
    rewrite Htest. cbn [negb]. run. by rewrite Hlocal. }
  assert (Hat : forall n mp', partitioned mempools v n -> mempools !! n = Some mp' ->
            base_ mp' <= v ->
            kfree_pool mempools pool v size bs tr = mempool_kfree mp' v size bs tr).
  { intros n mp' Hpart Hn Hb. unfold kfree_pool. rewrite Hlocal. run.
    unfold get_base, get_limit. rewrite Htest. cbn [negb].
    rewrite (lower_bound_spec mempools v n);
      [|done|apply lookup_lt_Some in Hn; lia|lia|lia].
    run. rewrite Hn. run. destruct (Z.ltb_spec v (base_ mp')); [lia|]. run.
    by rewrite Hn. }
  assert (Habove : forall i mi, (k <= i)%nat -> mempools !! i = Some mi -> v <= lim_ mi).
  { intros i mi Hi Hmi. destruct (decide (i = k)) as [->|Hne].
    - rewrite Hk in Hmi. injection Hmi as <-. lia.
    - pose proof (pools_ordered_lt _ _ k i mp mi Ho ltac:(lia) Hk Hmi).
      pose proof (pools_ordered_lookup _ _ _ _ Ho Hmi). lia. }
  destruct k as [|k'].
  { exists 0%nat, mp. split; [done|]. apply (Hat 0%nat); [|done|lia].
    split; [intros; lia|done]. }
  destruct (lookup_lt_is_Some_2 mempools k') as [prev Hprev];
    [apply lookup_lt_Some in Hk; lia|].
  pose proof (pools_ordered_lt _ _ k' (S k') prev mp Ho ltac:(lia) Hprev Hk) as Hle.
  pose proof (pools_ordered_lookup _ _ _ _ Ho Hprev) as [_ Hp].
  assert (Hbelow : forall i mi, (i < k')%nat -> mempools !! i = Some mi -> lim_ mi < v).
  { intros i mi Hi Hmi.
    pose proof (pools_ordered_lt _ _ i k' mi prev Ho Hi Hmi Hprev). lia. }
  destruct (Z.eq_dec (lim_ prev) v) as [Hlim|Hlim].
  - exists k', prev. split; [done|]. apply (Hat k'); [|done|lia].
    split; [done|]. intros i mi Hi Hmi. destruct (decide (i = k')) as [->|Hne].
    + rewrite Hprev in Hmi. injection Hmi as <-. lia.
    + apply (Habove i); [lia|done].
  - exists (S k'), mp. split; [done|]. apply (Hat (S k')); [|done|lia].
    split; [|done]. intros i mi Hi Hmi. destruct (decide (i = k')) as [->|Hne].
    + rewrite Hprev in Hmi. injection Hmi as <-. lia.
    + pose proof (Hbelow i mi ltac:(lia) Hmi). lia.
Qed.

(** X20: with pools that lie one after the other, a block inside a
    remote pool is freed to that pool when the pointer is above the
    limits of the pools before it; but the first address of a pool that
    starts where the pool before it ends is freed to the pool before
    it. *)
Theorem kfree_pool_boundary_goes_to_lower_pool
    (mempools : list mempool) (pool k : nat) (local mp : mempool) (lo v size : Z)
    (bs : list buddy_allocator) (tr : list event) :
  pools_ordered lo mempools ->
  mempools !! pool = Some local -> ~ (base_ local <= v < lim_ local) ->
  mempools !! k = Some mp -> base_ mp <= v < lim_ mp ->
  (forall prev, mempools !! pred k = Some prev -> (0 < k)%nat ->
     lim_ prev < base_ mp \/ base_ mp < v ->
     kfree_pool mempools pool v size bs tr = mempool_kfree mp v size bs tr) /\
  ((k = 0)%nat ->
     kfree_pool mempools pool v size bs tr = mempool_kfree mp v size bs tr) /\
  (forall prev, mempools !! pred k = Some prev -> (0 < k)%nat ->
     lim_ prev = v ->
     kfree_pool mempools pool v size bs tr = mempool_kfree prev v size bs tr /\
     ~ (base_ prev <= v < lim_ prev)).
Proof.
  intros Ho Hlocal Hout Hk Hin.
  assert (Hklt : (k < length mempools)%nat) by (by eapply lookup_lt_Some).
  assert (Htest : (base_ local <=? v) && (v <? lim_ local) = false).
  { destruct (Z.leb_spec (base_ local) v), (Z.ltb_spec v (lim_ local)); try done. lia. }
  assert (Hat : forall n mp', partitioned mempools v n -> mempools !! n = Some mp' ->
            base_ mp' <= v ->
            kfree_pool mempools pool v size bs tr = mempool_kfree mp' v size bs tr).
  { intros n mp' Hpart Hn Hb.
    rewrite (kfree_pool_frees_to_first_pool_not_below mempools pool n local);
      [|done|done|apply lookup_lt_Some in Hn; lia].
    rewrite Htest, Hn. destruct (Z.ltb_spec v (base_ mp')); [lia|done]. }
  assert (Habove : forall i mi, (k <= i)%nat -> mempools !! i = Some mi -> v <= lim_ mi).
  { intros i mi Hi Hmi. destruct (decide (i = k)) as [->|Hne].
    - rewrite Hk in Hmi. injection Hmi as <-. lia.
    - pose proof (pools_ordered_lt _ _ k i mp mi Ho ltac:(lia) Hk Hmi).
      pose proof (pools_ordered_lookup _ _ _ _ Ho Hmi). lia. }
  split; [|split].
  - intros prev Hprev Hpos Hgap. apply (Hat k); [|done|lia].
    split; [|done]. intros i mi Hi Hmi.
    pose proof (pools_ordered_lt _ _ i k mi mp Ho Hi Hmi Hk) as Hle.
    destruct (decide (i = pred k)) as [->|Hne].
    + rewrite Hprev in Hmi. injection Hmi as <-. lia.
    + pose proof (pools_ordered_lt _ _ i (pred k) mi prev Ho ltac:(lia) Hmi Hprev).
      pose proof (pools_ordered_lookup _ _ _ _ Ho Hprev). lia.
  - intros ->. apply (Hat 0%nat); [|done|lia].
    split; [intros; lia|done].
  - intros prev Hprev Hpos Hlim.
    pose proof (pools_ordered_lookup _ _ _ _ Ho Hprev) as [_ Hp].
    split; [|lia]. apply (Hat (pred k)); [|done|lia].
    split.
    + intros i mi Hi Hmi.
      pose proof (pools_ordered_lt _ _ i (pred k) mi prev Ho Hi Hmi Hprev). lia.
    + intros i mi Hi Hmi. destruct (decide (i = pred k)) as [->|Hne].
      * rewrite Hprev in Hmi. injection Hmi as <-. lia.
      * apply (Habove i); [lia|done].
Qed.

End MemoryPools.

(** * Boot: the buddy allocators of a node *)

Section Subdivide.
Import PhysMap BootBuddies.

Lemma subdivide_spec size_limit steps : forall remaining,
  0 < size_limit ->
  0 <= base remaining -> end_ remaining < WORD ->
  (Z.to_nat (end_ remaining - base remaining) <= steps)%nat ->
  exists pieces,
    subdivide steps remaining size_limit = Some pieces /\
    tiles (base remaining) pieces (Z.max (base remaining) (end_ remaining)) /\
    Forall (fun p => p.2 <= size_limit) pieces /\
    Z.of_nat (length pieces) =
      (Z.max 0 (end_ remaining - base remaining) + size_limit - 1) / size_limit.
Proof.
  induction steps as [|steps IH]; intros remaining HL Hb He Hsteps.
  - cbn [subdivide]. destruct (Z.ltb_spec (base remaining) (end_ remaining)); [lia|].
    exists []. split; [done|]. split; [simpl; lia|]. split; [constructor|].
    replace (Z.max 0 (end_ remaining - base remaining)) with 0 by lia.
    simpl. symmetry. apply Z.div_small. lia.
  - cbn [subdivide]. destruct (Z.ltb_spec (base remaining) (end_ remaining)) as [Hlt|Hge].
    2:{ exists []. split; [done|]. split; [simpl; lia|]. split; [constructor|].
        replace (Z.max 0 (end_ remaining - base remaining)) with 0 by lia.
        simpl. symmetry. apply Z.div_small. lia. }
    rewrite (wrap64_small (end_ remaining - base remaining)) by (unfold WORD in *; lia).
    set (subsize := Z.min (end_ remaining - base remaining) size_limit).
    assert (Hsub : 0 < subsize <= end_ remaining - base remaining) by (unfold subsize; lia).
    rewrite (wrap64_small (base remaining + subsize)) by (unfold WORD in *; lia).
    destruct (IH (mkRegion (base remaining + subsize) (end_ remaining)))
      as (pieces & -> & Htiles & Hle & Hcount); cbn [base end_]; [done|lia|done|lia|].
    cbn [base end_] in *.
    eexists. split; [reflexivity|]. split; [|split].
    + cbn [tiles]. split; [done|]. split; [lia|].
      replace (Z.max (base remaining) (end_ remaining))
        with (Z.max (base remaining + subsize) (end_ remaining)) by lia. done.
    + constructor; [simpl; unfold subsize; lia|done].
    + cbn [length]. rewrite Nat2Z.inj_succ, Hcount.
      replace (Z.max 0 (end_ remaining - base remaining))
        with (end_ remaining - base remaining) by lia.
      destruct (Z.le_gt_cases (end_ remaining - base remaining) size_limit) as [Hsmall|Hbig].
      * replace subsize with (end_ remaining - base remaining) by (unfold subsize; lia).
        replace (Z.max 0 (end_ remaining - (base remaining + (end_ remaining - base remaining))))
          with 0 by lia.
        rewrite (Z.div_small (0 + size_limit - 1)) by lia.
        replace (end_ remaining - base remaining + size_limit - 1)
          with (1 * size_limit + (end_ remaining - base remaining - 1)) by lia.
        rewrite Z.div_add_l by lia. rewrite Z.div_small by lia. lia.
      * replace subsize with size_limit by (unfold subsize; lia).
        replace (Z.max 0 (end_ remaining - (base remaining + size_limit)))
          with (end_ remaining - (base remaining + size_limit)) by lia.
        replace (end_ remaining - base remaining + size_limit - 1)
          with (1 * size_limit +
                (end_ remaining - (base remaining + size_limit) + size_limit - 1)) by lia.
        rewrite Z.div_add_l by lia. lia.
Qed.

End Subdivide.

Section NodePieces.
Import PhysMap BootBuddies.

Lemma div_add_le a b L : 0 < L -> a / L + b / L <= (a + b) / L.
Proof.
  intros HL. apply Z.div_le_lower_bound; [done|].
  pose proof (Z.mul_div_le a L HL). pose proof (Z.mul_div_le b L HL). lia.
Qed.

Lemma total_size_ge_length lo regions :
  chain lo regions -> Z.of_nat (length regions) <= PhysQuery.total_size regions.
Proof.
  revert lo; induction regions as [|r regions IH]; intros lo Hc; [done|].
  destruct Hc as (H1 & H2 & H3). specialize (IH _ H3).
  cbn [length PhysQuery.total_size foldr] in *. unfold PhysQuery.total_size in IH. lia.
Qed.

Lemma node_pieces_count L steps regions : forall lo,
  0 < L -> 0 <= lo -> chain lo regions ->
  Forall (fun r => end_ r <= UINTPTR_MAX) regions ->
  (Z.to_nat (PhysQuery.total_size regions) <= steps)%nat ->
  exists pieces,
    node_pieces steps regions L = Some pieces /\
    Forall (fun p => 0 < p.2 <= L) pieces /\
    Z.of_nat (length pieces) <=
      (PhysQuery.total_size regions - Z.of_nat (length regions)) / L
      + Z.of_nat (length regions).
Proof.
  induction regions as [|r regions IH]; intros lo HL Hlo Hc Hr Hsteps.
  - exists []. split; [done|]. split; [constructor|]. simpl. by rewrite Z.div_0_l by lia.
  - destruct Hc as (H1 & H2 & H3). inversion Hr as [|?? Hr1 Hr']; subst.
    pose proof (total_size_ge_length _ _ H3) as Hk.
    cbn [PhysQuery.total_size foldr] in Hsteps.
    fold (PhysQuery.total_size regions) in Hsteps.
    destruct (subdivide_spec L steps r HL) as (ps & Hps & Htiles & Hle & Hcount);
      [lia|unfold UINTPTR_MAX in Hr1; lia|lia|].
    destruct (IH (end_ r) HL) as (qs & Hqs & Hle' & Hcount'); [lia|done|done|lia|].
    cbn [node_pieces]. rewrite Hps, Hqs. cbn [mbind option_bind].
    exists (ps ++ qs). split; [done|]. split.
    + apply Forall_app. split; [|done].
      clear -Htiles Hle. revert Htiles Hle.
      generalize (Z.max (base r) (end_ r)). generalize (base r).
      induction ps as [|[b s] ps IHps]; intros lo hi Ht Hl; [constructor|].
      destruct Ht as (_ & Hs & Ht). inversion Hl as [|?? Hs' Hl']; subst.
      constructor; [simpl in *; lia|by eapply IHps].
    + rewrite length_app, Nat2Z.inj_add, Hcount.
      cbn [length PhysQuery.total_size foldr]. fold (PhysQuery.total_size regions).
      rewrite Nat2Z.inj_succ.
      replace (Z.max 0 (end_ r - base r) + L - 1)
        with (1 * L + (end_ r - base r - 1)) by lia.
      rewrite Z.div_add_l by lia.
      pose proof (div_add_le (end_ r - base r - 1)
                    (PhysQuery.total_size regions - Z.of_nat (length regions)) L HL).
      replace (end_ r - base r + PhysQuery.total_size regions - Z.succ (Z.of_nat (length regions)))
        with (end_ r - base r - 1 +
              (PhysQuery.total_size regions - Z.of_nat (length regions))) by lia.
      lia.
Qed.

End NodePieces.

(** X21: the loop of [initkalloc] that subdivides a region of a node
    ends and cuts the region into pieces that lie one after the other
    from its base to its end, each non-empty and no larger than
    [size_limit]; there are [ceil(size / size_limit)] of them. *)
Theorem subdivide_tiles_the_region
    (reg : PhysMap.region) (size_limit : Z) (steps : nat) :
  0 < size_limit -> 0 <= PhysMap.base reg < PhysMap.end_ reg ->
  PhysMap.end_ reg < WORD ->
  (Z.to_nat (PhysMap.end_ reg - PhysMap.base reg) <= steps)%nat ->
  exists pieces,
    BootBuddies.subdivide steps reg size_limit = Some pieces /\
    BootBuddies.tiles (PhysMap.base reg) pieces (PhysMap.end_ reg) /\
    Forall (fun p => p.2 <= size_limit) pieces /\
    Z.of_nat (length pieces) =
      (PhysMap.end_ reg - PhysMap.base reg + size_limit - 1) / size_limit.
Proof.
  intros HL Hreg He Hsteps.
  destruct (subdivide_spec size_limit steps reg HL) as (pieces & Hrun & Ht & Hle & Hn);
    [lia|done|done|].
  exists pieces. split; [done|].
  replace (Z.max (PhysMap.base reg) (PhysMap.end_ reg)) with (PhysMap.end_ reg) in Ht by lia.
  replace (Z.max 0 (PhysMap.end_ reg - PhysMap.base reg))
    with (PhysMap.end_ reg - PhysMap.base reg) in Hn by lia.
  done.
Qed.

Lemma subdivide_tiles_the_region_witness :
  exists pieces,
    BootBuddies.subdivide 100 (PhysMap.mkRegion 4096 4196) 40 = Some pieces /\
    BootBuddies.tiles 4096 pieces 4196 /\
    Forall (fun p => p.2 <= 40) pieces /\
    Z.of_nat (length pieces) = (4196 - 4096 + 40 - 1) / 40.
Proof.
  apply (subdivide_tiles_the_region (PhysMap.mkRegion 4096 4196) 40 100);
    simpl; unfold WORD; lia.
Defined.

(** X22: a node whose memory is a well-formed map of [k >= 1] regions,
    divided for [subnodes] subnodes with [size_limit =
    ceil(bytes() / subnodes)], is cut into at most [subnodes + k - 1]
    pieces, so it gets at most that many buddy allocators; [size_limit]
    is computed unless the node has no subnodes, the one case in which
    the division is by zero. *)
Theorem node_gets_at_most_subnodes_plus_holes_buddies
    (regions : PhysMap.region_vector) (subnodes : Z) (steps : nat) :
  PhysMap.wf regions -> PhysMap.in_range regions -> regions <> [] ->
  0 <= subnodes -> PhysQuery.bytes regions + subnodes - 1 < WORD ->
  (Z.to_nat (PhysQuery.bytes regions) <= steps)%nat ->
  match BootBuddies.size_limit (PhysQuery.bytes regions) subnodes with
  | None => subnodes = 0
  | Some limit =>
      exists pieces,
        BootBuddies.node_pieces steps regions limit = Some pieces /\
        Forall (fun p => 0 < p.2 <= limit) pieces /\
        Z.of_nat (length pieces) <= subnodes + Z.of_nat (length regions) - 1
  end.
Proof.
  intros Hwf Hr Hne Hsub Hov Hsteps.
  pose proof (wf_in_range_chain regions Hwf Hr) as Hc.
  rewrite bytes_total in * by done.
  pose proof (total_size_ge_length _ _ Hc) as Hk.
  assert (Hlen : 1 <= Z.of_nat (length regions)).
  { destruct regions; [done|]. cbn [length]. lia. }
  unfold BootBuddies.size_limit.
  destruct (Z.eqb_spec subnodes 0) as [?|Hnz]; [done|].
  rewrite wrap64_small by lia.
  set (T := PhysQuery.total_size regions) in *.
  set (L := (T + subnodes - 1) / subnodes).
  assert (HL : 0 < L).
  { apply Z.div_str_pos. lia. }
  assert (HnL : T <= subnodes * L).
  { pose proof (Z.mod_pos_bound (T + subnodes - 1) subnodes ltac:(lia)).
    pose proof (Z.div_mod (T + subnodes - 1) subnodes ltac:(lia)). unfold L. lia. }
  destruct (node_pieces_count L steps regions 0 HL ltac:(lia) Hc
              (in_range_ends _ Hr) Hsteps) as (pieces & Hrun & Hle & Hcount).
  exists pieces. split; [done|]. split; [done|].
  assert ((T - Z.of_nat (length regions)) / L < subnodes).
  { apply Z.div_lt_upper_bound; [done|]. lia. }
  fold T in Hcount. clearbody L T. lia.
Qed.

Lemma node_gets_at_most_subnodes_plus_holes_buddies_witness :
  let regions := [PhysMap.mkRegion 100 200; PhysMap.mkRegion 300 400] in
  exists pieces,
    BootBuddies.node_pieces 200 regions 50 = Some pieces /\
    Forall (fun p => 0 < p.2 <= 50) pieces /\
    Z.of_nat (length pieces) <= 4 + Z.of_nat (length regions) - 1.
Proof.
  intros regions.
  apply (node_gets_at_most_subnodes_plus_holes_buddies regions 4 200).
  - exists 0. simpl. lia.
  - repeat apply List.Forall_cons; try apply List.Forall_nil;
      simpl; unfold UINTPTR_MAX, WORD; lia.
  - done.
  - lia.
  - by vm_compute.
  - by vm_compute.
Defined.

(** * Boot: the page metadata array *)

Section PlacePageInfo.
Import PhysMap Kalloc BootPageInfo.
Variables v2p p2v : Z -> Z.
Variable sizeof_page_info : Z.

Lemma PGROUNDUP_shift kbase a :
  0 <= kbase -> kbase mod PGSIZE = 0 -> 0 <= a -> kbase + a + PGSIZE <= WORD ->
  PGROUNDUP (kbase + a) = kbase + PGROUNDUP a.
Proof.
  intros Hk Hal Ha Hov. assert (0 < PGSIZE) by done.
  rewrite !PGROUNDUP_eq by lia.
  apply Z.mod_divide in Hal as [q Hq]; [|lia].
  replace (kbase + a + PGSIZE - 1) with (a + PGSIZE - 1 + q * PGSIZE) by lia.
  rewrite Z.div_add by lia. lia.
Qed.

(** An address [alloc] returns lies in a region with the block below
    the end of it. *)
Lemma alloc_loop_returned regs : forall pa size va,
  alloc_loop p2v regs pa size 0 = Returned va ->
  exists r p, r ∈ regs /\ va = p2v p /\ base r <= p <= end_ r /\
    wrap64 (p + size) < end_ r.
Proof.
  induction regs as [|r regs IH]; intros pa size va Hrun; simpl in Hrun.
  - by destruct (pa =? 0).
  - destruct ((base r <=? (if pa =? 0 then base r else pa)) &&
              ((if pa =? 0 then base r else pa) <=? end_ r)) eqn:Hin.
    + apply andb_true_iff in Hin as [Hlo Hhi]. apply Z.leb_le in Hlo, Hhi.
      destruct (Z.ltb_spec (wrap64 ((if pa =? 0 then base r else pa) + size)) (end_ r)).
      * injection Hrun as <-. exists r, (if pa =? 0 then base r else pa).
        split; [left|]. done.
      * destruct (IH _ _ _ Hrun) as (r' & p & Hr' & ?). exists r', p.
        split; [by right|done].
    + destruct (IH _ _ _ Hrun) as (r' & p & Hr' & ?). exists r', p.
      split; [by right|done].
Qed.

Lemma wf_ends_le_max regs r :
  wf regs -> r ∈ regs -> base r < end_ r /\ end_ r <= PhysQuery.max regs.
Proof.
  intros [lo Hc] Hr. destruct (chain_lower _ _ _ Hc Hr) as [_ Hp]. split; [done|].
  unfold PhysQuery.max. destruct (last regs) as [l|] eqn:Hl.
  - destruct (chain_last _ _ _ Hc Hl) as [_ Hub].
    assert (Hx : covers regs (end_ r - 1)).
    { apply Exists_exists. exists r. split; [done|lia]. }
    apply Hub in Hx. lia.
  - apply last_None in Hl. subst. inversion Hr.
Qed.

(** X23: when [initkalloc] has placed the page metadata array, every
    address left in the memory map has an entry in it -- counted in
    pages from [page_info_base] its index is below [page_info_len] --
    and no address left in the map belongs to the array itself; the
    map is still ordered and disjoint.  Physical memory is taken to be
    mapped at a page-aligned [kbase], with [sizeof(page_info)] at most a
    page. *)
Theorem page_info_array_covers_the_map
    (mem0 : region_vector) (newend0 kbase limit : Z) :
  wf mem0 -> in_range mem0 ->
  direct_map v2p p2v kbase limit ->
  0 <= v2p newend0 -> v2p newend0 + PGSIZE <= limit ->
  2 * (PhysQuery.max mem0 + PGSIZE) <= limit ->
  0 <= sizeof_page_info <= PGSIZE ->
  match place_page_info v2p p2v sizeof_page_info mem0 newend0 with
  | Placed p =>
      wf (mem p) /\
      forall x, covers (mem p) x ->
        covers mem0 x /\
        page_info_base p <= x /\
        (x - page_info_base p) / PGSIZE < page_info_len p /\
        ~ (v2p (page_info_array p) <= x
             < v2p (page_info_array p) + page_info_len p * sizeof_page_info)
  | Panicked r => True
  | Unfinished => False
  end.
Proof.
  intros Hwf Hr (Hk0 & Hkal & Hklim & Hmap) Hpa0 Hpa0' Hlim HS.
  assert (HW : WORD = 2 ^ 64) by done.
  assert (HP : PGSIZE = 4096) by done.
  pose proof (wf_in_range_chain mem0 Hwf Hr) as Hc.
  set (M := PhysQuery.max mem0) in *.
  assert (HM : 0 <= M).
  { unfold M, PhysQuery.max. destruct (last mem0) as [l|] eqn:Hl; [|lia].
    apply last_Some_elem_of in Hl. destruct (chain_lower _ _ _ Hc Hl). lia. }
  unfold place_page_info. fold M.
  destruct (Hmap (v2p newend0) ltac:(lia)) as [-> _].
  set (pa0 := v2p newend0) in *.
  rewrite PGROUNDUP_shift by lia.
  destruct (PGROUNDUP_bounds pa0 ltac:(lia) ltac:(lia)) as [Hpa1 Hal1].
  set (pa1 := PGROUNDUP pa0) in *.
  destruct (Hmap pa1 ltac:(lia)) as [_ ->].
  rewrite (wrap64_small (sizeof_page_info + PGSIZE)) by lia.
  set (newend1 := kbase + pa1).
  set (len1 := wrap64 (1 + wrap64 (M - pa1) / (sizeof_page_info + PGSIZE))).
  set (bytes1 := wrap64 (len1 * sizeof_page_info)).
  unfold alloc.
  destruct (alloc_loop p2v mem0 (v2p newend1) bytes1 0) as [va| |] eqn:Halloc1; [|done..].
  destruct (alloc_loop_returned _ _ _ _ Halloc1) as (r1 & p1 & Hr1 & -> & Hp1 & Hfit1).
  destruct (wf_ends_le_max _ _ Hwf Hr1) as [Hr1p Hr1M]. fold M in Hr1M.
  assert (Hr1b : 0 <= base r1).
  { destruct (chain_lower _ _ _ Hc Hr1). lia. }
  assert (Hbelow : forall x, covers mem0 x -> 0 <= x < M).
  { intros x Hx. split; [by eapply chain_covers_lower|].
    apply Exists_exists in Hx as (r & Hin & Hx).
    destruct (wf_ends_le_max _ _ Hwf Hin) as [_ Hle]. fold M in Hle. lia. }
  destruct (Hmap p1 ltac:(lia)) as [-> Hv1].
  destruct (Z.eqb_spec (kbase + p1) newend1) as [Heq|Hne].
  - (* the array is at [newend] *)
    assert (p1 = pa1) by (unfold newend1 in Heq; lia). subst p1.
    assert (Hlen1 : len1 = 1 + (M - pa1) / (sizeof_page_info + PGSIZE)).
    { unfold len1. rewrite (wrap64_small (M - pa1)) by lia.
      apply wrap64_small. split.
      - pose proof (Z.div_pos (M - pa1) (sizeof_page_info + PGSIZE)). lia.
      - assert ((M - pa1) / (sizeof_page_info + PGSIZE) <= M - pa1).
        { apply Z.div_le_upper_bound; [lia|]. nia. }
        lia. }
    set (q := (M - pa1) / (sizeof_page_info + PGSIZE)) in *.
    assert (Hq : 0 <= q /\ q * (sizeof_page_info + PGSIZE) <= M - pa1
                 /\ M - pa1 < (q + 1) * (sizeof_page_info + PGSIZE)).
    { pose proof (Z.div_mod (M - pa1) (sizeof_page_info + PGSIZE) ltac:(lia)).
      pose proof (Z.mod_pos_bound (M - pa1) (sizeof_page_info + PGSIZE) ltac:(lia)).
      fold q in H. split; [apply Z.div_pos; lia|]. nia. }
    assert (Hbytes1 : bytes1 = len1 * sizeof_page_info /\
                      0 <= bytes1 <= sizeof_page_info + (M - pa1)).
    { assert (0 <= len1 * sizeof_page_info <= sizeof_page_info + (M - pa1)) by nia.
      unfold bytes1. rewrite wrap64_small by lia. done. }
    destruct Hbytes1 as [Hb1 Hb1'].
    rewrite (wrap64_small (pa1 + bytes1)) in Hfit1 by lia.
    replace (kbase + pa1 + bytes1) with (kbase + (pa1 + bytes1)) by lia.
    rewrite (wrap64_small (kbase + (pa1 + bytes1))) by lia.
    rewrite PGROUNDUP_shift by lia.
    destruct (PGROUNDUP_bounds (pa1 + bytes1) ltac:(lia) ltac:(lia))
      as [Hpa2 _].
    set (pa2 := PGROUNDUP (pa1 + bytes1)) in *.
    destruct (Hmap pa2 ltac:(lia)) as [_ ->].
    destruct (remove_spec mem0 0 pa2 ltac:(lia)) as (mem1 & -> & Hcov & Hch).
    cbn [mem page_info_base page_info_len page_info_array].
    split; [exists 0; by apply Hch|].
    intros x Hx. apply Hcov in Hx as [Hx Hout]. destruct (Hbelow x Hx).
    split; [done|]. split; [lia|]. split.
    + apply Z.div_lt_upper_bound; [lia|]. nia.
    + destruct (Hmap pa1 ltac:(lia)) as [_ ->]. lia.
  - (* the first hole is too small: the array tracks all of memory *)
    assert (Hlen2 : wrap64 (1 + M / PGSIZE) = 1 + M / PGSIZE /\
                    0 <= M / PGSIZE <= M).
    { assert (0 <= M / PGSIZE <= M).
      { split; [apply Z.div_pos; lia|]. apply Z.div_le_upper_bound; lia. }
      split; [|done]. apply wrap64_small. lia. }
    destruct Hlen2 as [-> Hq].
    set (len2 := 1 + M / PGSIZE) in *.
    assert (Hbytes2 : 0 <= len2 * sizeof_page_info <= PGSIZE + M).
    { pose proof (Z.mul_div_le M PGSIZE ltac:(lia)). unfold len2. nia. }
    rewrite (wrap64_small (len2 * sizeof_page_info)) by lia.
    destruct (alloc_loop p2v mem0 (v2p newend1) (len2 * sizeof_page_info) 0)
      as [va2| |] eqn:Halloc2; [|done..].
    destruct (alloc_loop_returned _ _ _ _ Halloc2) as (r2 & p2 & Hr2 & -> & Hp2 & Hfit2).
    destruct (wf_ends_le_max _ _ Hwf Hr2) as [Hr2p Hr2M]. fold M in Hr2M.
    assert (Hr2b : 0 <= base r2).
    { destruct (chain_lower _ _ _ Hc Hr2). lia. }
    destruct (Hmap p2 ltac:(lia)) as [-> ->].
    rewrite (wrap64_small (p2 + len2 * sizeof_page_info)) by lia.
    destruct (remove_spec mem0 p2 (p2 + len2 * sizeof_page_info) ltac:(lia))
      as (mem1 & -> & Hcov1 & Hch1).
    destruct (remove_spec mem1 0 pa1 ltac:(lia)) as (mem2 & -> & Hcov2 & Hch2).
    cbn [mem page_info_base page_info_len page_info_array].
    split; [exists 0; by apply Hch2, Hch1|].
    intros x Hx. apply Hcov2 in Hx as [Hx _]. apply Hcov1 in Hx as [Hx Hout].
    destruct (Hbelow x Hx).
    split; [done|]. split; [lia|]. split.
    + rewrite Z.sub_0_r. unfold len2.
      pose proof (Z.div_le_mono x M PGSIZE ltac:(lia) ltac:(lia)). lia.
    + destruct (Hmap p2 ltac:(lia)) as [_ ->]. done.
Qed.

End PlacePageInfo.

(** * Boot: the memory of each NUMA node *)

Section Carve.
Import PhysMap BootNuma.

Lemma node_ranges_spec mems : forall acc,
  ranges_ok mems -> wf acc -> in_range acc ->
  wf (foldl (fun node_mem m => add node_mem m.1 (wrap64 (m.1 + m.2))) acc mems) /\
  in_range (foldl (fun node_mem m => add node_mem m.1 (wrap64 (m.1 + m.2))) acc mems) /\
  forall x,
    covers (foldl (fun node_mem m => add node_mem m.1 (wrap64 (m.1 + m.2))) acc mems) x
    <-> covers acc x \/ in_ranges mems x.
Proof.
  induction mems as [|m mems IH]; intros acc Hok Hwf Hr.
  - split; [done|]. split; [done|]. intros x. split; [by left|].
    intros [?|(m & Hm & _)]; [done|inversion Hm].
  - inversion Hok as [|?? (H1 & H2 & H3) Hok']; subst. cbn [foldl].
    rewrite (wrap64_small (m.1 + m.2)) by (unfold UINTPTR_MAX in H3; lia).
    destruct (IH (add acc m.1 (m.1 + m.2)) Hok') as (Hwf' & Hr' & Hcov).
    { apply add_wf; [lia|done]. }
    { apply add_in_range; [done|done|lia|done]. }
    split; [done|]. split; [done|]. intros x. rewrite Hcov.
    unfold add. rewrite add_rec_covers by done. split.
    + intros [[?|?]|(m' & Hin & ?)]; [by left| |].
      * right. exists m. split; [left|done].
      * right. exists m'. split; [by right|done].
    + intros [?|(m' & Hin & Hx)]; [by left; left|].
      apply elem_of_cons in Hin as [->|Hin]; [by left; right|].
      right. by exists m'.
Qed.

Lemma carve_node_spec mem mems :
  wf mem -> in_range mem -> ranges_ok mems ->
  exists node_mem mem',
    carve_node mem mems = Some (node_mem, mem') /\
    wf node_mem /\ wf mem' /\ in_range mem' /\
    (forall x, covers node_mem x <-> covers mem x /\ in_ranges mems x) /\
    (forall x, covers mem' x <-> covers mem x /\ ~ in_ranges mems x).
Proof.
  intros Hwf Hr Hok. unfold carve_node, node_ranges.
  destruct (node_ranges_spec mems [] Hok) as (Hwf1 & Hr1 & Hcov1);
    [by exists 0|constructor|].
  destruct (intersect_spec
              (foldl (fun node_mem m => add node_mem m.1 (wrap64 (m.1 + m.2))) [] mems)
              mem Hwf Hr) as (nm & -> & Hcov2 & Hch2).
  specialize (Hcov2 Hr1). cbn [mbind option_bind].
  assert (Hwfn : wf nm) by (destruct Hwf1 as [lo Hc]; exists lo; by apply Hch2).
  destruct (remove_map_spec nm mem) as (mem' & -> & Hcov3 & Hch3).
  { destruct Hwfn as [lo Hc]. apply Forall_forall. intros r Hin.
    destruct (chain_lower _ _ _ Hc Hin). lia. }
  cbn [mbind option_bind]. exists nm, mem'. split; [done|]. split; [done|].
  pose proof (wf_in_range_chain mem Hwf Hr) as Hc.
  split; [exists 0; by apply Hch3|]. split.
  { apply (in_range_of_covers 0); [by apply Hch3|lia|].
    intros x Hx. apply Hcov3 in Hx as [Hx _].
    pose proof (in_range_covers mem x Hr Hx). lia. }
  split.
  - intros x. rewrite Hcov2, Hcov1. pose proof (covers_nil x). tauto.
  - intros x. rewrite Hcov3, Hcov2, Hcov1. pose proof (covers_nil x). tauto.
Qed.

Lemma carve_spec nodes : forall mem,
  wf mem -> in_range mem -> Forall ranges_ok nodes ->
  exists node_mems mem',
    carve mem nodes = Some (node_mems, mem') /\
    Forall wf node_mems /\ wf mem' /\
    (forall x, covers mem' x <->
       covers mem x /\ forall mems, mems ∈ nodes -> ~ in_ranges mems x) /\
    (forall i node_mem x, node_mems !! i = Some node_mem ->
       covers node_mem x <->
       covers mem x /\
       (exists mems, nodes !! i = Some mems /\ in_ranges mems x) /\
       (forall j mems, (j < i)%nat -> nodes !! j = Some mems -> ~ in_ranges mems x)).
Proof.
  induction nodes as [|mems nodes IH]; intros mem Hwf Hr Hok.
  - exists [], mem. split; [done|]. split; [constructor|]. split; [done|]. split.
    + intros x. split; [|tauto]. intros Hx. split; [done|]. intros ? Hin. inversion Hin.
    + intros i nm x Hi. done.
  - inversion Hok as [|?? Hm Hok']; subst. cbn [carve].
    destruct (carve_node_spec mem mems Hwf Hr Hm)
      as (nm & mem1 & -> & Hwfn & Hwf1 & Hr1 & Hcovn & Hcov1).
    cbn [mbind option_bind].
    destruct (IH mem1 Hwf1 Hr1 Hok') as (nms & mem' & -> & Hwfs & Hwf' & Hcov' & Hnodes).
    cbn [mbind option_bind]. exists (nm :: nms), mem'. split; [done|].
    split; [by constructor|]. split; [done|]. split.
    + intros x. rewrite Hcov', Hcov1. split.
      * intros [[Hx Hno] Hrest]. split; [done|]. intros m Hin.
        apply elem_of_cons in Hin as [->|Hin]; [done|by apply Hrest].
      * intros [Hx Hno]. split; [split; [done|]|].
        -- apply Hno. left.
        -- intros m Hin. apply Hno. by right.
    + intros i node_mem x Hi. destruct i as [|i].
      * injection Hi as <-. rewrite Hcovn. split.
        -- intros [Hx Hin]. split; [done|]. split; [by exists mems|]. intros; lia.
        -- intros (Hx & (m & [= <-] & Hin) & _). done.
      * cbn [lookup list_lookup] in Hi. rewrite (Hnodes i node_mem x Hi), Hcov1.
        cbn [lookup list_lookup]. split.
        -- intros ((Hx & Hno) & Hin & Hearlier). split; [done|]. split; [done|].
           intros j m Hj Hm'. destruct j as [|j].
           ++ injection Hm' as <-. done.
           ++ apply (Hearlier j); [lia|done].
        -- intros (Hx & Hin & Hearlier). split; [split; [done|]|split; [done|]].
           ++ apply (Hearlier 0%nat); [lia|done].
           ++ intros j m Hj Hm'. apply (Hearlier (S j)); [lia|done].
Qed.

End Carve.

(** X24: the loop of [initkalloc] over the NUMA nodes gives each node
    the bytes of the physical memory map that lie in its ranges and in
    the ranges of no earlier node -- so the memories of the nodes are
    disjoint even where the ranges of the nodes overlap -- and what it
    leaves of the map, which makes [initkalloc] panic unless it is
    empty, is the memory that lies in the ranges of no node.  All the
    maps stay ordered and disjoint. *)
Theorem numa_nodes_share_out_the_memory_map
    (mem : PhysMap.region_vector) (nodes : list (list (Z * Z))) :
  PhysMap.wf mem -> PhysMap.in_range mem -> Forall BootNuma.ranges_ok nodes ->
  exists node_mems mem',
    BootNuma.carve mem nodes = Some (node_mems, mem') /\
    Forall PhysMap.wf node_mems /\ PhysMap.wf mem' /\
    (forall x, PhysMap.covers mem' x <->
       PhysMap.covers mem x /\
       forall mems, mems ∈ nodes -> ~ BootNuma.in_ranges mems x) /\
    (forall i node_mem x, node_mems !! i = Some node_mem ->
       PhysMap.covers node_mem x <->
       PhysMap.covers mem x /\
       (exists mems, nodes !! i = Some mems /\ BootNuma.in_ranges mems x) /\
       (forall j mems, (j < i)%nat -> nodes !! j = Some mems ->
          ~ BootNuma.in_ranges mems x)).
Proof. intros Hwf Hr Hok. by apply carve_spec. Qed.

Lemma numa_nodes_share_out_the_memory_map_witness :
  let mem := [PhysMap.mkRegion 100 1000; PhysMap.mkRegion 2000 3000] in
  let nodes := [[(0, 600)]; [(500, 2000); (2400, 1000)]] in
  exists node_mems mem',
    BootNuma.carve mem nodes = Some (node_mems, mem') /\
    Forall PhysMap.wf node_mems /\ PhysMap.wf mem' /\
    (forall x, PhysMap.covers mem' x <->
       PhysMap.covers mem x /\
       forall mems, mems ∈ nodes -> ~ BootNuma.in_ranges mems x).
Proof.
  intros mem nodes.
  destruct (numa_nodes_share_out_the_memory_map mem nodes)
    as (node_mems & mem' & Hrun & Hwfs & Hwf' & Hcov & _).
  - exists 0. simpl. lia.
  - repeat apply List.Forall_cons; try apply List.Forall_nil;
      simpl; unfold UINTPTR_MAX, WORD; lia.
  - repeat apply List.Forall_cons; try apply List.Forall_nil;
      simpl; unfold UINTPTR_MAX, WORD; lia.
  - exists node_mems, mem'. split; [exact Hrun|]. split; [exact Hwfs|].
    split; [exact Hwf'|exact Hcov].
Defined.

Section LoadBalanceCache.
Import Kalloc KallocTrace LoadBalance.
Context `{Platform}.
Variable balance :
  list buddy_allocator -> list event -> list buddy_allocator * list event.

(** X25: in the load-balancing variant too a page freed while the hot
    cache has room is the page the next [kalloc] of a page on that CPU
    returns; neither call touches a memory pool or takes a lock, and the
    balancer is not run. *)
Theorem lb_kfree_then_kalloc_returns_the_page
    (mempools : list mempool) (c : nat) (v : Z) (st : kstate) (mem : cpu_mem) :
  kinited st = true -> cpus st !! c = Some mem ->
  (nhot mem < KALLOC_HOT_PAGES)%nat ->
  length (hot_pages mem) = KALLOC_HOT_PAGES -> v <> 0 ->
  exists st1 st2 mem2,
    LoadBalanceAlloc.kfree mempools c v PGSIZE st = Ok st1 /\
    LoadBalanceAlloc.kalloc balance mempools c PGSIZE st1 = Ok (v, st2) /\
    buddies st2 = buddies st /\
    trace st2 = trace st ++ [Count kalloc_page_free_count] /\
    cpus st2 !! c = Some mem2 /\ cached mem2 = cached mem.
Proof.
  intros Hinit Hc Hroom Hlen Hv.
  assert (Hclt : (c < length (cpus st))%nat) by (by eapply lookup_lt_Some).
  unfold LoadBalanceAlloc.kfree. rewrite Z.eqb_refl, Hc. run.
  destruct (Nat.eqb_spec (nhot mem) KALLOC_HOT_PAGES) as [?|_]; [lia|]. run.
  destruct (Nat.ltb_spec (nhot mem) KALLOC_HOT_PAGES) as [_|?]; [|lia].
  eexists _, _, _. split; [reflexivity|].
  unfold LoadBalanceAlloc.kalloc. run. rewrite Hinit. cbn [negb].
  rewrite list_lookup_insert_eq by done. run.
  rewrite Z.eqb_refl. cbn [andb Nat.ltb Nat.leb pred].
  rewrite list_lookup_insert_eq by lia. run.
  destruct (Z.eqb_spec v 0) as [?|_]; [done|]. run.
  unfold finish. destruct (Z.eqb_spec v 0) as [?|_]; [done|].
  split; [reflexivity|]. run. split; [done|]. split; [done|].
  split; [by rewrite list_lookup_insert_eq by (by rewrite length_insert)|].
  unfold cached. run. by rewrite take_insert_ge by lia.
Qed.

End LoadBalanceCache.

Section LoadBalanceFlush.
Import Kalloc KallocTrace LoadBalance.
Context `{Platform}.

Lemma flush_pool_spec mempools pool local lo ptrs : forall bs tr,
  pools_ordered lo mempools -> mempools !! pool = Some local ->
  Forall (fun mp => (buddy_ mp < length bs)%nat) mempools ->
  Forall (in_a_pool mempools) ptrs ->
  exists bs' tr',
    LoadBalanceAlloc.flush_pool mempools pool ptrs bs tr = Ok (bs', tr') /\
    length bs' = length bs /\
    frees tr' = frees tr ++ ptrs /\
    length (acquired tr') = (length (acquired tr) + length ptrs)%nat.
Proof.
  induction ptrs as [|ptr ptrs IH]; intros bs tr Ho Hlocal Hbs Hptrs.
  - exists bs, tr. split; [done|]. split; [done|]. rewrite app_nil_r. simpl.
    split; [done|lia].
  - inversion Hptrs as [|?? (k & mp & Hk & Hin) Hptrs']; subst.
    destruct (kfree_pool_in_pool mempools pool k local mp lo ptr PGSIZE bs tr
                Ho Hlocal Hk Hin) as (j & mpj & Hj & Hfree).
    cbn [LoadBalanceAlloc.flush_pool]. rewrite Hfree. unfold mempool_kfree.
    assert (Hjlt : (buddy_ mpj < length bs)%nat).
    { eapply (proj1 (Forall_forall _ _) Hbs). by eapply list_elem_of_lookup_2. }
    destruct (lookup_lt_is_Some_2 bs _ Hjlt) as [b ->]. run.
    destruct (IH (<[buddy_ mpj:=buddy_free b ptr PGSIZE]> bs)
                (tr ++ [Acquire (buddy_ mpj); BuddyFree (buddy_ mpj) ptr PGSIZE])
                Ho Hlocal) as (bs' & tr' & -> & Hlen & Hfr & Hacq).
    + eapply Forall_impl; [exact Hbs|]. intros m Hm. by rewrite length_insert.
    + done.
    + exists bs', tr'. split; [done|]. rewrite length_insert in Hlen.
      split; [done|]. split.
      * rewrite Hfr, frees_app. simpl. by rewrite <- app_assoc.
      * rewrite Hacq, acquired_app, length_app. simpl. lia.
Qed.

(** X26: in the load-balancing variant [kfree] of a page with the hot
    cache full hands the lower half of the cache, in ascending order of
    address, to the memory pools, one [kfree_pool] and so one lock
    acquisition per page; the surviving pages move to the front and the
    freed pointer follows them.  The pools lie one after the other and
    the pages of the lower half each lie in a pool. *)
Theorem lb_hot_cache_overflow_flushes_half
    (mempools : list mempool) (c : nat) (v lo : Z) (st : kstate)
    (mem : cpu_mem) (local : mempool) :
  cpus st !! c = Some mem ->
  nhot mem = KALLOC_HOT_PAGES -> length (hot_pages mem) = KALLOC_HOT_PAGES ->
  (2 <= KALLOC_HOT_PAGES)%nat ->
  pools_ordered lo mempools -> mempools !! Kalloc.mempool mem = Some local ->
  Forall (fun mp => (buddy_ mp < length (buddies st))%nat) mempools ->
  Forall (in_a_pool mempools) (take (KALLOC_HOT_PAGES / 2) (hot_pages mem)) ->
  exists st' mem',
    LoadBalanceAlloc.kfree mempools c v PGSIZE st = Ok st' /\
    frees (trace st') =
      frees (trace st) ++ sort (take (KALLOC_HOT_PAGES / 2) (hot_pages mem)) /\
    length (acquired (trace st')) =
      (length (acquired (trace st)) + KALLOC_HOT_PAGES / 2)%nat /\
    cpus st' !! c = Some mem' /\
    cached mem' = drop (KALLOC_HOT_PAGES / 2) (hot_pages mem) ++ [v].
Proof.
  intros Hc Hfull Hlen Hhot Ho Hlocal Hbs Hin.
  set (half := (KALLOC_HOT_PAGES / 2)%nat) in *.
  set (n := (KALLOC_HOT_PAGES - half)%nat).
  assert (Hhalf : (1 <= half /\ half <= KALLOC_HOT_PAGES /\ 2 * half <= KALLOC_HOT_PAGES)%nat).
  { unfold half. pose proof (Nat.div_mod_eq KALLOC_HOT_PAGES 2).
    pose proof (Nat.mod_upper_bound KALLOC_HOT_PAGES 2). lia. }
  assert (Hsl : length (sort (take half (hot_pages mem))) = half).
  { rewrite sort_length, length_take. lia. }
  unfold LoadBalanceAlloc.kfree. rewrite Z.eqb_refl, Hc. run.
  rewrite Hfull, Nat.eqb_refl. fold half. fold n.
  rewrite (take_app_length' (sort (take half (hot_pages mem)))) by done.
  destruct (flush_pool_spec mempools (Kalloc.mempool mem) local lo
              (sort (take half (hot_pages mem))) (buddies st)
              (trace st ++ [Count kalloc_hot_list_flush_count]) Ho Hlocal Hbs)
    as (bs' & tr' & -> & Hlen' & Hfrees & Hacq).
  { unfold sort. rewrite merge_sort_Permutation. exact Hin. }
  run.
  destruct (Nat.ltb_spec n KALLOC_HOT_PAGES) as [_|?]; [|lia].
  eexists. eexists. split; [reflexivity|]. run.
  rewrite (drop_app_length' (sort (take half (hot_pages mem)))) by done.
  assert (Hdl : length (drop half (hot_pages mem)) = n) by (rewrite length_drop; lia).
  rewrite (take_ge (drop half (hot_pages mem))) by lia.
  split.
  { rewrite frees_app, Hfrees, !frees_app. simpl. by rewrite !app_nil_r. }
  split.
  { rewrite acquired_app, length_app, Hacq, acquired_app, length_app, Hsl. simpl. lia. }
  split; [apply list_lookup_insert_eq; by eapply lookup_lt_Some|].
  unfold cached. run.
  assert (Hrest : (0 < length (drop n (sort (take half (hot_pages mem)) ++
                                     drop half (hot_pages mem))))%nat).
  { rewrite length_drop, length_app, Hsl, Hdl. lia. }
  rewrite insert_app_r_alt by lia. rewrite Hdl, Nat.sub_diag.
  destruct (drop n (sort (take half (hot_pages mem)) ++ drop half (hot_pages mem)))
    as [|x rest]; [simpl in Hrest; lia|].
  cbn [insert list_insert]. 
  replace (S n) with (length (drop half (hot_pages mem) ++ [v]))
    by (rewrite length_app, Hdl; simpl; lia).
  replace (drop half (hot_pages mem) ++ v :: rest)
    with ((drop half (hot_pages mem) ++ [v]) ++ rest) by (by rewrite <- app_assoc).
  by rewrite take_app_length.
Qed.

End LoadBalanceFlush.

(** * gcbench *)

Section GcBenchFacts.
Import GcBench.

Lemma int_bytes_range x : Forall (fun b => 0 <= b < 256) (int_bytes x).
Proof.
  unfold int_bytes. repeat constructor.
  all: change 255 with (Z.ones 8); rewrite Z.land_ones by lia.
  all: apply Z.mod_pos_bound; lia.
Qed.

Lemma read_int_bytes x rest :
  is_int x -> read_int (int_bytes x ++ rest) 0 = Some x.
Proof.
  intros Hx. unfold is_int in Hx. unfold read_int, int_bytes. cbn [drop take app].
  change 255 with (Z.ones 8). rewrite !Z.land_ones, !Z.shiftr_div_pow2 by lia.
  f_equal.
  change (2 ^ 8) with 256. change (2 ^ 16) with 65536. change (2 ^ 24) with 16777216.
  assert (Hu : x mod 256 + 256 * (x / 256 mod 256) + 65536 * (x / 65536 mod 256)
               + 16777216 * (x / 16777216 mod 256) = x mod 2 ^ 32).
  { assert (H2 : x / 65536 = x / 256 / 256) by (by rewrite Z.div_div by lia).
    assert (H3 : x / 16777216 = x / 256 / 256 / 256) by (by rewrite !Z.div_div by lia).
    rewrite H2, H3.
    pose proof (Z.div_mod x 256 ltac:(lia)).
    pose proof (Z.div_mod (x / 256) 256 ltac:(lia)).
    pose proof (Z.div_mod (x / 256 / 256) 256 ltac:(lia)).
    pose proof (Z.div_mod (x / 256 / 256 / 256) 256 ltac:(lia)).
    pose proof (Z.mod_pos_bound x 256 ltac:(lia)).
    pose proof (Z.mod_pos_bound (x / 256) 256 ltac:(lia)).
    pose proof (Z.mod_pos_bound (x / 256 / 256) 256 ltac:(lia)).
    pose proof (Z.mod_pos_bound (x / 256 / 256 / 256) 256 ltac:(lia)).
    apply (Z.mod_unique x (2 ^ 32) (x / 256 / 256 / 256 / 256)); lia. }
  rewrite Hu.
  destruct (Z.ltb_spec (x mod 2 ^ 32) (2 ^ 31)) as [Hlt|Hge].
  - destruct (Z.le_gt_cases 0 x) as [Hpos|Hneg].
    + apply Z.mod_small. lia.
    + exfalso. assert (x mod 2 ^ 32 = x + 2 ^ 32); [|lia].
      symmetry. apply (Z.mod_unique x (2 ^ 32) (-1)); lia.
  - destruct (Z.le_gt_cases 0 x) as [Hpos|Hneg].
    + exfalso. rewrite Z.mod_small in Hge by lia. lia.
    + assert (x mod 2 ^ 32 = x + 2 ^ 32); [|lia].
      symmetry. apply (Z.mod_unique x (2 ^ 32) (-1)); lia.
Qed.

End GcBenchFacts.

(** X27: the control message of gcbench is twelve bytes, and the three
    [int] arguments of [ctrl] can be read back from it at the offsets 0,
    4 and 8; [ctrl] dies exactly when [write] returns a negative
    number. *)
Theorem ctrl_message_holds_its_three_arguments
    (write : list Z -> Z -> Z) (ncore size op : Z) :
  GcBench.is_int ncore -> GcBench.is_int size -> GcBench.is_int op ->
  length (GcBench.ctrl_buf ncore size op) = 12%nat /\
  Forall (fun b => 0 <= b < 256) (GcBench.ctrl_buf ncore size op) /\
  GcBench.read_int (GcBench.ctrl_buf ncore size op) 0 = Some ncore /\
  GcBench.read_int (GcBench.ctrl_buf ncore size op) 4 = Some size /\
  GcBench.read_int (GcBench.ctrl_buf ncore size op) 8 = Some op /\
  (GcBench.ctrl write ncore size op = GcBench.Died <->
   write (GcBench.ctrl_buf ncore size op) 12 < 0).
Proof.
  intros Hn Hs Ho. split; [done|]. split; [|split; [|split; [|split]]].
  - unfold GcBench.ctrl_buf. rewrite !Forall_app.
    split; [|split]; apply int_bytes_range.
  - unfold GcBench.ctrl_buf. by apply read_int_bytes.
  - pose proof (read_int_bytes size (GcBench.int_bytes op) Hs) as H.
    unfold GcBench.read_int in *. exact H.
  - pose proof (read_int_bytes op [] Ho) as H.
    unfold GcBench.read_int in *. exact H.
  - unfold GcBench.ctrl. change (3 * 4) with 12.
    destruct (Z.ltb_spec (write (GcBench.ctrl_buf ncore size op) 12) 0);
      split; (done || lia).
Qed.

Lemma ctrl_message_holds_its_three_arguments_witness :
  GcBench.read_int (GcBench.ctrl_buf 8 1000000 (-1)) 4 = Some 1000000 /\
  GcBench.read_int (GcBench.ctrl_buf 8 1000000 (-1)) 8 = Some (-1).
Proof.
  destruct (ctrl_message_holds_its_three_arguments (fun _ n => n) 8 1000000 (-1))
    as (_ & _ & _ & Hs & Ho & _); unfold GcBench.is_int; try lia.
  split; [exact Hs|exact Ho].
Defined.

(** * The new properties at work on the second platform *)

Lemma kfree_then_kalloc_returns_the_page_witness :
  exists st1 st2,
    Kalloc.kfree 0 0x13000 Kalloc.PGSIZE Blocks.state_both = Kalloc.Ok st1 /\
    Kalloc.kalloc 0 Kalloc.PGSIZE st1 = Kalloc.Ok (0x13000, st2) /\
    Kalloc.buddies st2 = Kalloc.buddies Blocks.state_both.
Proof.
  destruct (@kfree_then_kalloc_returns_the_page (Blocks.block_platform 4)
              0%nat 0x13000 Blocks.state_both Blocks.cpu_both
              eq_refl eq_refl ltac:(simpl; lia) eq_refl ltac:(lia))
    as (st1 & st2 & mem2 & H1 & H2 & H3 & _).
  exists st1, st2. split; [exact H1|]. split; [exact H2|exact H3].
Defined.

Lemma blocks_in_range :
  Forall (fun i => (i < length (Kalloc.buddies Blocks.state_both))%nat) [0; 1]%nat.
Proof. repeat apply List.Forall_cons; try apply List.Forall_nil; simpl; lia. Qed.

Lemma kfree_block_goes_to_first_buddy_holding_it_witness :
  exists j st',
    Kalloc.kfree 0 0x21000 8192 Blocks.state_both = Kalloc.Ok st' /\
    Kalloc.trace st' =
      Kalloc.trace Blocks.state_both ++
      [Kalloc.Acquire j; Kalloc.BuddyFree j 0x21000 8192].
Proof.
  destruct (@kfree_block_goes_to_first_buddy_holding_it (Blocks.block_platform 4)
              0%nat 0x21000 8192 Blocks.state_both Blocks.cpu_both [0; 1]%nat
              ltac:(discriminate) eq_refl eq_refl blocks_in_range)
    as (pre & j & post & b & st' & _ & _ & _ & _ & Hk & _ & Htr & _).
  - exists 1%nat, (Blocks.mkBlocks 0x20000 0x40000 [(0x20000, 8192); (0x23000, 4096)]).
    split; [right; left|]. split; reflexivity.
  - exists j, st'. split; [exact Hk|exact Htr].
Defined.

Lemma kalloc_block_comes_from_first_buddy_serving_witness :
  exists st',
    Kalloc.kalloc 0 8192 Blocks.state_both = Kalloc.Ok (0x20000, st') /\
    Kalloc.acquired (Kalloc.trace st') = [0; 1]%nat.
Proof.
  destruct (@kalloc_block_comes_from_first_buddy_serving (Blocks.block_platform 4)
              0%nat 8192 Blocks.state_both Blocks.cpu_both [0%nat] [] 1%nat
              (Blocks.mkBlocks 0x20000 0x40000 [(0x20000, 8192); (0x23000, 4096)])
              eq_refl ltac:(discriminate) eq_refl eq_refl)
    as (st' & Hk & Hacq & _).
  - repeat constructor; rewrite ?elem_of_cons, ?elem_of_nil; lia.
  - repeat apply List.Forall_cons; try apply List.Forall_nil; simpl; lia.
  - intros i b Hi Hb. apply list_elem_of_singleton in Hi. subst i.
    injection Hb as <-. reflexivity.
  - reflexivity.
  - discriminate.
  - exists st'. split; [exact Hk|exact Hacq].
Defined.



Lemma kfree_pool_frees_to_first_pool_not_below_witness :
  @LoadBalance.kfree_pool (Blocks.block_platform 4) Blocks.two_pools 0
    0x21000 8192 Blocks.two_buddies [] =
  @LoadBalance.mempool_kfree (Blocks.block_platform 4)
    (LoadBalance.mkMempool 1 0x20000 0x40000) 0x21000 8192 Blocks.two_buddies [].
Proof.
  rewrite (@kfree_pool_frees_to_first_pool_not_below (Blocks.block_platform 4)
             Blocks.two_pools 0%nat 1%nat (LoadBalance.mkMempool 0 0x10000 0x20000)
             0x21000 8192 Blocks.two_buddies [] eq_refl).
  - reflexivity.
  - split.
    + intros [|i] mp Hi Hmp; [|lia]. injection Hmp as <-. simpl. lia.
    + intros [|[|i]] mp Hi Hmp; [lia| |done]. injection Hmp as <-. simpl. lia.
  - simpl. lia.
Defined.

Lemma kfree_pool_boundary_goes_to_lower_pool_witness :
  @LoadBalance.kfree_pool (Blocks.block_platform 4) Blocks.two_pools 0
    0x20000 4096 Blocks.two_buddies [] =
  @LoadBalance.mempool_kfree (Blocks.block_platform 4)
    (LoadBalance.mkMempool 0 0x10000 0x20000) 0x20000 4096 Blocks.two_buddies [] /\
  ~ (0x10000 <= 0x20000 < 0x20000).
Proof.
  apply (proj2 (proj2
           (@kfree_pool_boundary_goes_to_lower_pool (Blocks.block_platform 4)
              Blocks.two_pools 0%nat 1%nat (LoadBalance.mkMempool 0 0x10000 0x20000)
              (LoadBalance.mkMempool 1 0x20000 0x40000) 0 0x20000 4096
              Blocks.two_buddies []
              ltac:(simpl; lia) eq_refl ltac:(simpl; lia) eq_refl ltac:(simpl; lia)))
           (LoadBalance.mkMempool 0 0x10000 0x20000) eq_refl ltac:(lia) eq_refl).
Defined.

Lemma lb_kfree_then_kalloc_returns_the_page_witness :
  exists st1 st2,
    LoadBalanceAlloc.kfree Blocks.two_pools 0 0x13000 Kalloc.PGSIZE Blocks.state_both
      = Kalloc.Ok st1 /\
    @LoadBalanceAlloc.kalloc (Blocks.block_platform 4) Blocks.no_balance
      Blocks.two_pools 0 Kalloc.PGSIZE st1
      = Kalloc.Ok (0x13000, st2) /\
    Kalloc.buddies st2 = Kalloc.buddies Blocks.state_both.
Proof.
  destruct (@lb_kfree_then_kalloc_returns_the_page (Blocks.block_platform 4)
              Blocks.no_balance Blocks.two_pools 0%nat 0x13000
              Blocks.state_both Blocks.cpu_both
              eq_refl eq_refl ltac:(simpl; lia) eq_refl ltac:(lia))
    as (st1 & st2 & mem2 & H1 & H2 & H3 & _).
  exists st1, st2. split; [exact H1|]. split; [exact H2|exact H3].
Defined.

Lemma lb_hot_cache_overflow_flushes_half_witness :
  exists st' mem',
    LoadBalanceAlloc.kfree Blocks.two_pools 0 0x15000 Kalloc.PGSIZE Blocks.state_full
      = Kalloc.Ok st' /\
    Kalloc.frees (Kalloc.trace st') = [0x12000; 0x20000] /\
    Kalloc.cpus st' !! 0%nat = Some mem' /\
    @KallocTrace.cached (Blocks.block_platform 4) mem' = [0x13000; 0x14000; 0x15000].
Proof.
  destruct (@lb_hot_cache_overflow_flushes_half (Blocks.block_platform 4)
              Blocks.two_pools 0%nat 0x15000 0 Blocks.state_full Blocks.cpu_full
              (LoadBalance.mkMempool 0 0x10000 0x20000)
              eq_refl eq_refl eq_refl ltac:(simpl; lia) ltac:(simpl; lia) eq_refl)
    as (st' & mem' & Hk & Hfr & _ & Hc & Hcached).
  - repeat apply List.Forall_cons; try apply List.Forall_nil; simpl; lia.
  - repeat apply List.Forall_cons; try apply List.Forall_nil.
    + exists 1%nat, (LoadBalance.mkMempool 1 0x20000 0x40000).
      split; [reflexivity|simpl; lia].
    + exists 0%nat, (LoadBalance.mkMempool 0 0x10000 0x20000).
      split; [reflexivity|simpl; lia].
  - exists st', mem'. split; [exact Hk|]. split; [exact Hfr|].
    split; [exact Hc|exact Hcached].
Defined.

Lemma page_info_array_covers_the_map_witness :
  let v2p := fun va => va - 2 ^ 63 in
  let p2v := fun pa => 2 ^ 63 + pa in
  exists p,
    BootPageInfo.place_page_info v2p p2v 64
      [PhysMap.mkRegion 0x100000 0x8000000] (2 ^ 63 + 0x300123)
      = BootPageInfo.Placed p /\
    PhysMap.wf (BootPageInfo.mem p) /\
    forall x, PhysMap.covers (BootPageInfo.mem p) x ->
      BootPageInfo.page_info_base p <= x /\
      (x - BootPageInfo.page_info_base p) / Kalloc.PGSIZE
        < BootPageInfo.page_info_len p.
Proof.
  intros v2p p2v.
  pose proof (page_info_array_covers_the_map v2p p2v 64
                [PhysMap.mkRegion 0x100000 0x8000000] (2 ^ 63 + 0x300123)
                (2 ^ 63) (2 ^ 40)
                ltac:(exists 0; simpl; lia)
                ltac:(repeat apply List.Forall_cons; try apply List.Forall_nil;
                      simpl; unfold UINTPTR_MAX, WORD; lia)) as Hthm.
  destruct (BootPageInfo.place_page_info v2p p2v 64
              [PhysMap.mkRegion 0x100000 0x8000000] (2 ^ 63 + 0x300123))
    as [p| |] eqn:Hrun; [|vm_compute in Hrun; discriminate..].
  exists p. split; [reflexivity|].
  destruct Hthm as [Hwf Hall].
  - split; [lia|]. split; [reflexivity|]. split; [unfold WORD; lia|].
    intros x Hx. unfold p2v, v2p. lia.
  - unfold v2p. lia.
  - unfold v2p. unfold Kalloc.PGSIZE. lia.
  - unfold PhysQuery.max, Kalloc.PGSIZE. simpl. lia.
  - unfold Kalloc.PGSIZE. lia.
  - split; [exact Hwf|]. intros x Hx. destruct (Hall x Hx) as (_ & H1 & H2 & _).
    split; [exact H1|exact H2].
Defined.
